(** * draftDbOps: tournament keys and the idempotent game/team/ban/pick writers

    A shallow embedding of [src/draftDbOps.py].  The sqlite cursor becomes an
    explicit [Store] (the four tables and the text printed so far) threaded
    through a state-and-exception monad; Python exceptions are values of
    [Exn]; the two [while] loops take fuel. *)

From Stdlib Require Import String Ascii List ZArith Lia Bool DecimalString.
From Stdlib Require Import Sorted Permutation.
Import ListNotations.
Local Open Scope string_scope.
Local Open Scope Z_scope.

(** ** Python values and exceptions *)

Inductive Exn : Type :=
| KeyError (key : string)          (* dict[key] on a missing key *)
| AttributeError                   (* None.group(0) *)
| NameError (name : string)        (* an unbound global *)
| AliasException (alias : string). (* raised by championinfo *)

(** ** The two regular expressions of [getTournamentData] *)

Module Re.

(** The character class [[0-9]]. *)
Definition isdigit (c : ascii) : bool :=
  ((48 <=? nat_of_ascii c)%nat && (nat_of_ascii c <=? 57)%nat)%bool.

(** Greedy [[0-9]*] at the head of [s]: the digits taken and what is left. *)
Fixpoint span_digits (s : string) : string * string :=
  match s with
  | String c r =>
      if isdigit c
      then let (d, rest) := span_digits r in (String c d, rest)
      else (EmptyString, s)
  | EmptyString => (EmptyString, EmptyString)
  end.

(** [re.search("([0-9]+)", s)]: [None] when [s] has no digit, else the
    match, of which only [group(0)] is used: the leftmost maximal run. *)
Fixpoint search_digits (s : string) : option string :=
  match s with
  | String c r =>
      if isdigit c then Some (fst (span_digits s)) else search_digits r
  | EmptyString => None
  end.

(** Puts a character in front of the first piece of a split. *)
Definition push (c : ascii) (pieces : list string) : list string :=
  match pieces with
  | p :: ps => String c p :: ps
  | [] => [String c EmptyString]
  end.

(** [re.split("_?[0-9]+_?", s)].  [inmatch] says that the scan is inside a
    match, after at least one digit: further digits and then one underscore
    still belong to it.  Outside a match, a match starts at a digit, or at
    an underscore that a digit follows. *)
Fixpoint split_year (inmatch : bool) (s : string) : list string :=
  match s with
  | EmptyString => [EmptyString]
  | String c r =>
      if inmatch then
        if isdigit c then split_year true r
        else if Ascii.eqb c "_" then split_year false r
        else push c (split_year false r)
      else
        if isdigit c then EmptyString :: split_year true r
        else if Ascii.eqb c "_" then
          match r with
          | String d _ =>
              if isdigit d then EmptyString :: split_year true r
              else push c (split_year false r)
          | EmptyString => push c (split_year false r)
          end
        else push c (split_year false r)
  end.

Definition split (s : string) : list string := split_year false s.

End Re.

(** ** Module constants *)

Definition dict := list (string * string).

Definition regionsDict : dict :=
  [("North_America", "NA"); ("Europe", "EU"); ("LCK", "LCK"); ("LPL", "LPL");
   ("LMS", "LMS")].

Definition internationalEventsDict : dict :=
  [("Mid-Season_Invitational", "MSI"); ("Rift_Rivals", "RR");
   ("World_Championship", "WRLDS")].

Fixpoint lookup (d : dict) (k : string) : option string :=
  match d with
  | (k', v) :: d' => if String.eqb k' k then Some v else lookup d' k
  | [] => None
  end.

(** [d[k]]: the value, or [KeyError]. *)
Definition getitem (d : dict) (k : string) : Exn + string :=
  match lookup d k with
  | Some v => inr v
  | None => inl (KeyError k)
  end.

(** ** Input records (the dictionaries that [queryWiki] produces) *)

Record GameData : Type := mkGameData {
  region : string;
  season : option string;
  split : option string;
  tourn_game_id : Z;
  blue_team : option string;   (* None is stored as SQL NULL *)
  red_team : option string;
  winning_team : Z;
  bans_blue : list string;     (* game["bans"]["blue"] *)
  bans_red : list string;
  picks_blue : list (string * Z);   (* (champion name, position) *)
  picks_red : list (string * Z)
}.

(** ** getTournamentData *)

(** [m.group(0)] on the result of [re.search]. *)
Definition group0 (m : option string) : Exn + string :=
  match m with
  | Some y => inr y
  | None => inl AttributeError
  end.

Definition getTournamentData (gameData : GameData) : Exn + string :=
  match
    match season gameData with
    | None => group0 (Re.search_digits (region gameData))
    | Some se => group0 (Re.search_digits se)
    end
  with
  | inl e => inl e
  | inr year =>
      match
        match split gameData with
        | None =>
            getitem internationalEventsDict
                    (String.concat "" (Re.split (region gameData)))
        | Some sp =>
            match getitem regionsDict (region gameData) with
            | inl e => inl e
            | inr abbrv => inr (String.concat "/" [sp; abbrv])
            end
        end
      with
      | inl e => inl e
      | inr tournamentData => inr (String.concat "/" [year; tournamentData])
      end
  end.

(** ** The store behind the cursor *)

(** Modelled from the spec: the CREATE TABLE statements are not part of the
    module, so the columns are those the queries name and section 3 of the
    specification lists; [id] is the generated integer key, one more than the
    largest key in the table.  A nullable column is an [option]. *)

Record GameRow : Type := mkGameRow {
  game_id_of : Z;
  game_tournament : string;
  game_tourn_game_id : Z;
  game_blue_teamid : Z;
  game_red_teamid : Z;
  game_winning_team : Z
}.

Record TeamRow : Type := mkTeamRow {
  team_id_of : Z;
  team_region : option string;
  team_display_name : option string
}.

Record BanRow : Type := mkBanRow {
  ban_game_id : Z;
  ban_champion_id : option Z;
  ban_selection_order : Z;
  ban_side_id : Z
}.

Record PickRow : Type := mkPickRow {
  pick_game_id : Z;
  pick_champion_id : option Z;
  pick_position_id : Z;
  pick_selection_order : Z;
  pick_side_id : Z
}.

(** Rows are kept in insertion order; [stdout] holds the printed lines. *)
Record Store : Type := mkStore {
  game : list GameRow;
  team : list TeamRow;
  ban : list BanRow;
  pick : list PickRow;
  stdout : list string
}.

Definition empty_store : Store := mkStore [] [] [] [] [].

(** ** State and exceptions *)

Inductive Outcome (A : Type) : Type :=
| Ok (a : A) (s : Store)        (* normal return *)
| Raise (e : Exn) (s : Store)   (* an exception leaves the function *)
| OutOfFuel.                    (* a while loop did not finish *)

Arguments Ok {A} a s.
Arguments Raise {A} e s.
Arguments OutOfFuel {A}.

Definition M (A : Type) : Type := Store -> Outcome A.

Definition ret {A} (a : A) : M A := fun s => Ok a s.

Definition bind {A B} (c : M A) (k : A -> M B) : M B :=
  fun s =>
    match c s with
    | Ok a s' => k a s'
    | Raise e s' => Raise e s'
    | OutOfFuel => OutOfFuel
    end.

Definition raise {A} (e : Exn) : M A := fun s => Raise e s.

Definition lift {A} (r : Exn + A) : M A :=
  match r with
  | inl e => raise e
  | inr a => ret a
  end.

Declare Scope py_scope.
Delimit Scope py_scope with py.
Notation "x <- c ;; k" := (bind c (fun x => k))
  (at level 61, c at next level, right associativity) : py_scope.
Notation "c ;; k" := (bind c (fun _ => k))
  (at level 61, right associativity) : py_scope.
Local Open Scope py_scope.

(** [for x in l: body x] *)
Fixpoint for_each {A} (l : list A) (body : A -> M unit) : M unit :=
  match l with
  | [] => ret tt
  | x :: l' => body x ;; for_each l' body
  end.

(** A [for] loop that updates one local variable. *)
Fixpoint for_acc {A X} (l : list A) (x : X) (body : A -> X -> M X) : M X :=
  match l with
  | [] => ret x
  | a :: l' => x' <- body a x ;; for_acc l' x' body
  end.

Definition say (line : string) (s : Store) : Store :=
  mkStore (game s) (team s) (ban s) (pick s) (stdout s ++ [line]).

Definition print (line : string) : M unit := fun s => Ok tt (say line s).

(** ["{}".format(n)] for an integer. *)
Definition str (n : Z) : string := NilZero.string_of_int (Z.to_int n).

(** ** The SQL statements *)

Module Sql.

(** [column = ?]: never true when either side is NULL. *)
Definition eq_text (column param : option string) : bool :=
  match column, param with
  | Some a, Some b => String.eqb a b
  | _, _ => false
  end.

(** The key given to an inserted row. *)
Definition next_id {R} (id_of : R -> Z) (rows : list R) : Z :=
  1 + fold_right (fun r m => Z.max (id_of r) m) 0 rows.

(** [SELECT id FROM game WHERE tournament=? AND tourn_game_id=?], then
    [fetchone()]: the id of the first matching row. *)
Definition game_matches (vals : string * Z) (r : GameRow) : bool :=
  (String.eqb (game_tournament r) (fst vals)
   && (game_tourn_game_id r =? snd vals))%bool.

Definition game_id_where (vals : string * Z) (rows : list GameRow)
  : option Z :=
  option_map game_id_of (find (game_matches vals) rows).

Definition select_game_id (vals : string * Z) : M (option Z) :=
  fun s => Ok (game_id_where vals (game s)) s.

(** [SELECT id FROM team WHERE display_name=?], then [fetchone()]. *)
Definition team_matches (name : option string) (r : TeamRow) : bool :=
  eq_text (team_display_name r) name.

Definition team_id_where (name : option string) (rows : list TeamRow)
  : option Z :=
  option_map team_id_of (find (team_matches name) rows).

Definition select_team_id (name : option string) : M (option Z) :=
  fun s => Ok (team_id_where name (team s)) s.

(** [SELECT * FROM team WHERE display_name=?], then [fetchone()]. *)
Definition select_team (name : option string) : M (option TeamRow) :=
  fun s => Ok (find (team_matches name) (team s)) s.

(** [SELECT game_id FROM ban WHERE game_id=?], then [fetchone()]. *)
Definition ban_where (gameId : Z) (rows : list BanRow) : option Z :=
  option_map ban_game_id (find (fun r => ban_game_id r =? gameId) rows).

Definition select_ban_game_id (gameId : Z) : M (option Z) :=
  fun s => Ok (ban_where gameId (ban s)) s.

(** [SELECT game_id FROM pick WHERE game_id=?], then [fetchone()]. *)
Definition pick_where (gameId : Z) (rows : list PickRow) : option Z :=
  option_map pick_game_id (find (fun r => pick_game_id r =? gameId) rows).

Definition select_pick_game_id (gameId : Z) : M (option Z) :=
  fun s => Ok (pick_where gameId (pick s)) s.

(** [INSERT INTO game(tournament, tourn_game_id, blue_teamid, red_teamid,
    winning_team) VALUES(?,?,?,?,?)] *)
Definition add_game (vals : string * Z * Z * Z * Z) (s : Store) : Store :=
  let '(tournament, tournGameId, blueTeamId, redTeamId, winner) := vals in
  mkStore
    (game s ++ [mkGameRow (next_id game_id_of (game s)) tournament
                          tournGameId blueTeamId redTeamId winner])
    (team s) (ban s) (pick s) (stdout s).

Definition insert_game (vals : string * Z * Z * Z * Z) : M unit :=
  fun s => Ok tt (add_game vals s).

(** [INSERT INTO team(region, display_name) VALUES(?,?)] *)
Definition add_team (vals : option string * option string) (s : Store)
  : Store :=
  mkStore
    (game s)
    (team s ++ [mkTeamRow (next_id team_id_of (team s))
                          (fst vals) (snd vals)])
    (ban s) (pick s) (stdout s).

Definition insert_team (vals : option string * option string) : M unit :=
  fun s => Ok tt (add_team vals s).

(** [INSERT INTO ban(game_id, champion_id, selection_order, side_id)
    VALUES(?,?,?,?)] *)
Definition ban_row (vals : Z * option Z * Z * Z) : BanRow :=
  let '(gameId, banId, selectionOrder, side) := vals in
  mkBanRow gameId banId selectionOrder side.

Definition add_ban (vals : Z * option Z * Z * Z) (s : Store) : Store :=
  mkStore (game s) (team s) (ban s ++ [ban_row vals]) (pick s) (stdout s).

Definition insert_ban (vals : Z * option Z * Z * Z) : M unit :=
  fun s => Ok tt (add_ban vals s).

(** [INSERT INTO pick(game_id, champion_id, position_id, selection_order,
    side_id) VALUES(?,?,?,?,?)] *)
Definition pick_row (vals : Z * option Z * Z * Z * Z) : PickRow :=
  let '(gameId, pickId, position, selectionOrder, side) := vals in
  mkPickRow gameId pickId position selectionOrder side.

Definition add_pick (vals : Z * option Z * Z * Z * Z) (s : Store) : Store :=
  mkStore (game s) (team s) (ban s) (pick s ++ [pick_row vals]) (stdout s).

Definition insert_pick (vals : Z * option Z * Z * Z * Z) : M unit :=
  fun s => Ok tt (add_pick vals s).

End Sql.

(** ** insertTeam *)

Definition insertTeam (gameData : list GameData) : M Z :=
  let status := 0 in
  for_each gameData (fun game =>
    region <- match split game with
              | None => ret None
              | Some _ => r <- lift (getitem regionsDict (region game)) ;;
                          ret (Some r)
              end ;;
    let teams := [blue_team game; red_team game] in
    for_each teams (fun team =>
      let vals := (region, team) in
      result <- Sql.select_team team ;;
      match result with
      | None => Sql.insert_team vals
      | Some _ => ret tt
      end)) ;;
  let status := 1 in
  ret status.

(** ** insertGame *)

(** The loop of lines 146-156: it ends when both lookups give a row. *)
Fixpoint team_ids (fuel : nat) (game : GameData) : M (Z * Z) :=
  match fuel with
  | O => fun _ => OutOfFuel
  | S fuel' =>
      blueTeamId <- Sql.select_team_id (blue_team game) ;;
      redTeamId <- Sql.select_team_id (red_team game) ;;
      match blueTeamId, redTeamId with
      | Some b, Some r => ret (b, r)
      | _, _ =>
          print "*WARNING: When inserting game-- team not found. Attempting to add teams" ;;
          err <- insertTeam [game] ;;
          team_ids fuel' game
      end
  end.

Definition insertGame (fuel : nat) (gameData : list GameData) : M Z :=
  let status := 0 in
  for_each gameData (fun game =>
    let tournGameId := tourn_game_id game in
    tournamentData <- lift (getTournamentData game) ;;
    let vals := (tournamentData, tournGameId) in
    result <- Sql.select_game_id vals ;;
    match result with
    | Some id =>
        print ("game " ++ str id ++ " already exists in table.. skipping")
    | None =>
        ids <- team_ids fuel game ;;
        let winner := winning_team game in
        Sql.insert_game
          (tournamentData, tournGameId, fst ids, snd ids, winner)
    end) ;;
  let status := 1 in
  ret status.

(** ** getGameId *)

(** The loop of lines 109-116.  On a miss the call [insertGame(cursor,[game])]
    names [game], which is neither a local of [getGameId] nor a global of the
    module: building the argument raises [NameError]. *)
Fixpoint getGameId_loop (fuel : nat) (vals : string * Z) : M Z :=
  match fuel with
  | O => fun _ => OutOfFuel
  | S fuel' =>
      gameId <- Sql.select_game_id vals ;;
      match gameId with
      | None =>
          print "Warning: Game not found. Attempting to add game." ;;
          err <- (raise (NameError "game") : M Z) ;;
          getGameId_loop fuel' vals
      | Some id => ret id
      end
  end.

Definition getGameId (fuel : nat) (gameData : GameData) : M Z :=
  tournament <- lift (getTournamentData gameData) ;;
  let vals := (tournament, tourn_game_id gameData) in
  getGameId_loop fuel vals.

(** ** insertBan and insertPick *)

Section Writers.

(** Modelled from the spec: the module [championinfo] is imported, not
    defined here.  Section 6 of the specification gives its interface:
    [championIdFromName] maps a name to an identifier or to nothing
    (Python [None], as the test on line 230 shows), and
    [convertChampionAlias] maps a name to a canonical name or fails, which
    it does by raising (line 3 imports its [AliasException]). *)
Variable championIdFromName : string -> option Z.
Variable convertChampionAlias : string -> Exn + string.

(** The body of the loop of lines 223-234: one ban, with the counter. *)
Definition ban_entry (gameId side : Z) (ban : string) (selectionOrder : Z)
  : M Z :=
  banId <- (if String.eqb ban "none" then ret None
            else
              match championIdFromName ban with
              | Some id => ret (Some id)
              | None =>
                  name <- lift (convertChampionAlias ban) ;;
                  ret (championIdFromName name)
              end) ;;
  let selectionOrder := selectionOrder + 1 in
  let vals := (gameId, banId, selectionOrder, side) in
  Sql.insert_ban vals ;;
  ret selectionOrder.

Definition insertBan (fuel : nat) (gameData : list GameData) : M Z :=
  let status := 0 in
  let teams := [bans_blue; bans_red] in
  for_each gameData (fun game =>
    tournament <- lift (getTournamentData game) ;;
    let vals := (tournament, tourn_game_id game) in
    gameId <- getGameId fuel game ;;
    result <- Sql.select_ban_game_id gameId ;;
    match result with
    | Some id =>
        print ("Bans for game " ++ str id
                 ++ " already exists in table.. skipping")
    | None =>
        for_each (combine (map Z.of_nat (seq 0 (length teams))) teams)
          (fun kt =>
             let bans := snd kt game in
             let selectionOrder := 0 in
             let side := fst kt in
             for_acc bans selectionOrder (ban_entry gameId side) ;;
             ret tt)
    end) ;;
  let status := 1 in
  ret status.

(** The body of the loop of lines 266-279: one pick, with the counter. *)
Definition pick_entry (gameId side : Z) (pp : string * Z)
           (selectionOrder : Z) : M Z :=
  let '(pick, position) := pp in
  pickId <- (if String.eqb pick "none" then ret None
             else
               match championIdFromName pick with
               | Some id => ret (Some id)
               | None =>
                   name <- lift (convertChampionAlias pick) ;;
                   ret (championIdFromName name)
               end) ;;
  let selectionOrder := selectionOrder + 1 in
  let vals := (gameId, pickId, position, selectionOrder, side) in
  Sql.insert_pick vals ;;
  ret selectionOrder.

Definition insertPick (fuel : nat) (gameData : list GameData) : M Z :=
  let status := 0 in
  let teams := [picks_blue; picks_red] in
  for_each gameData (fun game =>
    tournament <- lift (getTournamentData game) ;;
    let vals := (tournament, tourn_game_id game) in
    gameId <- getGameId fuel game ;;
    result <- Sql.select_pick_game_id gameId ;;
    match result with
    | Some id =>
        print ("Picks for game " ++ str id
                 ++ " already exists in table.. skipping")
    | None =>
        for_each (combine (map Z.of_nat (seq 0 (length teams))) teams)
          (fun kt =>
             let picks := snd kt game in
             let selectionOrder := 0 in
             let side := fst kt in
             for_acc picks selectionOrder (pick_entry gameId side) ;;
             ret tt)
    end) ;;
  let status := 1 in
  ret status.

End Writers.

(** ** Vocabulary of the statements *)

Fixpoint all_chars (p : ascii -> bool) (s : string) : bool :=
  match s with
  | String c r => (p c && all_chars p r)%bool
  | EmptyString => true
  end.

Definition digits (s : string) : bool := all_chars Re.isdigit s.
Definition no_digit (s : string) : bool :=
  all_chars (fun c => negb (Re.isdigit c)) s.
Definition head_not_digit (s : string) : bool :=
  match s with
  | String c _ => negb (Re.isdigit c)
  | EmptyString => true
  end.

(** [y] is the first run of digits of [s]. *)
Definition first_digit_run (s y : string) : Prop :=
  exists pre post,
    s = pre ++ y ++ post /\ no_digit pre = true /\ digits y = true /\
    y <> "" /\ head_not_digit post = true.

(** The string the year is read from. *)
Definition year_source (g : GameData) : string :=
  match season g with
  | Some se => se
  | None => region g
  end.

(** The region with its year digits and the underscores next to them
    removed: the key looked up for an international event. *)
Definition event_name (region : string) : string :=
  String.concat "" (Re.split region).

(** The store that an outcome leaves behind satisfies [P]. *)
Definition after {A} (o : Outcome A) (P : Store -> Prop) : Prop :=
  match o with
  | Ok _ s' => P s'
  | Raise _ s' => P s'
  | OutOfFuel => True
  end.

(** Every run of [c] relates the store it starts from to the one it leaves. *)
Definition keeps (R : Store -> Store -> Prop) {A} (c : M A) : Prop :=
  forall s, after (c s) (R s).

(** One call of a writer, ended by a return or by an exception, and
    sequences of such calls. *)
Inductive step : Store -> Store -> Prop :=
| step_insertTeam gs s s' :
    after (insertTeam gs s) (eq s') -> insertTeam gs s <> OutOfFuel ->
    step s s'
| step_insertGame fuel gs s s' :
    after (insertGame fuel gs s) (eq s') -> insertGame fuel gs s <> OutOfFuel ->
    step s s'
| step_insertBan cin cal fuel gs s s' :
    after (insertBan cin cal fuel gs s) (eq s') ->
    insertBan cin cal fuel gs s <> OutOfFuel ->
    step s s'
| step_insertPick cin cal fuel gs s s' :
    after (insertPick cin cal fuel gs s) (eq s') ->
    insertPick cin cal fuel gs s <> OutOfFuel ->
    step s s'.

Inductive steps : Store -> Store -> Prop :=
| steps_refl s : steps s s
| steps_step s s1 s2 : step s s1 -> steps s1 s2 -> steps s s2.

Definition reachable (s : Store) : Prop := steps empty_store s.

(** The four tables, without the printed text. *)
Definition tables (s : Store) :=
  (game s, team s, ban s, pick s).

(** The display names in the team table (NULL is not a name). *)
Definition display_names (rows : list TeamRow) : list string :=
  flat_map (fun r => match team_display_name r with
                     | Some n => [n]
                     | None => []
                     end) rows.

Definition names_unique (rows : list TeamRow) : Prop :=
  NoDup (display_names rows).

Definition rows_named (n : string) (rows : list TeamRow) : list TeamRow :=
  filter (Sql.team_matches (Some n)) rows.

Inductive Side : Type := Blue | Red.

Definition team_name (sd : Side) (g : GameData) : option string :=
  match sd with
  | Blue => blue_team g
  | Red => red_team g
  end.

Definition row_teamid (sd : Side) (r : GameRow) : Z :=
  match sd with
  | Blue => game_blue_teamid r
  | Red => game_red_teamid r
  end.

(** What the writers compute for one entry: nothing for the sentinel, else
    the identifier of the name, else that of its alias. *)
Definition resolve (championIdFromName : string -> option Z)
           (convertChampionAlias : string -> Exn + string)
           (name : string) : Exn + option Z :=
  if String.eqb name "none" then inr None
  else match championIdFromName name with
       | Some id => inr (Some id)
       | None =>
           match convertChampionAlias name with
           | inl e => inl e
           | inr alias => inr (championIdFromName alias)
           end
       end.

Definition resolved (r : Exn + option Z) : option Z :=
  match r with
  | inr id => id
  | inl _ => None
  end.

(** The entries of a side with their 1-based places, counted from [k]. *)
Definition numbered_from {A} (k : Z) (l : list A) : list (Z * A) :=
  combine (map (fun i => k + Z.of_nat i) (seq 1 (length l))) l.

Definition ban_rows cin cal (gameId side k : Z) (bans : list string)
  : list BanRow :=
  map (fun kb => mkBanRow gameId (resolved (resolve cin cal (snd kb)))
                          (fst kb) side)
      (numbered_from k bans).

Definition pick_rows cin cal (gameId side k : Z) (picks : list (string * Z))
  : list PickRow :=
  map (fun kp => mkPickRow gameId (resolved (resolve cin cal (fst (snd kp))))
                           (snd (snd kp)) (fst kp) side)
      (numbered_from k picks).

(** The store with rows appended to the ban or to the pick table. *)
Definition with_bans (rows : list BanRow) (s : Store) : Store :=
  mkStore (game s) (team s) (ban s ++ rows) (pick s) (stdout s).

Definition with_picks (rows : list PickRow) (s : Store) : Store :=
  mkStore (game s) (team s) (ban s) (pick s ++ rows) (stdout s).

Definition ban_skip (id : Z) : string :=
  "Bans for game " ++ str id ++ " already exists in table.. skipping".

Definition pick_skip (id : Z) : string :=
  "Picks for game " ++ str id ++ " already exists in table.. skipping".

Definition all_resolve cin cal (names : list string) : Prop :=
  Forall (fun name => exists id, resolve cin cal name = inr id) names.

(** The region that [insertTeam] stores with the teams of a record. *)
Definition region_of (g : GameData) : Exn + option string :=
  match split g with
  | None => inr None
  | Some _ =>
      match getitem regionsDict (region g) with
      | inl e => inl e
      | inr r => inr (Some r)
      end
  end.

(** Select by display name, insert on a miss. *)
Definition ensure_team (vals : option string * option string) (s : Store)
  : Store :=
  match find (Sql.team_matches (snd vals)) (team s) with
  | None => Sql.add_team vals s
  | Some _ => s
  end.

Definition team_warning : string :=
  "*WARNING: When inserting game-- team not found. Attempting to add teams".

Definition game_skip (id : Z) : string :=
  "game " ++ str id ++ " already exists in table.. skipping".

(** A run that touches the team table only, or nothing but the text. *)
Definition only_team (s s' : Store) : Prop :=
  game s' = game s /\ ban s' = ban s /\ pick s' = pick s.

Definition only_text (s s' : Store) : Prop := tables s' = tables s.

Definition game_warning : string :=
  "Warning: Game not found. Attempting to add game.".

Definition nameless : GameData :=
  mkGameData "2019_Mid-Season_Invitational" None None 1
             None (Some "TL") 0 [] [] [] [].

(** The team table only grows at its end, and keeps its names distinct. *)
Definition team_inv (s s' : Store) : Prop :=
  (exists new, team s' = (team s ++ new)%list) /\
  (names_unique (team s) -> names_unique (team s')).

(** The record is normalized and its game is not in the game table. *)
Definition game_absent (g : GameData) (s : Store) : Prop :=
  exists t,
    getTournamentData g = inr t /\
    Sql.game_id_where (t, tourn_game_id g) (game s) = None.

(** ** Sample records and resolvers *)

Definition msi2019 : GameData :=
  mkGameData "2019_Mid-Season_Invitational" None None 1
             (Some "G2") (Some "TL") 0 [] [] [] [].

Definition eu_summer : GameData :=
  mkGameData "Europe" (Some "2017_Season") (Some "Summer") 3
             (Some "G2") (Some "FNC") 0
             ["A"; "B"; "none"] ["C"]
             [("A", 1); ("none", 2)] [("B", 1)].

Definition oceania : GameData :=
  mkGameData "Oceania" (Some "2017_Season") (Some "Summer") 1
             (Some "DW") (Some "CHF") 0 [] [] [] [].

(** The store after [insertGame] of [eu_summer] into the empty one. *)
Definition eu_summer_store : Store :=
  mkStore [mkGameRow 1 "2017/Summer/EU" 3 1 2 0]
          [mkTeamRow 1 (Some "EU") (Some "G2");
           mkTeamRow 2 (Some "EU") (Some "FNC")]
          [] [] [team_warning].

(** A small resolver: "A" is known, "B" is an alias of "Bee", "C" is an
    alias of "Cee", which is not a champion; anything else has no alias. *)
Definition sample_id (name : string) : option Z :=
  if String.eqb name "A" then Some 7
  else if String.eqb name "Bee" then Some 8
  else None.

Definition sample_alias (name : string) : Exn + string :=
  if String.eqb name "B" then inr "Bee"
  else if String.eqb name "C" then inr "Cee"
  else inl (AliasException name).

Definition eu_retired : GameData :=
  mkGameData "Europe" (Some "2017_Season") (Some "Summer") 3
             (Some "G2") (Some "FNC") 0
             ["A"; "D"; "B"] [] [] [].

Definition eu_game4 : GameData :=
  mkGameData "Europe" (Some "2017_Season") (Some "Summer") 4
             (Some "FNC") (Some "G2") 1 [] [] [] [].

(** The store after [insertGame] of [eu_game4] into [eu_summer_store]. *)
Definition eu_two_games_store : Store :=
  mkStore [mkGameRow 1 "2017/Summer/EU" 3 1 2 0;
           mkGameRow 2 "2017/Summer/EU" 4 2 1 1]
          (team eu_summer_store) [] [] [team_warning].

(** ** Reading the tables back *)

(** [ORDER BY key]: an insertion sort on the key; rows with equal keys keep
    the order of the table. *)
Fixpoint insert_by {R} (key : R -> Z) (r : R) (l : list R) : list R :=
  match l with
  | [] => [r]
  | a :: l' =>
      if key r <=? key a then r :: a :: l' else a :: insert_by key r l'
  end.

Fixpoint order_by {R} (key : R -> Z) (l : list R) : list R :=
  match l with
  | [] => []
  | a :: l' => insert_by key a (order_by key l')
  end.

(** [getGameIdsByTournament] and [getMatchData] run SELECT statements only:
    they are functions of the store. *)
Definition getGameIdsByTournament (tournament : string) (s : Store)
  : list Z :=
  (* SELECT id FROM game WHERE tournament=? ORDER BY id *)
  let response :=
    map game_id_of
        (order_by game_id_of
           (filter (fun r => String.eqb (game_tournament r) tournament)
                   (game s))) in
  fold_left (fun vals r => (vals ++ [r])%list) response [].

(** The dictionaries that [getMatchData] builds. *)
Record SideData : Type := mkSideData {
  side_bans : list (option Z * Z);        (* (champion_id, selection_order) *)
  side_picks : list (option Z * Z * Z)    (* (champion_id, position_id,
                                              selection_order) *)
}.

Record Match : Type := mkMatch {
  match_winner : Z;
  match_blue : SideData;
  match_red : SideData
}.

(** [cursor.fetchone()[0]] when no row matches: [None] has no items. *)
Inductive TypeError : Type := NotSubscriptable.

(** SELECT champion_id, selection_order FROM ban WHERE game_id=? and
    side_id=? ORDER BY selection_order *)
Definition ban_of (gameId side : Z) (r : BanRow) : bool :=
  ((ban_game_id r =? gameId) && (ban_side_id r =? side))%bool.

Definition select_bans (gameId side : Z) (s : Store) : list (option Z * Z) :=
  map (fun r => (ban_champion_id r, ban_selection_order r))
      (order_by ban_selection_order (filter (ban_of gameId side) (ban s))).

(** SELECT champion_id, position_id, selection_order FROM pick WHERE
    game_id=? AND side_id=? ORDER BY selection_order *)
Definition pick_of (gameId side : Z) (r : PickRow) : bool :=
  ((pick_game_id r =? gameId) && (pick_side_id r =? side))%bool.

Definition select_picks (gameId side : Z) (s : Store)
  : list (option Z * Z * Z) :=
  map (fun r => (pick_champion_id r, pick_position_id r,
                 pick_selection_order r))
      (order_by pick_selection_order (filter (pick_of gameId side) (pick s))).

Definition getMatchData (gameId : Z) (s : Store) : TypeError + Match :=
  (* SELECT winning_team FROM game WHERE id=? *)
  match find (fun r => game_id_of r =? gameId) (game s) with
  | None => inl NotSubscriptable
  | Some r =>
      let winner := game_winning_team r in
      let blue_bans := select_bans gameId 0 s in
      let red_bans := select_bans gameId 1 s in
      let blue_picks := select_picks gameId 0 s in
      let red_picks := select_picks gameId 1 s in
      inr (mkMatch winner (mkSideData blue_bans blue_picks)
                   (mkSideData red_bans red_picks))
  end.

(** A list is in the order of its keys. *)
Definition sorted_by {R} (key : R -> Z) (l : list R) : Prop :=
  StronglySorted (fun a b => key a <= key b) l.

(** What a second run makes of the outcome of a first one. *)
Definition and_then {A} (o : Outcome A) (k : Store -> Outcome A)
  : Outcome A :=
  match o with
  | Ok _ s1 => k s1
  | Raise e s1 => Raise e s1
  | OutOfFuel => OutOfFuel
  end.

(** Every table of [s'] is that of [s] with rows added at its end. *)
Definition grows (s s' : Store) : Prop :=
  (exists rows, game s' = (game s ++ rows)%list) /\
  (exists rows, team s' = (team s ++ rows)%list) /\
  (exists rows, ban s' = (ban s ++ rows)%list) /\
  (exists rows, pick s' = (pick s ++ rows)%list).

(** Runs that leave some tables as they were. *)
Definition only_game_team (s s' : Store) : Prop :=
  ban s' = ban s /\ pick s' = pick s.

Definition only_ban (s s' : Store) : Prop :=
  game s' = game s /\ team s' = team s /\ pick s' = pick s.

Definition only_pick (s s' : Store) : Prop :=
  game s' = game s /\ team s' = team s /\ ban s' = ban s.

Definition bad_then_good : list GameData := [oceania; eu_summer].

(** ** Keys and references *)

Definition game_key (r : GameRow) : string * Z :=
  (game_tournament r, game_tourn_game_id r).

(** No two game rows have the same tournament and game number. *)
Definition game_keys_unique (s : Store) : Prop :=
  NoDup (map game_key (game s)).

Definition has_team (s : Store) (id : Z) : Prop :=
  exists t, In t (team s) /\ team_id_of t = id.

Definition has_game (s : Store) (id : Z) : Prop :=
  exists g, In g (game s) /\ game_id_of g = id.

(** The team ids of a game row and the game id of a ban or pick row are ids
    of rows that exist. *)
Definition references_hold (s : Store) : Prop :=
  (forall r, In r (game s) ->
             has_team s (game_blue_teamid r) /\
             has_team s (game_red_teamid r)) /\
  (forall r, In r (ban s) -> has_game s (ban_game_id r)) /\
  (forall r, In r (pick s) -> has_game s (pick_game_id r)).

Definition consistent (s : Store) : Prop :=
  game_keys_unique s /\ references_hold s.

Definition stays_consistent (s s' : Store) : Prop :=
  consistent s -> consistent s'.

(** A record whose second blue ban has neither an identifier nor an alias
    (see [sample_alias]). *)
Definition eu_unlisted : GameData :=
  mkGameData "Europe" (Some "2017_Season") (Some "Summer") 3
             (Some "G2") (Some "FNC") 0
             ["A"; "D"; "B"] ["A"] [] [].


(** An international event with a team that also plays in [eu_summer]. *)
Definition msi_g2 : GameData :=
  mkGameData "2019_Mid-Season_Invitational" None None 1
             (Some "SKT") (Some "G2") 0 [] [] [] [].

(** What [getMatchData] shows of the bans and of the picks of one side of a
    record: the resolved champion and, for a pick, its position, with the
    1-based place of the entry. *)
Definition ban_view cin cal (bans : list string) : list (option Z * Z) :=
  map (fun kb => (resolved (resolve cin cal (snd kb)), fst kb))
      (numbered_from 0 bans).

Definition pick_view cin cal (picks : list (string * Z))
  : list (option Z * Z * Z) :=
  map (fun kp => (resolved (resolve cin cal (fst (snd kp))), snd (snd kp),
                  fst kp))
      (numbered_from 0 picks).

(** The store after [insertBan] and [insertPick] of [eu_summer] into
    [eu_summer_store]. *)
Definition eu_summer_drafted : Store :=
  mkStore (game eu_summer_store) (team eu_summer_store)
          [mkBanRow 1 (Some 7) 1 0; mkBanRow 1 (Some 8) 2 0;
           mkBanRow 1 None 3 0; mkBanRow 1 None 1 1]
          [mkPickRow 1 (Some 7) 1 1 0; mkPickRow 1 None 2 2 0;
           mkPickRow 1 (Some 8) 1 1 1]
          [team_warning].

Definition eu_summer_match : Match :=
  mkMatch 0
          (mkSideData [(Some 7, 1); (Some 8, 2); (None, 3)]
                      [(Some 7, 1, 1); (None, 2, 2)])
          (mkSideData [(None, 1)] [(Some 8, 1, 1)]).

Definition eu_no_season : GameData :=
  mkGameData "Europe" None (Some "Summer") 1
             (Some "G2") (Some "FNC") 0 [] [] [] [].

(** A record that names no red team. *)
Definition eu_no_red : GameData :=
  mkGameData "Europe" (Some "2017_Season") (Some "Summer") 5
             (Some "G2") None 0 [] [] [] [].

(** * Properties *)

(** ** Regular expressions *)

Example search_digits_season :
  Re.search_digits "Season_2017x45" = Some "2017".
Proof. reflexivity. Qed.

Example split_leading_year :
  Re.split "2019_Mid-Season_Invitational" = [""; "Mid-Season_Invitational"].
Proof. reflexivity. Qed.

Example split_trailing_year :
  Re.split "Rift_Rivals_2017" = ["Rift_Rivals"; ""].
Proof. reflexivity. Qed.

Example split_adjacent_matches :
  Re.split "12_34x__5_6_" = [""; ""; "x_"; ""; ""].
Proof. reflexivity. Qed.

(** With a split the region is looked up as it is, year included. *)
Example region_with_year_and_split :
  getTournamentData
    (mkGameData "2017_Europe" None (Some "Summer") 1 (Some "G2") (Some "FNC")
                0 [] [] [] []) = inl (KeyError "2017_Europe").
Proof. reflexivity. Qed.

Lemma span_digits_app y post :
  digits y = true -> head_not_digit post = true ->
  Re.span_digits (y ++ post) = (y, post).
Proof.
  induction y as [|c y IH]; simpl; intros Hy Hp.
  - destruct post as [|d post]; simpl in *; auto.
    apply negb_true_iff in Hp. now rewrite Hp.
  - apply andb_true_iff in Hy. destruct Hy as [Hc Hy].
    fold (digits y) in Hy. rewrite Hc, (IH Hy Hp). reflexivity.
Qed.

Lemma search_digits_first_run s y :
  first_digit_run s y -> Re.search_digits s = Some y.
Proof.
  intros (pre & post & -> & Hpre & Hy & Hne & Hpost).
  induction pre as [|c pre IH]; simpl in *.
  - destruct y as [|d y]; [congruence|].
    cbn [String.append Re.search_digits].
    pose proof Hy as Hy'. simpl in Hy'. apply andb_true_iff in Hy'.
    destruct Hy' as [Hd _]. rewrite Hd.
    change (String d (y ++ post)) with (String d y ++ post).
    now rewrite (span_digits_app _ _ Hy Hpost).
  - apply andb_true_iff in Hpre. destruct Hpre as [Hc Hpre].
    apply negb_true_iff in Hc. rewrite Hc. now apply IH.
Qed.

Lemma split_no_digit s : no_digit s = true -> Re.split_year false s = [s].
Proof.
  induction s as [|c s IH]; simpl; intros H; [reflexivity|].
  apply andb_true_iff in H. destruct H as [Hc Hs].
  pose proof Hc as Hc'. apply negb_true_iff in Hc'. rewrite Hc'.
  rewrite (IH Hs).
  destruct (Ascii.eqb c "_"); [|reflexivity].
  destruct s as [|d s]; [reflexivity|].
  simpl in Hs. apply andb_true_iff in Hs. destruct Hs as [Hd _].
  apply negb_true_iff in Hd. now rewrite Hd.
Qed.

Lemma split_inside_digits y rest :
  digits y = true ->
  Re.split_year true (y ++ rest) = Re.split_year true rest.
Proof.
  induction y as [|c y IH]; simpl; intros H; [reflexivity|].
  apply andb_true_iff in H. destruct H as [Hc Hy]. rewrite Hc. now apply IH.
Qed.

Lemma append_empty_r s : s ++ "" = s.
Proof. induction s; simpl; congruence. Qed.

(** A leading year: ["2019_Name"] gives ["Name"]. *)
Lemma event_name_year_first y name :
  digits y = true -> y <> "" -> no_digit name = true ->
  event_name (y ++ "_" ++ name) = name.
Proof.
  intros Hy Hne Hn. unfold event_name, Re.split.
  destruct y as [|c y]; [congruence|].
  pose proof Hy as Hy'. simpl in Hy'. apply andb_true_iff in Hy'.
  destruct Hy' as [Hc Hy'].
  cbn [String.append Re.split_year]. rewrite Hc.
  rewrite (split_inside_digits _ _ Hy').
  cbn. rewrite (split_no_digit _ Hn). reflexivity.
Qed.

(** A trailing year: ["Name_2017"] gives ["Name"]. *)
Lemma event_name_year_last y name :
  digits y = true -> y <> "" -> no_digit name = true ->
  event_name (name ++ "_" ++ y) = name.
Proof.
  intros Hy Hne Hn. unfold event_name, Re.split.
  change (name ++ "_" ++ y) with (name ++ String "_" y).
  assert (H : Re.split_year false (name ++ String "_" y) = [name; ""]).
  { induction name as [|c name IH].
    - destruct y as [|d y]; [congruence|].
      pose proof Hy as Hy'. simpl in Hy'. apply andb_true_iff in Hy'.
      destruct Hy' as [Hd Hy'].
      cbn. rewrite Hd.
      rewrite <- (append_empty_r y), (split_inside_digits _ _ Hy').
      reflexivity.
    - unfold no_digit in Hn. cbn [all_chars] in Hn.
      apply andb_true_iff in Hn. destruct Hn as [Hc Hn].
      apply negb_true_iff in Hc.
      cbn [String.append Re.split_year]. rewrite Hc.
      rewrite (IH Hn).
      destruct (Ascii.eqb c "_"); [|reflexivity].
      destruct name as [|d name]; [reflexivity|].
      cbn [all_chars] in Hn. apply andb_true_iff in Hn.
      destruct Hn as [Hd _].
      apply negb_true_iff in Hd. cbn [String.append]. now rewrite Hd. }
  rewrite H. cbn. apply append_empty_r.
Qed.

(** ** getTournamentData *)

(** C3.  The key is the year, a slash and the body.  The year is the first
    run of digits of the season when there is one and of the region
    otherwise; with a split the body is the split, a slash and the
    abbreviation of the region in [regionsDict]; without one it is the
    abbreviation in [internationalEventsDict] of the region with its year
    digits and the underscores next to them removed.  The record with region
    "2019_Mid-Season_Invitational" and no split gets "2019/MSI". *)
Theorem getTournamentData_key (g : GameData) (year : string) :
  first_digit_run (year_source g) year ->
  (forall sp abbrv,
      split g = Some sp -> lookup regionsDict (region g) = Some abbrv ->
      getTournamentData g = inr (year ++ "/" ++ sp ++ "/" ++ abbrv)) /\
  (forall abbrv,
      split g = None ->
      lookup internationalEventsDict (event_name (region g)) = Some abbrv ->
      getTournamentData g = inr (year ++ "/" ++ abbrv)) /\
  (forall y name,
      digits y = true -> y <> "" -> no_digit name = true ->
      event_name (y ++ "_" ++ name) = name /\
      event_name (name ++ "_" ++ y) = name) /\
  (forall tgid bt rt w bb br pb pr,
      getTournamentData
        (mkGameData "2019_Mid-Season_Invitational" None None
                    tgid bt rt w bb br pb pr) = inr "2019/MSI").
Proof.
  intros Hyear. apply search_digits_first_run in Hyear.
  assert (Hy : match season g with
               | None => group0 (Re.search_digits (region g))
               | Some se => group0 (Re.search_digits se)
               end = inr year).
  { unfold year_source in Hyear. destruct (season g); now rewrite Hyear. }
  repeat split.
  - intros sp abbrv Hsp Hab. unfold getTournamentData, getitem.
    rewrite Hy, Hsp, Hab. reflexivity.
  - intros abbrv Hsp Hab. unfold getTournamentData, getitem.
    fold (event_name (region g)). rewrite Hy, Hsp, Hab. reflexivity.
  - now apply event_name_year_first.
  - now apply event_name_year_last.
Qed.

Lemma getTournamentData_key_witness :
  first_digit_run (year_source eu_summer) "2017" /\
  getTournamentData eu_summer = inr "2017/Summer/EU".
Proof.
  assert (H : first_digit_run (year_source eu_summer) "2017").
  { exists "", "_Season". repeat split; try reflexivity. discriminate. }
  split; [exact H|].
  apply (proj1 (getTournamentData_key eu_summer "2017" H) "Summer" "EU");
    reflexivity.
Defined.

(** C8.  A record whose region (with a split) or whose event name (without
    one) is not a key of the dictionary consulted gets no key:
    [getTournamentData] raises, a [KeyError] that carries the unknown name
    when a year was found and an [AttributeError] when none was. *)
Theorem getTournamentData_unknown (g : GameData) :
  match split g with
  | Some _ => lookup regionsDict (region g) = None
  | None => lookup internationalEventsDict (event_name (region g)) = None
  end ->
  (forall key, getTournamentData g <> inr key) /\
  (forall year,
      Re.search_digits (year_source g) = Some year ->
      getTournamentData g =
      inl (KeyError match split g with
                    | Some _ => region g
                    | None => event_name (region g)
                    end)) /\
  (Re.search_digits (year_source g) = None ->
   getTournamentData g = inl AttributeError).
Proof.
  intros H.
  assert (Hy : match season g with
               | None => group0 (Re.search_digits (region g))
               | Some se => group0 (Re.search_digits se)
               end = group0 (Re.search_digits (year_source g))).
  { unfold year_source. now destruct (season g). }
  unfold getTournamentData. fold (event_name (region g)). rewrite Hy.
  unfold getitem. revert H.
  destruct (Re.search_digits (year_source g)) as [y|]; cbn [group0];
    destruct (split g); intros H; try rewrite H; repeat split;
    intros; try discriminate; reflexivity.
Qed.

Lemma getTournamentData_unknown_witness :
  lookup regionsDict (region oceania) = None /\
  getTournamentData oceania = inl (KeyError "Oceania").
Proof.
  split; [reflexivity|].
  apply (proj1 (proj2 (getTournamentData_unknown oceania eq_refl)) "2017").
  reflexivity.
Defined.

(** ** The monad and what every run keeps *)

Lemma bind_Ok {A B} (c : M A) (k : A -> M B) s b s2 :
  bind c k s = Ok b s2 ->
  exists a s1, c s = Ok a s1 /\ k a s1 = Ok b s2.
Proof.
  unfold bind. destruct (c s) as [a s1| |]; try discriminate. eauto.
Qed.

Section Keeps.

Variable R : Store -> Store -> Prop.
Hypothesis R_refl : forall s, R s s.
Hypothesis R_trans : forall a b c, R a b -> R b c -> R a c.

Lemma keeps_ret {A} (a : A) : keeps R (ret a).
Proof. intros s. apply R_refl. Qed.

Lemma keeps_raise {A} e : keeps R (raise e : M A).
Proof. intros s. apply R_refl. Qed.

Lemma keeps_lift {A} (r : Exn + A) : keeps R (lift r).
Proof. destruct r; [apply keeps_raise | apply keeps_ret]. Qed.

Lemma keeps_bind {A B} (c : M A) (k : A -> M B) :
  keeps R c -> (forall a, keeps R (k a)) -> keeps R (bind c k).
Proof.
  intros Hc Hk s. unfold bind. specialize (Hc s).
  destruct (c s) as [a s1|e s1|]; simpl in *; auto.
  specialize (Hk a s1).
  destruct (k a s1); simpl in *; eauto.
Qed.

Lemma keeps_for_each {A} (l : list A) body :
  (forall a, keeps R (body a)) -> keeps R (for_each l body).
Proof.
  intros Hb. induction l as [|a l IH]; simpl.
  - apply keeps_ret.
  - apply keeps_bind; auto.
Qed.

Lemma keeps_for_acc {A X} (l : list A) (x : X) body :
  (forall a x, keeps R (body a x)) -> keeps R (for_acc l x body).
Proof.
  intros Hb. revert x. induction l as [|a l IH]; intros x; simpl.
  - apply keeps_ret.
  - apply keeps_bind; auto.
Qed.

Lemma keeps_select_game_id vals : keeps R (Sql.select_game_id vals).
Proof. intros s. apply R_refl. Qed.

Lemma keeps_select_team_id name : keeps R (Sql.select_team_id name).
Proof. intros s. apply R_refl. Qed.

Lemma keeps_select_ban gid : keeps R (Sql.select_ban_game_id gid).
Proof. intros s. apply R_refl. Qed.

Lemma keeps_select_pick gid : keeps R (Sql.select_pick_game_id gid).
Proof. intros s. apply R_refl. Qed.

Hypothesis R_say : forall s line, R s (say line s).

Lemma keeps_print line : keeps R (print line).
Proof. intros s. apply R_say. Qed.

Ltac keeps_with tac :=
  repeat first
    [ assumption | tac | apply keeps_ret | apply keeps_raise
    | apply keeps_lift | apply keeps_print | apply keeps_select_game_id
    | apply keeps_select_team_id | apply keeps_select_ban
    | apply keeps_select_pick
    | apply keeps_for_each; intros ?
    | apply keeps_for_acc; intros ? ?
    | apply keeps_bind; [|intros ?]
    | match goal with
      | |- keeps _ (match ?x with _ => _ end) => destruct x
      end ].

Ltac keeps_auto := keeps_with fail.

Lemma keeps_getGameId_loop fuel vals : keeps R (getGameId_loop fuel vals).
Proof.
  induction fuel as [|fuel IH]; simpl; [intros s; exact I|].
  keeps_auto.
Qed.

Lemma keeps_getGameId fuel g : keeps R (getGameId fuel g).
Proof.
  unfold getGameId. keeps_with ltac:(idtac; apply keeps_getGameId_loop).
Qed.

Hypothesis R_add_team :
  forall s vals,
    find (Sql.team_matches (snd vals)) (team s) = None ->
    R s (Sql.add_team vals s).

Lemma keeps_ensure_team vals :
  keeps R (bind (Sql.select_team (snd vals))
                (fun result => match result with
                               | None => Sql.insert_team vals
                               | Some _ => ret tt
                               end)).
Proof.
  intros s. unfold bind, Sql.select_team.
  destruct (find (Sql.team_matches (snd vals)) (team s)) eqn:E; simpl.
  - apply R_refl.
  - now apply R_add_team.
Qed.

Lemma keeps_insertTeam gs : keeps R (insertTeam gs).
Proof.
  unfold insertTeam.
  keeps_with ltac:(idtac;
                   match goal with
                   | |- keeps _ (bind (Sql.select_team ?t) _) =>
                       apply (keeps_ensure_team (_, t))
                   end).
Qed.

Lemma keeps_team_ids fuel g : keeps R (team_ids fuel g).
Proof.
  induction fuel as [|fuel IH]; simpl; [intros s; exact I|].
  keeps_with ltac:(idtac; apply keeps_insertTeam).
Qed.

Hypothesis R_add_game : forall s vals, R s (Sql.add_game vals s).

Lemma keeps_insertGame fuel gs : keeps R (insertGame fuel gs).
Proof.
  unfold insertGame. keeps_with ltac:(idtac; apply keeps_team_ids).
  intros ?. apply R_add_game.
Qed.

Hypothesis R_add_ban : forall s vals, R s (Sql.add_ban vals s).

Lemma keeps_ban_entry cin cal gid side name k :
  keeps R (ban_entry cin cal gid side name k).
Proof. unfold ban_entry. keeps_auto. intros ?. apply R_add_ban. Qed.

Lemma keeps_insertBan cin cal fuel gs : keeps R (insertBan cin cal fuel gs).
Proof.
  unfold insertBan.
  keeps_with ltac:(idtac; first [ apply keeps_getGameId
                                | apply keeps_ban_entry ]).
Qed.

Hypothesis R_add_pick : forall s vals, R s (Sql.add_pick vals s).

Lemma keeps_pick_entry cin cal gid side pp k :
  keeps R (pick_entry cin cal gid side pp k).
Proof.
  destruct pp as [name position]. unfold pick_entry. keeps_auto.
  intros ?. apply R_add_pick.
Qed.

Lemma keeps_insertPick cin cal fuel gs :
  keeps R (insertPick cin cal fuel gs).
Proof.
  unfold insertPick.
  keeps_with ltac:(idtac; first [ apply keeps_getGameId
                                | apply keeps_pick_entry ]).
Qed.

Lemma step_keeps s s' : step s s' -> R s s'.
Proof.
  intros [gs s0 s1 H N|fuel gs s0 s1 H N|cin cal fuel gs s0 s1 H N
         |cin cal fuel gs s0 s1 H N].
  - pose proof (keeps_insertTeam gs s0) as K.
    destruct (insertTeam gs s0); simpl in *; subst; auto; congruence.
  - pose proof (keeps_insertGame fuel gs s0) as K.
    destruct (insertGame fuel gs s0); simpl in *; subst; auto; congruence.
  - pose proof (keeps_insertBan cin cal fuel gs s0) as K.
    destruct (insertBan cin cal fuel gs s0); simpl in *; subst; auto; congruence.
  - pose proof (keeps_insertPick cin cal fuel gs s0) as K.
    destruct (insertPick cin cal fuel gs s0); simpl in *; subst; auto; congruence.
Qed.

Lemma steps_keep s s' : steps s s' -> R s s'.
Proof.
  induction 1 as [|s s1 s2 H _ IH]; [apply R_refl|].
  eapply R_trans; [apply step_keeps; eassumption | exact IH].
Qed.

End Keeps.

(** ** Queries on growing tables *)

Lemma find_app {A} (f : A -> bool) l l' :
  find f (l ++ l')%list = match find f l with
                     | Some x => Some x
                     | None => find f l'
                     end.
Proof.
  induction l as [|a l IH]; simpl; [reflexivity|].
  destruct (f a); auto.
Qed.

Lemma find_app_some {A} (f : A -> bool) l l' x :
  find f l = Some x -> find f (l ++ l')%list = Some x.
Proof. intros H. now rewrite find_app, H. Qed.

Lemma team_matches_null r : Sql.team_matches None r = false.
Proof. unfold Sql.team_matches, Sql.eq_text. now destruct team_display_name. Qed.

Lemma team_id_where_null rows : Sql.team_id_where None rows = None.
Proof.
  unfold Sql.team_id_where.
  induction rows as [|r rows IH]; simpl; [reflexivity|].
  now rewrite team_matches_null.
Qed.

Lemma team_id_where_app name rows new id :
  Sql.team_id_where name rows = Some id ->
  Sql.team_id_where name (rows ++ new)%list = Some id.
Proof.
  unfold Sql.team_id_where. intros H.
  destruct (find (Sql.team_matches name) rows) as [r|] eqn:E;
    [|discriminate].
  now rewrite (find_app_some _ _ new _ E).
Qed.

(** ** insertTeam, one record *)

Lemma insertTeam_one g s :
  insertTeam [g] s =
  match region_of g with
  | inl e => Raise e s
  | inr reg =>
      Ok 1 (ensure_team (reg, red_team g) (ensure_team (reg, blue_team g) s))
  end.
Proof.
  unfold insertTeam, region_of. cbn [for_each].
  destruct (split g) as [sp|]; [destruct (getitem regionsDict (region g))|];
    unfold bind, lift, raise, ret, ensure_team, Sql.select_team,
      Sql.insert_team; cbn [snd]; try reflexivity.
  - destruct (find (Sql.team_matches (blue_team g)) (team s)); cbn;
      match goal with
      | |- context [find ?f ?l] => destruct (find f l)
      end; reflexivity.
  - destruct (find (Sql.team_matches (blue_team g)) (team s)); cbn;
      match goal with
      | |- context [find ?f ?l] => destruct (find f l)
      end; reflexivity.
Qed.

Lemma ensure_team_grows vals s :
  exists new, team (ensure_team vals s) = (team s ++ new)%list.
Proof.
  unfold ensure_team.
  destruct find; [exists []; now rewrite app_nil_r|].
  now eexists.
Qed.

Lemma ensure_team_game vals s : game (ensure_team vals s) = game s.
Proof. unfold ensure_team. now destruct find. Qed.

Lemma ensure_team_found reg n s :
  exists id, Sql.team_id_where (Some n) (team (ensure_team (reg, Some n) s))
             = Some id.
Proof.
  unfold ensure_team, Sql.team_id_where. cbn [snd].
  destruct (find (Sql.team_matches (Some n)) (team s)) as [r|] eqn:E.
  - rewrite E. now eexists.
  - cbn [Sql.add_team team]. rewrite find_app, E. cbn.
    rewrite String.eqb_refl. now eexists.
Qed.

Lemma ensure_team_keeps_found vals name s id :
  Sql.team_id_where name (team s) = Some id ->
  Sql.team_id_where name (team (ensure_team vals s)) = Some id.
Proof.
  intros H. destruct (ensure_team_grows vals s) as [new ->].
  now apply team_id_where_app.
Qed.

(** A record that [getTournamentData] accepts has a region for its teams. *)
Lemma region_of_normalized g t :
  getTournamentData g = inr t -> exists reg, region_of g = inr reg.
Proof.
  unfold getTournamentData, region_of.
  intros H.
  destruct (split g); [|now eexists].
  destruct (getitem regionsDict (region g)); [|now eexists].
  exfalso. destruct (season g);
    match type of H with
    | context [group0 ?m] => destruct (group0 m)
    end; discriminate H.
Qed.

(** ** The team loop of insertGame *)

Lemma team_ids_found fuel g s b r :
  Sql.team_id_where (blue_team g) (team s) = Some b ->
  Sql.team_id_where (red_team g) (team s) = Some r ->
  team_ids (S fuel) g s = Ok (b, r) s.
Proof.
  intros Hb Hr. cbn [team_ids]. unfold bind, Sql.select_team_id.
  now rewrite Hb, Hr.
Qed.

Lemma team_ids_retry fuel g s :
  Sql.team_id_where (blue_team g) (team s) = None \/
  Sql.team_id_where (red_team g) (team s) = None ->
  team_ids (S fuel) g s =
  bind (insertTeam [g]) (fun _ => team_ids fuel g) (say team_warning s).
Proof.
  intros H. cbn [team_ids]. unfold bind at 1 2, Sql.select_team_id.
  destruct (Sql.team_id_where (blue_team g) (team s)),
    (Sql.team_id_where (red_team g) (team s));
    try reflexivity.
  destruct H; discriminate.
Qed.

Lemma only_team_refl s : only_team s s.
Proof. now repeat split. Qed.

Lemma only_team_trans a b c : only_team a b -> only_team b c -> only_team a c.
Proof. unfold only_team. intros (-> & -> & ->) (-> & -> & ->). auto. Qed.

Lemma only_team_say s line : only_team s (say line s).
Proof. now repeat split. Qed.

Lemma only_team_add s vals : only_team s (Sql.add_team vals s).
Proof. now repeat split. Qed.

Lemma team_ids_only_team fuel g : keeps only_team (team_ids fuel g).
Proof.
  apply keeps_team_ids; intros;
    eauto using only_team_refl, only_team_trans, only_team_say,
      only_team_add.
Qed.

(** Whatever the fuel, the identifiers returned are those of the rows found. *)
Lemma team_ids_Ok fuel g s ids s' :
  team_ids fuel g s = Ok ids s' ->
  Sql.team_id_where (blue_team g) (team s') = Some (fst ids) /\
  Sql.team_id_where (red_team g) (team s') = Some (snd ids).
Proof.
  revert s. induction fuel as [|fuel IH]; intros s; [discriminate|].
  destruct (Sql.team_id_where (blue_team g) (team s)) as [b|] eqn:Eb.
  - destruct (Sql.team_id_where (red_team g) (team s)) as [r|] eqn:Er.
    + rewrite (team_ids_found _ _ _ _ _ Eb Er). intros [= <- <-]. auto.
    + rewrite team_ids_retry by auto. intros H.
      apply bind_Ok in H. destruct H as (? & s1 & _ & H). now apply IH in H.
  - rewrite team_ids_retry by auto. intros H.
    apply bind_Ok in H. destruct H as (? & s1 & _ & H). now apply IH in H.
Qed.

(** With both names present, one creation attempt is enough. *)
Lemma team_ids_two_passes fuel g s reg b r :
  region_of g = inr reg -> blue_team g = Some b -> red_team g = Some r ->
  exists ids s', team_ids (S (S fuel)) g s = Ok ids s'.
Proof.
  intros Hreg Hb Hr.
  destruct (Sql.team_id_where (blue_team g) (team s)) as [bi|] eqn:Eb;
    [destruct (Sql.team_id_where (red_team g) (team s)) as [ri|] eqn:Er|].
  1: { rewrite (team_ids_found _ _ _ _ _ Eb Er). eauto. }
  all: rewrite team_ids_retry by auto; unfold bind;
    rewrite insertTeam_one, Hreg, Hb, Hr;
    set (s1 := ensure_team (reg, Some b) (say team_warning s));
    destruct (ensure_team_found reg b (say team_warning s)) as [bi' Hbi];
    destruct (ensure_team_found reg r s1) as [ri' Hri];
    eapply ensure_team_keeps_found in Hbi;
    erewrite team_ids_found;
      [eauto | rewrite Hb; exact Hbi | rewrite Hr; exact Hri].
Qed.

(** With a name missing, no amount of fuel is enough. *)
Lemma team_ids_diverges fuel g s reg :
  region_of g = inr reg -> blue_team g = None \/ red_team g = None ->
  team_ids fuel g s = OutOfFuel.
Proof.
  intros Hreg Hnull. revert s.
  induction fuel as [|fuel IH]; intros s; [reflexivity|].
  rewrite team_ids_retry.
  - unfold bind. rewrite insertTeam_one, Hreg. apply IH.
  - destruct Hnull as [-> | ->]; rewrite team_id_where_null; auto.
Qed.

(** ** insertGame, one record *)

Lemma insertGame_one fuel g s :
  insertGame fuel [g] s =
  match getTournamentData g with
  | inl e => Raise e s
  | inr t =>
      match Sql.game_id_where (t, tourn_game_id g) (game s) with
      | Some id => Ok 1 (say (game_skip id) s)
      | None =>
          match team_ids fuel g s with
          | Ok ids s1 =>
              Ok 1 (Sql.add_game (t, tourn_game_id g, fst ids, snd ids,
                                  winning_team g) s1)
          | Raise e s1 => Raise e s1
          | OutOfFuel => OutOfFuel
          end
      end
  end.
Proof.
  unfold insertGame. cbn [for_each]. unfold bind, lift, raise, ret.
  destruct (getTournamentData g) as [e|t]; [reflexivity|].
  unfold Sql.select_game_id.
  destruct (Sql.game_id_where (t, tourn_game_id g) (game s)); [reflexivity|].
  destruct (team_ids fuel g s); reflexivity.
Qed.

Lemma game_id_where_added t tgid b r w s :
  Sql.game_id_where (t, tgid) (game s) = None ->
  Sql.game_id_where (t, tgid) (game (Sql.add_game (t, tgid, b, r, w) s)) =
  Some (Sql.next_id game_id_of (game s)).
Proof.
  unfold Sql.game_id_where. intros H.
  destruct (find (Sql.game_matches (t, tgid)) (game s)) eqn:E;
    [discriminate|].
  cbn [Sql.add_game game]. rewrite find_app, E.
  cbn [find]. unfold Sql.game_matches.
  cbn [game_tournament game_tourn_game_id fst snd].
  now rewrite String.eqb_refl, Z.eqb_refl.
Qed.

Lemma insertGame_skip fuel g s t gid :
  getTournamentData g = inr t ->
  Sql.game_id_where (t, tourn_game_id g) (game s) = Some gid ->
  insertGame fuel [g] s = Ok 1 (say (game_skip gid) s).
Proof. intros Ht Hg. now rewrite insertGame_one, Ht, Hg. Qed.

(** A record that is normalized, whose game is not in the table and which
    names both teams is inserted after at most one creation attempt. *)
Lemma insertGame_returns fuel g s t b r :
  getTournamentData g = inr t ->
  Sql.game_id_where (t, tourn_game_id g) (game s) = None ->
  blue_team g = Some b -> red_team g = Some r ->
  exists ids s0,
    game s0 = game s /\
    insertGame (S (S fuel)) [g] s =
    Ok 1 (Sql.add_game (t, tourn_game_id g, fst ids, snd ids, winning_team g)
                       s0).
Proof.
  intros Ht Hg Hb Hr.
  destruct (region_of_normalized g t Ht) as [reg Hreg].
  destruct (team_ids_two_passes fuel g s reg b r Hreg Hb Hr)
    as (ids & s0 & Hids).
  exists ids, s0.
  pose proof (team_ids_only_team (S (S fuel)) g s) as K. rewrite Hids in K.
  destruct K as (Kg & _). cbn in Kg. split; [exact Kg|].
  now rewrite insertGame_one, Ht, Hg, Hids.
Qed.

(** C1 (as amended).  For a record that is normalized: when its game is in
    the table, [insertGame] finds the row, prints the skip message and
    returns 1 without touching a table, whatever the fuel; when its game is
    not in the table and both team names are present, [insertGame] returns 1
    after at most one creation attempt, having appended exactly one game row,
    which carries the key of the record, and a second call on the same
    record, with any fuel, finds that row, is a skip and leaves the tables as
    they are, so the identifier is the same and the two calls make one
    INSERT; when its game is not in the table and a team name is missing,
    the first call returns for no amount of fuel. *)
Theorem insertGame_idempotent fuel g s t :
  getTournamentData g = inr t ->
  (forall gid,
      Sql.game_id_where (t, tourn_game_id g) (game s) = Some gid ->
      forall fuel',
        insertGame fuel' [g] s = Ok 1 (say (game_skip gid) s) /\
        tables (say (game_skip gid) s) = tables s) /\
  (forall b r,
      Sql.game_id_where (t, tourn_game_id g) (game s) = None ->
      blue_team g = Some b -> red_team g = Some r ->
      exists row s1,
        insertGame (S (S fuel)) [g] s = Ok 1 s1 /\
        game s1 = (game s ++ [row])%list /\
        game_key row = (t, tourn_game_id g) /\
        Sql.game_id_where (t, tourn_game_id g) (game s1) =
        Some (game_id_of row) /\
        forall fuel',
          insertGame fuel' [g] s1 =
          Ok 1 (say (game_skip (game_id_of row)) s1) /\
          tables (say (game_skip (game_id_of row)) s1) = tables s1 /\
          Sql.game_id_where (t, tourn_game_id g)
                            (game (say (game_skip (game_id_of row)) s1)) =
          Some (game_id_of row)) /\
  (Sql.game_id_where (t, tourn_game_id g) (game s) = None ->
   blue_team g = None \/ red_team g = None ->
   forall fuel', insertGame fuel' [g] s = OutOfFuel).
Proof.
  intros Ht. split; [|split].
  - intros gid Hg fuel'. split; [|reflexivity].
    now apply insertGame_skip with (t := t).
  - intros b r Hg Hb Hr.
    destruct (insertGame_returns fuel g s t b r Ht Hg Hb Hr)
      as (ids & s0 & Kg & H1).
    assert (Hg0 : Sql.game_id_where (t, tourn_game_id g) (game s0) = None)
      by now rewrite Kg.
    pose proof (game_id_where_added t (tourn_game_id g) (fst ids) (snd ids)
                  (winning_team g) s0 Hg0) as Hadd.
    eexists. eexists. split; [exact H1|].
    cbn [Sql.add_game game]. rewrite Kg.
    split; [reflexivity|]. split; [reflexivity|].
    cbn [game_id_of]. rewrite Kg in Hadd. cbn [Sql.add_game game] in Hadd.
    rewrite Kg in Hadd.
    split; [exact Hadd|].
    intros fuel'. split; [|split; [reflexivity|exact Hadd]].
    apply insertGame_skip with (t := t); [exact Ht|exact Hadd].
  - intros Hg Hnull fuel'.
    destruct (region_of_normalized g t Ht) as [reg Hreg].
    rewrite insertGame_one, Ht, Hg.
    now rewrite (team_ids_diverges fuel' g s reg Hreg Hnull).
Qed.

Lemma insertGame_idempotent_witness :
  getTournamentData eu_summer = inr "2017/Summer/EU" /\
  Sql.game_id_where ("2017/Summer/EU", 3) (game empty_store) = None /\
  exists row s1,
    insertGame 2 [eu_summer] empty_store = Ok 1 s1 /\
    game s1 = [row] /\
    forall fuel',
      insertGame fuel' [eu_summer] s1 =
      Ok 1 (say (game_skip (game_id_of row)) s1).
Proof.
  split; [reflexivity|]. split; [reflexivity|].
  destruct (proj1 (proj2 (insertGame_idempotent 0 eu_summer empty_store
                            "2017/Summer/EU" eq_refl))
              "G2" "FNC" eq_refl eq_refl eq_refl)
    as (row & s1 & H1 & Hrow & _ & _ & Hsecond).
  exists row, s1. split; [exact H1|]. split; [exact Hrow|].
  intros fuel'. exact (proj1 (Hsecond fuel')).
Defined.

(** C1 (as stated) fails.  The record names no red team: the lookup of the
    red team finds nothing, [insertTeam] adds a row without a name, the next
    lookup finds nothing again, and the first call of [insertGame] neither
    returns nor raises, whatever the fuel: no identifier is produced, no
    game row is inserted, and there is no second call. *)
Lemma insertGame_missing_team_name :
  getTournamentData eu_no_red = inr "2017/Summer/EU" /\
  Sql.game_id_where ("2017/Summer/EU", 5) (game eu_summer_store) = None /\
  bind (insertTeam [eu_no_red])
       (fun _ => Sql.select_team_id (red_team eu_no_red)) eu_summer_store =
  Ok None (mkStore (game eu_summer_store)
                   (team eu_summer_store ++ [mkTeamRow 3 (Some "EU") None])
                   [] [] (stdout eu_summer_store)) /\
  forall fuel, insertGame fuel [eu_no_red] eu_summer_store = OutOfFuel.
Proof.
  split; [reflexivity|]. split; [reflexivity|]. split; [reflexivity|].
  intros fuel. rewrite insertGame_one.
  change (getTournamentData eu_no_red) with (@inr Exn string "2017/Summer/EU").
  change (Sql.game_id_where ("2017/Summer/EU", tourn_game_id eu_no_red)
                            (game eu_summer_store)) with (@None Z).
  now rewrite (team_ids_diverges fuel eu_no_red eu_summer_store (Some "EU")
                 eq_refl (or_intror eq_refl)).
Qed.

(** C6 (what the code does).  When the game is not in the table,
    [getGameId] prints its warning and then stops with [NameError]: the
    argument of the recovery call names [game], which is not defined in
    [getGameId].  No game is created and no identifier is returned. *)
Theorem getGameId_missing_game fuel g s t :
  getTournamentData g = inr t ->
  Sql.game_id_where (t, tourn_game_id g) (game s) = None ->
  getGameId (S fuel) g s = Raise (NameError "game") (say game_warning s).
Proof.
  intros Ht Hg. unfold getGameId. cbn [getGameId_loop].
  unfold bind, lift, ret, Sql.select_game_id. now rewrite Ht, Hg.
Qed.

Lemma getGameId_missing_game_witness :
  getTournamentData eu_summer = inr "2017/Summer/EU" /\
  Sql.game_id_where ("2017/Summer/EU", 3) (game empty_store) = None /\
  getGameId 1 eu_summer empty_store =
  Raise (NameError "game") (say game_warning empty_store).
Proof.
  split; [reflexivity|]. split; [reflexivity|].
  apply (getGameId_missing_game 0 eu_summer empty_store "2017/Summer/EU");
    reflexivity.
Defined.

Lemma getGameId_found fuel g s t gid :
  getTournamentData g = inr t ->
  Sql.game_id_where (t, tourn_game_id g) (game s) = Some gid ->
  getGameId (S fuel) g s = Ok gid s.
Proof.
  intros Ht Hg. unfold getGameId. cbn [getGameId_loop].
  unfold bind, lift, ret, Sql.select_game_id. now rewrite Ht, Hg.
Qed.

(** C7 (as amended).  The team loop of [insertGame] has no bound and no
    integrity error.  For a record that is normalized and whose game is not
    in the table, it ends with both identifiers after at most one creation
    attempt when both team names are present, and [insertGame] returns 1;
    when a team name is missing (NULL), it ends for no amount of fuel.
    [getGameId] returns the identifier in its first pass when the game is
    present. *)
Theorem insertGame_team_loop fuel g s t :
  getTournamentData g = inr t ->
  (forall b r,
      blue_team g = Some b -> red_team g = Some r ->
      exists s', insertGame (S (S fuel)) [g] s = Ok 1 s') /\
  (Sql.game_id_where (t, tourn_game_id g) (game s) = None ->
   blue_team g = None \/ red_team g = None ->
   insertGame fuel [g] s = OutOfFuel) /\
  (forall gid,
      Sql.game_id_where (t, tourn_game_id g) (game s) = Some gid ->
      getGameId (S fuel) g s = Ok gid s).
Proof.
  intros Ht. destruct (region_of_normalized g t Ht) as [reg Hreg].
  repeat split.
  - intros b r Hb Hr. rewrite insertGame_one, Ht.
    destruct (Sql.game_id_where (t, tourn_game_id g) (game s));
      [now eexists|].
    destruct (team_ids_two_passes fuel g s reg b r Hreg Hb Hr)
      as (ids & s' & ->).
    now eexists.
  - intros Hg Hnull. rewrite insertGame_one, Ht, Hg.
    now rewrite (team_ids_diverges fuel g s reg Hreg Hnull).
  - intros gid Hg. now apply getGameId_found with (t := t).
Qed.

Lemma insertGame_team_loop_witness :
  getTournamentData eu_summer = inr "2017/Summer/EU" /\
  exists s', insertGame 2 [eu_summer] empty_store = Ok 1 s'.
Proof.
  split; [reflexivity|].
  apply (proj1 (insertGame_team_loop 0 eu_summer empty_store
                  "2017/Summer/EU" eq_refl) "G2" "FNC");
    reflexivity.
Defined.

(** C7 (as stated) fails: with a record whose blue team is missing, the
    lookup still finds nothing after the creation attempt, and [insertGame]
    neither returns nor raises, whatever the fuel. *)
Lemma insertGame_loops_forever :
  bind (insertTeam [nameless])
       (fun _ => Sql.select_team_id (blue_team nameless)) empty_store =
  Ok None (mkStore [] [mkTeamRow 1 None None; mkTeamRow 2 None (Some "TL")]
                   [] [] []) /\
  forall fuel, insertGame fuel [nameless] empty_store = OutOfFuel.
Proof.
  split; [reflexivity|].
  intros fuel. rewrite insertGame_one.
  change (getTournamentData nameless) with (@inr Exn string "2019/MSI").
  cbn [Sql.game_id_where game empty_store find option_map].
  now rewrite (team_ids_diverges fuel nameless empty_store None eq_refl
                 (or_introl eq_refl)).
Qed.

(** ** The draft writers, one side *)

Lemma numbered_from_cons {A} k (a : A) l :
  numbered_from k (a :: l) = (k + 1, a) :: numbered_from (k + 1) l.
Proof.
  unfold numbered_from. cbn [length seq map combine].
  f_equal. f_equal. rewrite <- seq_shift, map_map.
  apply map_ext. intros i. lia.
Qed.

Lemma with_bans_nil s : with_bans [] s = s.
Proof. destruct s. unfold with_bans. cbn. now rewrite app_nil_r. Qed.

Lemma with_bans_app r1 r2 s :
  with_bans r2 (with_bans r1 s) = with_bans (r1 ++ r2) s.
Proof. unfold with_bans. cbn. now rewrite app_assoc. Qed.

Lemma with_picks_nil s : with_picks [] s = s.
Proof. destruct s. unfold with_picks. cbn. now rewrite app_nil_r. Qed.

Lemma with_picks_app r1 r2 s :
  with_picks r2 (with_picks r1 s) = with_picks (r1 ++ r2) s.
Proof. unfold with_picks. cbn. now rewrite app_assoc. Qed.

Section Entries.

Variable cin : string -> option Z.
Variable cal : string -> Exn + string.
Variables gid side : Z.

Lemma ban_entry_resolve name k s :
  ban_entry cin cal gid side name k s =
  match resolve cin cal name with
  | inr id => Ok (k + 1) (with_bans [mkBanRow gid id (k + 1) side] s)
  | inl e => Raise e s
  end.
Proof.
  unfold ban_entry, resolve, bind, lift, raise, ret.
  destruct (String.eqb name "none"); [reflexivity|].
  destruct (cin name); [reflexivity|].
  destruct (cal name); reflexivity.
Qed.

Lemma pick_entry_resolve name position k s :
  pick_entry cin cal gid side (name, position) k s =
  match resolve cin cal name with
  | inr id =>
      Ok (k + 1) (with_picks [mkPickRow gid id position (k + 1) side] s)
  | inl e => Raise e s
  end.
Proof.
  unfold pick_entry, resolve, bind, lift, raise, ret.
  destruct (String.eqb name "none"); [reflexivity|].
  destruct (cin name); [reflexivity|].
  destruct (cal name); reflexivity.
Qed.

Lemma ban_loop_ok bans : forall k s,
  all_resolve cin cal bans ->
  for_acc bans k (ban_entry cin cal gid side) s =
  Ok (k + Z.of_nat (length bans))
     (with_bans (ban_rows cin cal gid side k bans) s).
Proof.
  induction bans as [|name bans IH]; intros k s Hall.
  - cbn. now rewrite with_bans_nil, Z.add_0_r.
  - inversion Hall as [|? ? [id Hid] Hall']; subst.
    cbn [for_acc]. unfold bind. rewrite ban_entry_resolve, Hid.
    rewrite (IH _ _ Hall'), with_bans_app.
    unfold ban_rows. rewrite numbered_from_cons. cbn [map fst snd].
    rewrite Hid. cbn [resolved length]. f_equal. lia.
Qed.

Lemma ban_loop_returns bans : forall k s k' s',
  for_acc bans k (ban_entry cin cal gid side) s = Ok k' s' ->
  all_resolve cin cal bans.
Proof.
  induction bans as [|name bans IH]; intros k s k' s' H; [constructor|].
  cbn [for_acc] in H. apply bind_Ok in H. destruct H as (k1 & s1 & H1 & H).
  rewrite ban_entry_resolve in H1.
  constructor; [|eapply IH; eassumption].
  destruct (resolve cin cal name); [discriminate|now eexists].
Qed.

Lemma ban_loop_raises bans name e : forall k s,
  In name bans -> resolve cin cal name = inl e ->
  exists e' s', for_acc bans k (ban_entry cin cal gid side) s = Raise e' s'.
Proof.
  induction bans as [|b bans IH]; intros k s Hin He; [destruct Hin|].
  cbn [for_acc]. unfold bind. rewrite ban_entry_resolve.
  destruct (resolve cin cal b) as [e'|id] eqn:Hb; [now eexists; eexists|].
  destruct Hin as [-> | Hin]; [congruence|].
  now apply IH.
Qed.

Lemma pick_loop_ok picks : forall k s,
  all_resolve cin cal (map fst picks) ->
  for_acc picks k (pick_entry cin cal gid side) s =
  Ok (k + Z.of_nat (length picks))
     (with_picks (pick_rows cin cal gid side k picks) s).
Proof.
  induction picks as [|[name position] picks IH]; intros k s Hall.
  - cbn. now rewrite with_picks_nil, Z.add_0_r.
  - inversion Hall as [|? ? [id Hid] Hall']; subst.
    cbn [for_acc]. unfold bind. rewrite pick_entry_resolve, Hid.
    rewrite (IH _ _ Hall'), with_picks_app.
    unfold pick_rows. rewrite numbered_from_cons. cbn [map fst snd].
    rewrite Hid. cbn [resolved length]. f_equal. lia.
Qed.

Lemma pick_loop_returns picks : forall k s k' s',
  for_acc picks k (pick_entry cin cal gid side) s = Ok k' s' ->
  all_resolve cin cal (map fst picks).
Proof.
  induction picks as [|[name position] picks IH]; intros k s k' s' H;
    [constructor|].
  cbn [for_acc] in H. apply bind_Ok in H. destruct H as (k1 & s1 & H1 & H).
  rewrite pick_entry_resolve in H1.
  constructor; [|eapply IH; eassumption].
  cbn [fst]. destruct (resolve cin cal name); [discriminate|now eexists].
Qed.

Lemma pick_loop_raises picks name e : forall k s,
  In name (map fst picks) -> resolve cin cal name = inl e ->
  exists e' s',
    for_acc picks k (pick_entry cin cal gid side) s = Raise e' s'.
Proof.
  induction picks as [|[b position] picks IH]; intros k s Hin He;
    [destruct Hin|].
  cbn [for_acc]. unfold bind. rewrite pick_entry_resolve.
  destruct (resolve cin cal b) as [e'|id] eqn:Hb; [now eexists; eexists|].
  destruct Hin as [Hin | Hin]; [cbn in Hin; congruence|].
  now apply IH.
Qed.

End Entries.

(** ** insertBan and insertPick, one record *)

Lemma getGameId_Ok fuel g s gid s0 :
  getGameId fuel g s = Ok gid s0 ->
  s0 = s /\
  exists t fuel',
    fuel = S fuel' /\ getTournamentData g = inr t /\
    Sql.game_id_where (t, tourn_game_id g) (game s) = Some gid.
Proof.
  unfold getGameId, bind, lift, raise, ret.
  destruct (getTournamentData g) as [e|t]; [discriminate|].
  destruct fuel as [|fuel]; [discriminate|].
  cbn [getGameId_loop]. unfold bind, Sql.select_game_id.
  destruct (Sql.game_id_where (t, tourn_game_id g) (game s)) as [id|] eqn:E;
    [|discriminate].
  unfold ret. intros [= <- <-]. split; [reflexivity|].
  now exists t, fuel.
Qed.

Lemma insertBan_one cin cal fuel g s :
  insertBan cin cal fuel [g] s =
  match getTournamentData g with
  | inl e => Raise e s
  | inr _ =>
      match getGameId fuel g s with
      | Ok gid s0 =>
          match Sql.ban_where gid (ban s0) with
          | Some id => Ok 1 (say (ban_skip id) s0)
          | None =>
              match for_acc (bans_blue g) 0 (ban_entry cin cal gid 0) s0 with
              | Ok _ s1 =>
                  match
                    for_acc (bans_red g) 0 (ban_entry cin cal gid 1) s1
                  with
                  | Ok _ s2 => Ok 1 s2
                  | Raise e s2 => Raise e s2
                  | OutOfFuel => OutOfFuel
                  end
              | Raise e s1 => Raise e s1
              | OutOfFuel => OutOfFuel
              end
          end
      | Raise e s0 => Raise e s0
      | OutOfFuel => OutOfFuel
      end
  end.
Proof.
  unfold insertBan. cbn [for_each length seq map combine fst snd].
  unfold bind, lift, raise, ret, Sql.select_ban_game_id.
  change (Z.of_nat 0) with 0. change (Z.of_nat 1) with 1.
  destruct (getTournamentData g) as [e|t]; [reflexivity|].
  destruct (getGameId fuel g s) as [gid s0| |]; try reflexivity.
  destruct (Sql.ban_where gid (ban s0)); [reflexivity|].
  destruct (for_acc (bans_blue g) 0 (ban_entry cin cal gid 0) s0)
    as [k1 s1| |]; try reflexivity.
  destruct (for_acc (bans_red g) 0 (ban_entry cin cal gid 1) s1);
    reflexivity.
Qed.

Lemma insertPick_one cin cal fuel g s :
  insertPick cin cal fuel [g] s =
  match getTournamentData g with
  | inl e => Raise e s
  | inr _ =>
      match getGameId fuel g s with
      | Ok gid s0 =>
          match Sql.pick_where gid (pick s0) with
          | Some id => Ok 1 (say (pick_skip id) s0)
          | None =>
              match
                for_acc (picks_blue g) 0 (pick_entry cin cal gid 0) s0
              with
              | Ok _ s1 =>
                  match
                    for_acc (picks_red g) 0 (pick_entry cin cal gid 1) s1
                  with
                  | Ok _ s2 => Ok 1 s2
                  | Raise e s2 => Raise e s2
                  | OutOfFuel => OutOfFuel
                  end
              | Raise e s1 => Raise e s1
              | OutOfFuel => OutOfFuel
              end
          end
      | Raise e s0 => Raise e s0
      | OutOfFuel => OutOfFuel
      end
  end.
Proof.
  unfold insertPick. cbn [for_each length seq map combine fst snd].
  unfold bind, lift, raise, ret, Sql.select_pick_game_id.
  change (Z.of_nat 0) with 0. change (Z.of_nat 1) with 1.
  destruct (getTournamentData g) as [e|t]; [reflexivity|].
  destruct (getGameId fuel g s) as [gid s0| |]; try reflexivity.
  destruct (Sql.pick_where gid (pick s0)); [reflexivity|].
  destruct (for_acc (picks_blue g) 0 (pick_entry cin cal gid 0) s0)
    as [k1 s1| |]; try reflexivity.
  destruct (for_acc (picks_red g) 0 (pick_entry cin cal gid 1) s1);
    reflexivity.
Qed.

(** The rows written when nothing is in the way. *)
Lemma insertBan_writes cin cal fuel g s t gid :
  getTournamentData g = inr t ->
  Sql.game_id_where (t, tourn_game_id g) (game s) = Some gid ->
  Sql.ban_where gid (ban s) = None ->
  all_resolve cin cal (bans_blue g) -> all_resolve cin cal (bans_red g) ->
  insertBan cin cal (S fuel) [g] s =
  Ok 1 (with_bans (ban_rows cin cal gid 0 0 (bans_blue g) ++
                   ban_rows cin cal gid 1 0 (bans_red g)) s).
Proof.
  intros Ht Hg Hb Hblue Hred.
  rewrite insertBan_one, Ht, (getGameId_found fuel g s t gid Ht Hg), Hb.
  rewrite (ban_loop_ok cin cal gid 0 _ 0 s Hblue).
  rewrite (ban_loop_ok cin cal gid 1 _ 0 _ Hred).
  now rewrite with_bans_app.
Qed.

Lemma insertPick_writes cin cal fuel g s t gid :
  getTournamentData g = inr t ->
  Sql.game_id_where (t, tourn_game_id g) (game s) = Some gid ->
  Sql.pick_where gid (pick s) = None ->
  all_resolve cin cal (map fst (picks_blue g)) ->
  all_resolve cin cal (map fst (picks_red g)) ->
  insertPick cin cal (S fuel) [g] s =
  Ok 1 (with_picks (pick_rows cin cal gid 0 0 (picks_blue g) ++
                    pick_rows cin cal gid 1 0 (picks_red g)) s).
Proof.
  intros Ht Hg Hb Hblue Hred.
  rewrite insertPick_one, Ht, (getGameId_found fuel g s t gid Ht Hg), Hb.
  rewrite (pick_loop_ok cin cal gid 0 _ 0 s Hblue).
  rewrite (pick_loop_ok cin cal gid 1 _ 0 _ Hred).
  now rewrite with_picks_app.
Qed.

Lemma insertBan_skip cin cal fuel g s t gid id :
  getTournamentData g = inr t ->
  Sql.game_id_where (t, tourn_game_id g) (game s) = Some gid ->
  Sql.ban_where gid (ban s) = Some id ->
  insertBan cin cal (S fuel) [g] s = Ok 1 (say (ban_skip id) s).
Proof.
  intros Ht Hg Hb.
  now rewrite insertBan_one, Ht, (getGameId_found fuel g s t gid Ht Hg), Hb.
Qed.

Lemma insertPick_skip cin cal fuel g s t gid id :
  getTournamentData g = inr t ->
  Sql.game_id_where (t, tourn_game_id g) (game s) = Some gid ->
  Sql.pick_where gid (pick s) = Some id ->
  insertPick cin cal (S fuel) [g] s = Ok 1 (say (pick_skip id) s).
Proof.
  intros Ht Hg Hb.
  now rewrite insertPick_one, Ht, (getGameId_found fuel g s t gid Ht Hg), Hb.
Qed.

(** ** The rows of one side *)

Lemma ban_rows_nth cin cal gid side l : forall k i,
  nth_error (ban_rows cin cal gid side k l) i =
  option_map (fun name => mkBanRow gid (resolved (resolve cin cal name))
                                   (k + Z.of_nat i + 1) side)
             (nth_error l i).
Proof.
  unfold ban_rows.
  induction l as [|a l IH]; intros k i; [now destruct i|].
  rewrite numbered_from_cons. destruct i as [|i]; cbn [map nth_error].
  - cbn. do 2 f_equal. lia.
  - rewrite IH. destruct (nth_error l i); cbn; [|reflexivity].
    do 2 f_equal. lia.
Qed.

Lemma ban_rows_orders cin cal gid side l : forall k,
  map ban_selection_order (ban_rows cin cal gid side k l) =
  map (fun i => k + Z.of_nat i) (seq 1 (length l)).
Proof.
  unfold ban_rows.
  induction l as [|a l IH]; intros k; [reflexivity|].
  rewrite numbered_from_cons. cbn [map length seq fst ban_selection_order].
  rewrite IH. f_equal.
  rewrite <- (seq_shift (length l) 1), map_map.
  apply map_ext. intros i. lia.
Qed.

Lemma ban_rows_side cin cal gid side k l :
  Forall (fun r => ban_game_id r = gid /\ ban_side_id r = side)
         (ban_rows cin cal gid side k l).
Proof.
  unfold ban_rows. apply Forall_forall. intros r Hr.
  apply in_map_iff in Hr. destruct Hr as (kb & <- & _). now split.
Qed.

Lemma resolve_none cin cal : resolve cin cal "none" = inr None.
Proof. reflexivity. Qed.

(** A side whose entry fails: the rows of the entries before it are written,
    and the exception of the alias conversion ends the loop. *)
Lemma ban_loop_stops cin cal gid side pre name post e : forall k s,
  all_resolve cin cal pre -> resolve cin cal name = inl e ->
  for_acc (pre ++ name :: post) k (ban_entry cin cal gid side) s =
  Raise e (with_bans (ban_rows cin cal gid side k pre) s).
Proof.
  induction pre as [|b pre IH]; intros k s Hall He.
  - cbn [app for_acc]. unfold bind. rewrite ban_entry_resolve, He.
    now rewrite with_bans_nil.
  - inversion Hall as [|? ? [id Hid] Hall']; subst.
    cbn [app for_acc]. unfold bind. rewrite ban_entry_resolve, Hid.
    rewrite (IH _ _ Hall' He), with_bans_app.
    unfold ban_rows. rewrite numbered_from_cons. cbn [map fst snd].
    now rewrite Hid.
Qed.

(** The entries of a side all resolve, or there is a first one that fails. *)
Lemma resolve_cases cin cal l :
  all_resolve cin cal l \/
  exists pre name post e,
    l = (pre ++ name :: post)%list /\ all_resolve cin cal pre /\
    resolve cin cal name = inl e.
Proof.
  induction l as [|a l IH]; [left; constructor|].
  destruct (resolve cin cal a) as [e|id] eqn:Ha.
  - right. exists [], a, l, e. split; [reflexivity|].
    split; [constructor|exact Ha].
  - destruct IH as [Hall | (pre & name & post & e & -> & Hall & He)].
    + left. constructor; [exists id; exact Ha|exact Hall].
    + right. exists (a :: pre), name, post, e. split; [reflexivity|].
      split; [constructor; [exists id; exact Ha|exact Hall]|exact He].
Qed.

(** C4 (as amended).  For a game that is in the game table and has no ban
    row yet: when no entry makes the alias conversion fail, [insertBan]
    returns and appends one row per entry, the blue side (side 0) first and
    then the red side (side 1), each in the order of the record; the
    selection orders of a side are 1, 2, 3, ... and count every entry, also
    the entries "none", whose row has a null champion; blue bans "A", "B",
    "none" give the orders 1, 2, 3 and a null champion in the third row.
    When the alias conversion fails on an entry, [insertBan] does not write
    one row per entry: it raises that exception, having written the rows of
    the entries before the failing one only (for a red entry, all blue rows
    and the red rows before it); no row is written for the failing entry or
    for any entry after it.  One of the three cases always applies. *)
Theorem insertBan_selection_order cin cal fuel g s t gid :
  getTournamentData g = inr t ->
  Sql.game_id_where (t, tourn_game_id g) (game s) = Some gid ->
  Sql.ban_where gid (ban s) = None ->
  (all_resolve cin cal (bans_blue g) -> all_resolve cin cal (bans_red g) ->
   insertBan cin cal (S fuel) [g] s =
   Ok 1 (with_bans (ban_rows cin cal gid 0 0 (bans_blue g) ++
                    ban_rows cin cal gid 1 0 (bans_red g)) s)) /\
  (forall side l,
      map ban_selection_order (ban_rows cin cal gid side 0 l) =
      map Z.of_nat (seq 1 (length l)) /\
      Forall (fun r => ban_game_id r = gid /\ ban_side_id r = side)
             (ban_rows cin cal gid side 0 l) /\
      forall i name,
        nth_error l i = Some name ->
        nth_error (ban_rows cin cal gid side 0 l) i =
        Some (mkBanRow gid
                       (if String.eqb name "none" then None
                        else resolved (resolve cin cal name))
                       (Z.of_nat i + 1) side)) /\
  (bans_blue g = ["A"; "B"; "none"] ->
   exists a b,
     ban_rows cin cal gid 0 0 (bans_blue g) =
     [mkBanRow gid a 1 0; mkBanRow gid b 2 0; mkBanRow gid None 3 0]) /\
  (forall pre name post e,
      bans_blue g = (pre ++ name :: post)%list ->
      all_resolve cin cal pre -> resolve cin cal name = inl e ->
      insertBan cin cal (S fuel) [g] s =
      Raise e (with_bans (ban_rows cin cal gid 0 0 pre) s)) /\
  (forall pre name post e,
      all_resolve cin cal (bans_blue g) ->
      bans_red g = (pre ++ name :: post)%list ->
      all_resolve cin cal pre -> resolve cin cal name = inl e ->
      insertBan cin cal (S fuel) [g] s =
      Raise e (with_bans (ban_rows cin cal gid 0 0 (bans_blue g) ++
                          ban_rows cin cal gid 1 0 pre) s)) /\
  ((all_resolve cin cal (bans_blue g) /\ all_resolve cin cal (bans_red g)) \/
   (exists pre name post e,
       bans_blue g = (pre ++ name :: post)%list /\
       all_resolve cin cal pre /\ resolve cin cal name = inl e) \/
   (all_resolve cin cal (bans_blue g) /\
    exists pre name post e,
      bans_red g = (pre ++ name :: post)%list /\
      all_resolve cin cal pre /\ resolve cin cal name = inl e)).
Proof.
  intros Ht Hg Hb. split; [|split; [|split; [|split; [|split]]]].
  - intros Hblue Hred. now apply insertBan_writes with (t := t).
  - intros side l. split; [|split].
    + rewrite ban_rows_orders. apply map_ext. intros i. lia.
    + apply ban_rows_side.
    + intros i name Hi. rewrite ban_rows_nth, Hi. cbn [option_map].
      destruct (String.eqb_spec name "none") as [-> |]; reflexivity.
  - intros ->. now eexists; eexists.
  - intros pre name post e Hbans Hall He.
    rewrite insertBan_one, Ht, (getGameId_found fuel g s t gid Ht Hg), Hb.
    now rewrite Hbans, (ban_loop_stops cin cal gid 0 pre name post e 0 s).
  - intros pre name post e Hblue Hbans Hall He.
    rewrite insertBan_one, Ht, (getGameId_found fuel g s t gid Ht Hg), Hb.
    rewrite (ban_loop_ok cin cal gid 0 _ 0 s Hblue).
    rewrite Hbans, (ban_loop_stops cin cal gid 1 pre name post e 0 _ Hall He).
    now rewrite with_bans_app.
  - destruct (resolve_cases cin cal (bans_blue g)) as [Hblue | Hblue];
      [|right; left; exact Hblue].
    destruct (resolve_cases cin cal (bans_red g)) as [Hred | Hred];
      [left; now split|right; right; now split].
Qed.

Lemma insertBan_selection_order_witness :
  getTournamentData eu_summer = inr "2017/Summer/EU" /\
  Sql.game_id_where ("2017/Summer/EU", 3) (game eu_summer_store) = Some 1 /\
  Sql.ban_where 1 (ban eu_summer_store) = None /\
  all_resolve sample_id sample_alias (bans_blue eu_summer) /\
  all_resolve sample_id sample_alias (bans_red eu_summer) /\
  insertBan sample_id sample_alias 1 [eu_summer] eu_summer_store =
  Ok 1 (with_bans [mkBanRow 1 (Some 7) 1 0; mkBanRow 1 (Some 8) 2 0;
                   mkBanRow 1 None 3 0; mkBanRow 1 None 1 1]
                  eu_summer_store).
Proof.
  assert (Hblue : all_resolve sample_id sample_alias (bans_blue eu_summer))
    by (repeat constructor; eexists; reflexivity).
  assert (Hred : all_resolve sample_id sample_alias (bans_red eu_summer))
    by (repeat constructor; eexists; reflexivity).
  repeat (split; [first [reflexivity | assumption]|]).
  apply (proj1 (insertBan_selection_order sample_id sample_alias 0 eu_summer
                  eu_summer_store "2017/Summer/EU" 1
                  eq_refl eq_refl eq_refl) Hblue Hred).
Defined.

(** C4 (as stated) fails.  The game of the record is in the table and has no
    ban row; its blue bans are "A", "D", "B" and its red ban is "A".  "D"
    has neither an identifier nor an alias: [insertBan] writes the row of
    the first blue ban and raises, so four entries leave one row, and the
    red side is not written at all. *)
Lemma insertBan_stops_at_failed_alias :
  getTournamentData eu_unlisted = inr "2017/Summer/EU" /\
  Sql.game_id_where ("2017/Summer/EU", 3) (game eu_summer_store) = Some 1 /\
  Sql.ban_where 1 (ban eu_summer_store) = None /\
  bans_blue eu_unlisted = ["A"; "D"; "B"] /\
  bans_red eu_unlisted = ["A"] /\
  insertBan sample_id sample_alias 1 [eu_unlisted] eu_summer_store =
  Raise (AliasException "D")
        (mkStore (game eu_summer_store) (team eu_summer_store)
                 [mkBanRow 1 (Some 7) 1 0] [] (stdout eu_summer_store)).
Proof. repeat (split; [reflexivity|]). reflexivity. Qed.

(** C5 (as amended).  For an entry that is not "none", the writers store the
    identifier of the literal name when it has one; otherwise they store the
    identifier of the alias-converted name, which is null when that name has
    none either: the entry keeps its place and nothing is printed.  When the
    alias conversion itself fails, its exception leaves the writer: no row
    is written for the entry and the call does not return. *)
Theorem champion_resolution cin cal gid side k s name :
  name <> "none" ->
  (forall id,
      cin name = Some id ->
      ban_entry cin cal gid side name k s =
      Ok (k + 1) (with_bans [mkBanRow gid (Some id) (k + 1) side] s) /\
      forall position,
        pick_entry cin cal gid side (name, position) k s =
        Ok (k + 1)
           (with_picks [mkPickRow gid (Some id) position (k + 1) side] s)) /\
  (forall alias,
      cin name = None -> cal name = inr alias ->
      ban_entry cin cal gid side name k s =
      Ok (k + 1) (with_bans [mkBanRow gid (cin alias) (k + 1) side] s) /\
      stdout (with_bans [mkBanRow gid (cin alias) (k + 1) side] s) =
      stdout s /\
      forall position,
        pick_entry cin cal gid side (name, position) k s =
        Ok (k + 1)
           (with_picks [mkPickRow gid (cin alias) position (k + 1) side] s) /\
        stdout (with_picks [mkPickRow gid (cin alias) position (k + 1) side]
                           s) = stdout s) /\
  (forall e,
      cin name = None -> cal name = inl e ->
      ban_entry cin cal gid side name k s = Raise e s /\
      (forall position,
          pick_entry cin cal gid side (name, position) k s = Raise e s) /\
      forall fuel g t,
        getTournamentData g = inr t ->
        Sql.game_id_where (t, tourn_game_id g) (game s) = Some gid ->
        (Sql.ban_where gid (ban s) = None ->
         In name (bans_blue g ++ bans_red g) ->
         exists e' s', insertBan cin cal (S fuel) [g] s = Raise e' s') /\
        (Sql.pick_where gid (pick s) = None ->
         In name (map fst (picks_blue g ++ picks_red g)) ->
         exists e' s', insertPick cin cal (S fuel) [g] s = Raise e' s')).
Proof.
  intros Hname. apply String.eqb_neq in Hname.
  assert (Hres : resolve cin cal name =
                 match cin name with
                 | Some id => inr (Some id)
                 | None => match cal name with
                           | inl e => inl e
                           | inr alias => inr (cin alias)
                           end
                 end)
    by (unfold resolve; now rewrite Hname).
  split; [|split].
  - intros id Hid. rewrite Hid in Hres. split; [|intros position].
    + now rewrite ban_entry_resolve, Hres.
    + now rewrite pick_entry_resolve, Hres.
  - intros alias Hid Hal. rewrite Hid, Hal in Hres.
    split; [|split; [reflexivity|intros position; split; [|reflexivity]]].
    + now rewrite ban_entry_resolve, Hres.
    + now rewrite pick_entry_resolve, Hres.
  - intros e Hid Hal. rewrite Hid, Hal in Hres.
    split; [|split; [intros position|]].
    + now rewrite ban_entry_resolve, Hres.
    + now rewrite pick_entry_resolve, Hres.
    + intros fuel g t Ht Hg. split.
      * intros Hb Hin.
        rewrite insertBan_one, Ht, (getGameId_found fuel g s t gid Ht Hg), Hb.
        destruct (for_acc (bans_blue g) 0 (ban_entry cin cal gid 0) s)
          as [k1 s1| |] eqn:Hblue.
        -- apply ban_loop_returns in Hblue. apply in_app_or in Hin.
           destruct Hin as [Hin | Hin].
           ++ exfalso. apply (proj1 (Forall_forall _ _) Hblue) in Hin.
              destruct Hin as [id Hin]. congruence.
           ++ destruct (ban_loop_raises cin cal gid 1 (bans_red g) name e
                          0 s1 Hin Hres) as (e' & s' & ->).
              now eexists; eexists.
        -- now eexists; eexists.
        -- apply in_app_or in Hin.
           destruct Hin as [Hin | Hin];
             [destruct (ban_loop_raises cin cal gid 0 (bans_blue g) name e
                          0 s Hin Hres) as (e' & s' & Hr); congruence|].
           exfalso. clear Hin. revert Hblue.
           generalize 0 at 1. generalize s.
           induction (bans_blue g) as [|b l IH]; intros s0 z;
             [discriminate|].
           cbn [for_acc]. unfold bind. rewrite ban_entry_resolve.
           destruct (resolve cin cal b); [discriminate|]. apply IH.
      * intros Hb Hin. rewrite map_app in Hin.
        rewrite insertPick_one, Ht, (getGameId_found fuel g s t gid Ht Hg), Hb.
        destruct (for_acc (picks_blue g) 0 (pick_entry cin cal gid 0) s)
          as [k1 s1| |] eqn:Hblue.
        -- apply pick_loop_returns in Hblue. apply in_app_or in Hin.
           destruct Hin as [Hin | Hin].
           ++ exfalso. apply (proj1 (Forall_forall _ _) Hblue) in Hin.
              destruct Hin as [id Hin]. congruence.
           ++ destruct (pick_loop_raises cin cal gid 1 (picks_red g) name e
                          0 s1 Hin Hres) as (e' & s' & ->).
              now eexists; eexists.
        -- now eexists; eexists.
        -- apply in_app_or in Hin.
           destruct Hin as [Hin | Hin];
             [destruct (pick_loop_raises cin cal gid 0 (picks_blue g) name e
                          0 s Hin Hres) as (e' & s' & Hr); congruence|].
           exfalso. clear Hin. revert Hblue.
           generalize 0 at 1. generalize s.
           induction (picks_blue g) as [|[b position] l IH]; intros s0 z;
             [discriminate|].
           cbn [for_acc]. unfold bind. rewrite pick_entry_resolve.
           destruct (resolve cin cal b); [discriminate|]. apply IH.
Qed.

Lemma champion_resolution_witness :
  "B" <> "none" /\
  ban_entry sample_id sample_alias 1 0 "B" 1 eu_summer_store =
  Ok 2 (with_bans [mkBanRow 1 (Some 8) 2 0] eu_summer_store).
Proof.
  assert (H : "B" <> "none") by discriminate.
  split; [exact H|].
  apply (proj1 (proj1 (proj2 (champion_resolution sample_id sample_alias
                                1 0 1 eu_summer_store "B" H))
                      "Bee" eq_refl eq_refl)).
Defined.

(** C5 (as stated) fails.  "C" has no identifier and its alias "Cee" has
    none: the row is written with a null champion but nothing is printed.
    "D" has no identifier and no alias: the call stops with the exception of
    the alias conversion after the row of "A", and writes no row for "D". *)
Lemma unresolved_champion_not_warned :
  insertBan sample_id sample_alias 1 [eu_summer] eu_summer_store =
  Ok 1 (mkStore (game eu_summer_store) (team eu_summer_store)
                [mkBanRow 1 (Some 7) 1 0; mkBanRow 1 (Some 8) 2 0;
                 mkBanRow 1 None 3 0; mkBanRow 1 None 1 1]
                [] (stdout eu_summer_store)) /\
  insertBan sample_id sample_alias 1 [eu_retired] eu_summer_store =
  Raise (AliasException "D")
        (mkStore (game eu_summer_store) (team eu_summer_store)
                 [mkBanRow 1 (Some 7) 1 0] [] (stdout eu_summer_store)).
Proof. split; reflexivity. Qed.

(** ** Calling a draft writer twice *)

Lemma ban_where_none_app gid l rows :
  Sql.ban_where gid (l ++ rows) = None ->
  Forall (fun r => ban_game_id r = gid) rows -> rows = [].
Proof.
  intros H Hall. destruct rows as [|r rows]; [reflexivity|exfalso].
  unfold Sql.ban_where in H. rewrite find_app in H.
  destruct (find (fun r => ban_game_id r =? gid) l); [discriminate|].
  inversion Hall as [|? ? Hr _]; subst. cbn in H.
  rewrite Z.eqb_refl in H. discriminate.
Qed.

Lemma pick_where_none_app gid l rows :
  Sql.pick_where gid (l ++ rows) = None ->
  Forall (fun r => pick_game_id r = gid) rows -> rows = [].
Proof.
  intros H Hall. destruct rows as [|r rows]; [reflexivity|exfalso].
  unfold Sql.pick_where in H. rewrite find_app in H.
  destruct (find (fun r => pick_game_id r =? gid) l); [discriminate|].
  inversion Hall as [|? ? Hr _]; subst. cbn in H.
  rewrite Z.eqb_refl in H. discriminate.
Qed.

Lemma pick_rows_game cin cal gid side k l :
  Forall (fun r => pick_game_id r = gid) (pick_rows cin cal gid side k l).
Proof.
  unfold pick_rows. apply Forall_forall. intros r Hr.
  apply in_map_iff in Hr. now destruct Hr as (kb & <- & _).
Qed.

Lemma insertBan_twice cin cal fuel g s st s1 :
  insertBan cin cal fuel [g] s = Ok st s1 ->
  exists gid s2,
    getGameId fuel g s = Ok gid s /\
    (Sql.ban_where gid (ban s) = None ->
     s1 = with_bans (ban_rows cin cal gid 0 0 (bans_blue g) ++
                     ban_rows cin cal gid 1 0 (bans_red g)) s) /\
    (forall id, Sql.ban_where gid (ban s) = Some id ->
                s1 = say (ban_skip id) s) /\
    insertBan cin cal fuel [g] s1 = Ok 1 s2 /\ tables s2 = tables s1.
Proof.
  intros H. pose proof H as H0. rewrite insertBan_one in H.
  destruct (getTournamentData g) as [e|t0] eqn:Ht0; [discriminate|].
  destruct (getGameId fuel g s) as [gid s0| |] eqn:Hgid; try discriminate.
  destruct (getGameId_Ok _ _ _ _ _ Hgid) as (-> & t & fuel' & -> & Ht & Hg).
  exists gid.
  destruct (Sql.ban_where gid (ban s)) as [id|] eqn:Hb.
  - injection H as <- <-.
    exists (say (ban_skip id) (say (ban_skip id) s)).
    split; [reflexivity|].
    split; [discriminate|]. split; [now intros ? [= ->]|].
    split; [|reflexivity].
    now apply insertBan_skip with (t := t) (gid := gid).
  - destruct (for_acc (bans_blue g) 0 (ban_entry cin cal gid 0) s)
      as [k1 sa| |] eqn:Hblue; try discriminate.
    destruct (for_acc (bans_red g) 0 (ban_entry cin cal gid 1) sa)
      as [k2 sb| |] eqn:Hred; try discriminate.
    injection H as <- <-.
    pose proof (ban_loop_returns _ _ _ _ _ _ _ _ _ Hblue) as Ab.
    pose proof (ban_loop_returns _ _ _ _ _ _ _ _ _ Hred) as Ar.
    rewrite (ban_loop_ok cin cal gid 0 _ 0 s Ab) in Hblue.
    injection Hblue as _ <-.
    rewrite (ban_loop_ok cin cal gid 1 _ 0 _ Ar), with_bans_app in Hred.
    injection Hred as _ <-.
    set (rows := (ban_rows cin cal gid 0 0 (bans_blue g) ++
                  ban_rows cin cal gid 1 0 (bans_red g))%list) in *.
    destruct (Sql.ban_where gid (ban (with_bans rows s))) as [id|] eqn:Hb1.
    + exists (say (ban_skip id) (with_bans rows s)).
      split; [reflexivity|]. split; [reflexivity|].
      split; [discriminate|]. split; [|reflexivity].
      now apply insertBan_skip with (t := t) (gid := gid).
    + assert (Hnil : rows = []).
      { apply (ban_where_none_app gid (ban s)); [exact Hb1|].
        apply Forall_app. split;
          (eapply Forall_impl; [|apply ban_rows_side]); now intros r []. }
      exists s. rewrite Hnil, with_bans_nil in *.
      split; [reflexivity|]. split; [reflexivity|].
      split; [discriminate|]. split; [exact H0|reflexivity].
Qed.

Lemma insertPick_twice cin cal fuel g s st s1 :
  insertPick cin cal fuel [g] s = Ok st s1 ->
  exists gid s2,
    getGameId fuel g s = Ok gid s /\
    (Sql.pick_where gid (pick s) = None ->
     s1 = with_picks (pick_rows cin cal gid 0 0 (picks_blue g) ++
                      pick_rows cin cal gid 1 0 (picks_red g)) s) /\
    (forall id, Sql.pick_where gid (pick s) = Some id ->
                s1 = say (pick_skip id) s) /\
    insertPick cin cal fuel [g] s1 = Ok 1 s2 /\ tables s2 = tables s1.
Proof.
  intros H. pose proof H as H0. rewrite insertPick_one in H.
  destruct (getTournamentData g) as [e|t0] eqn:Ht0; [discriminate|].
  destruct (getGameId fuel g s) as [gid s0| |] eqn:Hgid; try discriminate.
  destruct (getGameId_Ok _ _ _ _ _ Hgid) as (-> & t & fuel' & -> & Ht & Hg).
  exists gid.
  destruct (Sql.pick_where gid (pick s)) as [id|] eqn:Hb.
  - injection H as <- <-.
    exists (say (pick_skip id) (say (pick_skip id) s)).
    split; [reflexivity|].
    split; [discriminate|]. split; [now intros ? [= ->]|].
    split; [|reflexivity].
    now apply insertPick_skip with (t := t) (gid := gid).
  - destruct (for_acc (picks_blue g) 0 (pick_entry cin cal gid 0) s)
      as [k1 sa| |] eqn:Hblue; try discriminate.
    destruct (for_acc (picks_red g) 0 (pick_entry cin cal gid 1) sa)
      as [k2 sb| |] eqn:Hred; try discriminate.
    injection H as <- <-.
    pose proof (pick_loop_returns _ _ _ _ _ _ _ _ _ Hblue) as Ab.
    pose proof (pick_loop_returns _ _ _ _ _ _ _ _ _ Hred) as Ar.
    rewrite (pick_loop_ok cin cal gid 0 _ 0 s Ab) in Hblue.
    injection Hblue as _ <-.
    rewrite (pick_loop_ok cin cal gid 1 _ 0 _ Ar), with_picks_app in Hred.
    injection Hred as _ <-.
    set (rows := (pick_rows cin cal gid 0 0 (picks_blue g) ++
                  pick_rows cin cal gid 1 0 (picks_red g))%list) in *.
    destruct (Sql.pick_where gid (pick (with_picks rows s)))
      as [id|] eqn:Hb1.
    + exists (say (pick_skip id) (with_picks rows s)).
      split; [reflexivity|]. split; [reflexivity|].
      split; [discriminate|]. split; [|reflexivity].
      now apply insertPick_skip with (t := t) (gid := gid).
    + assert (Hnil : rows = []).
      { apply (pick_where_none_app gid (pick s)); [exact Hb1|].
        apply Forall_app. split; apply pick_rows_game. }
      exists s. rewrite Hnil, with_picks_nil in *.
      split; [reflexivity|]. split; [reflexivity|].
      split; [discriminate|]. split; [exact H0|reflexivity].
Qed.

(** C2.  When a call of [insertBan] on a record returns, a second call on
    the same record returns 1 and leaves the four tables as the first call
    left them: the rows of the game are written once.  A call that finds a
    ban row with the identifier of the game writes nothing and prints that
    it skips.  The same holds for [insertPick] and the pick table. *)
Theorem draft_write_idempotent cin cal fuel g s :
  (forall st s1,
      insertBan cin cal fuel [g] s = Ok st s1 ->
      exists gid s2,
        getGameId fuel g s = Ok gid s /\
        (Sql.ban_where gid (ban s) = None ->
         s1 = with_bans (ban_rows cin cal gid 0 0 (bans_blue g) ++
                         ban_rows cin cal gid 1 0 (bans_red g)) s) /\
        (forall id, Sql.ban_where gid (ban s) = Some id ->
                    s1 = say (ban_skip id) s) /\
        insertBan cin cal fuel [g] s1 = Ok 1 s2 /\ tables s2 = tables s1) /\
  (forall st s1,
      insertPick cin cal fuel [g] s = Ok st s1 ->
      exists gid s2,
        getGameId fuel g s = Ok gid s /\
        (Sql.pick_where gid (pick s) = None ->
         s1 = with_picks (pick_rows cin cal gid 0 0 (picks_blue g) ++
                          pick_rows cin cal gid 1 0 (picks_red g)) s) /\
        (forall id, Sql.pick_where gid (pick s) = Some id ->
                    s1 = say (pick_skip id) s) /\
        insertPick cin cal fuel [g] s1 = Ok 1 s2 /\ tables s2 = tables s1) /\
  (forall gid id,
      getGameId fuel g s = Ok gid s ->
      (Sql.ban_where gid (ban s) = Some id ->
       insertBan cin cal fuel [g] s = Ok 1 (say (ban_skip id) s)) /\
      (Sql.pick_where gid (pick s) = Some id ->
       insertPick cin cal fuel [g] s = Ok 1 (say (pick_skip id) s))).
Proof.
  split; [|split].
  - intros st s1. apply insertBan_twice.
  - intros st s1. apply insertPick_twice.
  - intros gid id Hgid.
    destruct (getGameId_Ok _ _ _ _ _ Hgid) as (_ & t & fuel' & -> & Ht & Hg).
    split; intros Hb.
    + now apply insertBan_skip with (t := t) (gid := gid).
    + now apply insertPick_skip with (t := t) (gid := gid).
Qed.

Lemma draft_write_idempotent_witness :
  insertBan sample_id sample_alias 1 [eu_summer] eu_summer_store =
  Ok 1 (with_bans [mkBanRow 1 (Some 7) 1 0; mkBanRow 1 (Some 8) 2 0;
                   mkBanRow 1 None 3 0; mkBanRow 1 None 1 1]
                  eu_summer_store) /\
  exists s2,
    insertBan sample_id sample_alias 1 [eu_summer]
      (with_bans [mkBanRow 1 (Some 7) 1 0; mkBanRow 1 (Some 8) 2 0;
                  mkBanRow 1 None 3 0; mkBanRow 1 None 1 1]
                 eu_summer_store) = Ok 1 s2 /\
    tables s2 =
    tables (with_bans [mkBanRow 1 (Some 7) 1 0; mkBanRow 1 (Some 8) 2 0;
                       mkBanRow 1 None 3 0; mkBanRow 1 None 1 1]
                      eu_summer_store).
Proof.
  assert (H : insertBan sample_id sample_alias 1 [eu_summer] eu_summer_store =
              Ok 1 (with_bans [mkBanRow 1 (Some 7) 1 0;
                               mkBanRow 1 (Some 8) 2 0;
                               mkBanRow 1 None 3 0; mkBanRow 1 None 1 1]
                              eu_summer_store)) by reflexivity.
  split; [exact H|].
  destruct (proj1 (draft_write_idempotent sample_id sample_alias 1 eu_summer
                     eu_summer_store) _ _ H)
    as (gid & s2 & _ & _ & _ & H2 & Ht).
  now exists s2.
Defined.

(** ** The status *)

Lemma bind_ret_value {A B} (c : M A) (v : B) s st s' :
  bind c (fun _ => ret v) s = Ok st s' -> st = v.
Proof.
  intros H. apply bind_Ok in H. destruct H as (a & s1 & _ & H).
  now injection H as <- _.
Qed.

(** C10.  A call of [insertGame], [insertTeam], [insertBan] or [insertPick]
    that returns, returns 1, whatever it wrote: 0 is only the initial value
    of the local variable.  A call that skips every record is one of them. *)
Theorem status_is_one cin cal fuel gs s st s' :
  insertGame fuel gs s = Ok st s' \/ insertTeam gs s = Ok st s' \/
  insertBan cin cal fuel gs s = Ok st s' \/
  insertPick cin cal fuel gs s = Ok st s' ->
  st = 1.
Proof.
  intros [H | [H | [H | H]]]; exact (bind_ret_value _ _ _ _ _ H).
Qed.

Lemma status_is_one_witness :
  insertGame 0 [eu_summer] eu_summer_store =
  Ok 1 (say (game_skip 1) eu_summer_store) /\
  tables (say (game_skip 1) eu_summer_store) = tables eu_summer_store /\
  1 = 1.
Proof.
  assert (H : insertGame 0 [eu_summer] eu_summer_store =
              Ok 1 (say (game_skip 1) eu_summer_store)) by reflexivity.
  split; [exact H|]. split; [reflexivity|].
  exact (status_is_one sample_id sample_alias 0 [eu_summer] eu_summer_store
           1 (say (game_skip 1) eu_summer_store) (or_introl H)).
Defined.

(** ** The team table *)

Lemma display_names_app l l' :
  display_names (l ++ l') = (display_names l ++ display_names l')%list.
Proof. apply flat_map_app. Qed.

Lemma team_matches_name n r :
  Sql.team_matches (Some n) r = true <-> team_display_name r = Some n.
Proof.
  unfold Sql.team_matches, Sql.eq_text.
  destruct (team_display_name r) as [m|]; [|split; discriminate].
  rewrite String.eqb_eq. split; congruence.
Qed.

Lemma in_display_names n rows :
  In n (display_names rows) <->
  exists r, In r rows /\ team_display_name r = Some n.
Proof.
  unfold display_names. rewrite in_flat_map. split.
  - intros (r & Hr & Hn). exists r. split; [exact Hr|].
    destruct (team_display_name r) as [m|]; [|destruct Hn].
    destruct Hn as [-> | []]. reflexivity.
  - intros (r & Hr & Hn). exists r. split; [exact Hr|].
    rewrite Hn. now left.
Qed.

Lemma find_none_not_named n rows :
  find (Sql.team_matches (Some n)) rows = None ->
  ~ In n (display_names rows).
Proof.
  intros H Hin. apply in_display_names in Hin. destruct Hin as (r & Hr & Hn).
  pose proof (find_none _ _ H r Hr) as Hf.
  apply team_matches_name in Hn. congruence.
Qed.

Lemma not_named_filter n rows :
  ~ In n (display_names rows) -> rows_named n rows = [].
Proof.
  intros H. unfold rows_named.
  induction rows as [|r rows IH]; [reflexivity|]. cbn [filter].
  destruct (Sql.team_matches (Some n) r) eqn:E.
  - exfalso. apply H. apply in_display_names. exists r.
    split; [now left|]. now apply team_matches_name.
  - apply IH. intros Hin. apply H. apply in_display_names.
    apply in_display_names in Hin. destruct Hin as (r' & Hr' & Hn).
    exists r'. split; [now right|exact Hn].
Qed.

(** With distinct names, the row that a lookup finds is the only one. *)
Lemma unique_row n rows r :
  names_unique rows ->
  find (Sql.team_matches (Some n)) rows = Some r ->
  rows_named n rows = [r].
Proof.
  unfold names_unique, rows_named.
  induction rows as [|a rows IH]; intros Hu Hf; [discriminate|].
  change (a :: rows) with ([a] ++ rows)%list in Hu.
  rewrite display_names_app in Hu.
  cbn [find] in Hf. cbn [filter].
  destruct (Sql.team_matches (Some n) a) eqn:E.
  - injection Hf as <-. f_equal.
    apply not_named_filter. apply team_matches_name in E.
    cbn in Hu. rewrite E in Hu. cbn in Hu. now inversion Hu.
  - apply IH; [|exact Hf]. now apply NoDup_app_remove_l in Hu.
Qed.

Lemma at_most_one_row n rows :
  names_unique rows -> (length (rows_named n rows) <= 1)%nat.
Proof.
  intros Hu.
  destruct (find (Sql.team_matches (Some n)) rows) as [r|] eqn:E.
  - now rewrite (unique_row n rows r Hu E).
  - rewrite not_named_filter; [cbn; lia|]. now apply find_none_not_named.
Qed.

Lemma nodup_app_disjoint {A} (l1 l2 : list A) a :
  NoDup (l1 ++ l2) -> In a l1 -> ~ In a l2.
Proof.
  induction l1 as [|b l1 IH]; intros Hu Hin; [destruct Hin|].
  cbn in Hu. inversion Hu as [|? ? Hb Hu']; subst.
  destruct Hin as [-> | Hin]; [|now apply IH].
  intros H2. apply Hb. apply in_or_app. now right.
Qed.

Lemma team_inv_refl s : team_inv s s.
Proof. split; [exists []; now rewrite app_nil_r|auto]. Qed.

Lemma team_inv_trans a b c : team_inv a b -> team_inv b c -> team_inv a c.
Proof.
  intros [[n1 E1] U1] [[n2 E2] U2]. split; [|auto].
  exists (n1 ++ n2)%list. now rewrite E2, E1, app_assoc.
Qed.

Lemma team_inv_same s s' : team s' = team s -> team_inv s s'.
Proof. intros E. unfold team_inv. rewrite E. apply team_inv_refl. Qed.

Lemma team_inv_add s vals :
  find (Sql.team_matches (snd vals)) (team s) = None ->
  team_inv s (Sql.add_team vals s).
Proof.
  intros Hf. split; [now eexists|].
  unfold names_unique. cbn [Sql.add_team team]. intros Hu.
  rewrite display_names_app. cbn.
  destruct (snd vals) as [n|]; cbn; [|now rewrite app_nil_r].
  apply NoDup_app; [exact Hu|repeat constructor; auto|].
  intros m Hm [E | []]. subst m.
  exact (find_none_not_named _ _ Hf Hm).
Qed.

Lemma steps_team_inv s s' : steps s s' -> team_inv s s'.
Proof.
  apply steps_keep.
  - apply team_inv_refl.
  - apply team_inv_trans.
  - intros; now apply team_inv_same.
  - apply team_inv_add.
  - intros ? [[[[? ?] ?] ?] ?]; now apply team_inv_same.
  - intros; now apply team_inv_same.
  - intros; now apply team_inv_same.
Qed.

Lemma steps_trans a b c : steps a b -> steps b c -> steps a c.
Proof.
  induction 1 as [|a a1 b H _ IH]; [auto|].
  intros Hc. eapply steps_step; [exact H|auto].
Qed.

Lemma insertGame_step fuel gs s st s' :
  insertGame fuel gs s = Ok st s' -> steps s s'.
Proof.
  intros H. eapply steps_step; [|apply steps_refl].
  apply step_insertGame with (fuel := fuel) (gs := gs); rewrite H;
    [reflexivity|discriminate].
Qed.

(** The row that [insertGame] adds holds the identifiers of the team rows
    that carry the names of the record. *)
Lemma insertGame_inserts fuel g s st s1 :
  insertGame fuel [g] s = Ok st s1 -> game_absent g s ->
  exists row,
    game s1 = (game s ++ [row])%list /\
    forall sd,
      Sql.team_id_where (team_name sd g) (team s1) = Some (row_teamid sd row).
Proof.
  intros H (t & Ht & Hg). rewrite insertGame_one, Ht, Hg in H.
  destruct (team_ids fuel g s) as [ids s0| |] eqn:Hids; try discriminate.
  injection H as <- <-.
  pose proof (team_ids_only_team fuel g s) as K. rewrite Hids in K.
  destruct K as (Kg & _). cbn in Kg.
  destruct (team_ids_Ok _ _ _ _ _ Hids) as [Hb Hr].
  eexists. cbn [Sql.add_game game team]. rewrite Kg.
  split; [reflexivity|]. now intros [|].
Qed.

Lemma insertTeam_step gs s st s' :
  insertTeam gs s = Ok st s' -> steps s s'.
Proof.
  intros H. eapply steps_step; [|apply steps_refl].
  apply step_insertTeam with (gs := gs); rewrite H;
    [reflexivity|discriminate].
Qed.

(** [insertTeam] on a record whose region it accepts returns, and each team
    that the record names is found afterwards. *)
Lemma insertTeam_named g s reg sd n :
  region_of g = inr reg -> team_name sd g = Some n ->
  exists s1 trow,
    insertTeam [g] s = Ok 1 s1 /\
    find (Sql.team_matches (Some n)) (team s1) = Some trow.
Proof.
  intros Hreg Hn. rewrite insertTeam_one, Hreg.
  assert (Hrow : forall rows id,
             Sql.team_id_where (Some n) rows = Some id ->
             exists trow, find (Sql.team_matches (Some n)) rows = Some trow).
  { unfold Sql.team_id_where. intros rows id H.
    destruct (find (Sql.team_matches (Some n)) rows) as [trow|];
      [now exists trow|discriminate]. }
  destruct sd; cbn [team_name] in Hn; rewrite Hn; eexists.
  - destruct (ensure_team_found reg n s) as [id Hid].
    apply ensure_team_keeps_found with (vals := (reg, red_team g)) in Hid.
    destruct (Hrow _ _ Hid) as [trow Htrow].
    exists trow. split; [reflexivity|exact Htrow].
  - destruct (ensure_team_found reg n (ensure_team (reg, blue_team g) s))
      as [id Hid].
    destruct (Hrow _ _ Hid) as [trow Htrow].
    exists trow. split; [reflexivity|exact Htrow].
Qed.

(** Two game rows written for records that name the same team hold the
    identifier of the one row of that team. *)
Lemma same_team_same_id s fuel1 fuel2 g1 g2 sd1 sd2 n st1 st2 s1 s2 s3 :
  reachable s ->
  team_name sd1 g1 = Some n -> team_name sd2 g2 = Some n ->
  game_absent g1 s -> insertGame fuel1 [g1] s = Ok st1 s1 ->
  steps s1 s2 ->
  game_absent g2 s2 -> insertGame fuel2 [g2] s2 = Ok st2 s3 ->
  exists row1 row2 trow,
    game s1 = (game s ++ [row1])%list /\
    game s3 = (game s2 ++ [row2])%list /\
    rows_named n (team s3) = [trow] /\
    row_teamid sd1 row1 = team_id_of trow /\
    row_teamid sd2 row2 = team_id_of trow.
Proof.
  intros Hreach Hn1 Hn2 Ha1 H1 H12 Ha2 H2.
  destruct (insertGame_inserts _ _ _ _ _ H1 Ha1) as (row1 & E1 & T1).
  destruct (insertGame_inserts _ _ _ _ _ H2 Ha2) as (row2 & E2 & T2).
  specialize (T1 sd1). specialize (T2 sd2). rewrite Hn1 in T1.
  rewrite Hn2 in T2.
  assert (H13 : steps s1 s3)
    by exact (steps_trans _ _ _ H12 (insertGame_step _ _ _ _ _ H2)).
  destruct (steps_team_inv _ _ H13) as [[new Enew] _].
  apply team_id_where_app with (new := new) in T1. rewrite <- Enew in T1.
  assert (Hid : row_teamid sd1 row1 = row_teamid sd2 row2) by congruence.
  unfold Sql.team_id_where in T2.
  destruct (find (Sql.team_matches (Some n)) (team s3)) as [trow|] eqn:Ef;
    [|discriminate].
  injection T2 as T2.
  exists row1, row2, trow.
  repeat split; auto; [|congruence].
  apply unique_row; [|exact Ef].
  apply (steps_team_inv empty_store s3); [|constructor].
  apply (steps_trans _ _ _ Hreach).
  exact (steps_trans _ _ _ (insertGame_step _ _ _ _ _ H1) H13).
Qed.

(** C9.  In every store reached from the empty one by calls of the four
    writers, no two team rows have the same display name; later calls only
    append to the team table, so rows are never changed or removed, and add
    no row for a name that is already there.  [insertTeam] on a record whose
    region it accepts returns, and a team that the record names then has
    exactly one row, the row it had before if it had one; after any further
    calls, [insertTeam] on another record that names the team returns and
    the team still has that one row.  When two records whose games are new
    name the same team, one [insertGame] after the other with any calls in
    between, the team has exactly one row and both game rows hold its
    identifier; for records that name both of their teams the two calls do
    return, and a call on a new game returns for such records only. *)
Theorem team_display_name_unique s :
  reachable s ->
  names_unique (team s) /\
  (forall n, (length (rows_named n (team s)) <= 1)%nat) /\
  (forall s', steps s s' -> exists new, team s' = (team s ++ new)%list) /\
  (forall s' n,
      steps s s' -> In n (display_names (team s)) ->
      rows_named n (team s') = rows_named n (team s)) /\
  (forall g reg sd n,
      region_of g = inr reg -> team_name sd g = Some n ->
      exists s1 trow,
        insertTeam [g] s = Ok 1 s1 /\
        rows_named n (team s1) = [trow] /\
        team_display_name trow = Some n /\
        (In n (display_names (team s)) -> rows_named n (team s) = [trow]) /\
        forall s2 g' reg' sd',
          steps s1 s2 ->
          region_of g' = inr reg' -> team_name sd' g' = Some n ->
          exists s3,
            insertTeam [g'] s2 = Ok 1 s3 /\
            rows_named n (team s3) = [trow]) /\
  (forall fuel1 fuel2 g1 g2 sd1 sd2 n st1 st2 s1 s2 s3,
      team_name sd1 g1 = Some n -> team_name sd2 g2 = Some n ->
      game_absent g1 s -> insertGame fuel1 [g1] s = Ok st1 s1 ->
      steps s1 s2 ->
      game_absent g2 s2 -> insertGame fuel2 [g2] s2 = Ok st2 s3 ->
      exists row1 row2 trow,
        game s1 = (game s ++ [row1])%list /\
        game s3 = (game s2 ++ [row2])%list /\
        rows_named n (team s3) = [trow] /\
        row_teamid sd1 row1 = team_id_of trow /\
        row_teamid sd2 row2 = team_id_of trow) /\
  (forall fuel1 fuel2 g1 g2 sd1 sd2 n b1 r1 b2 r2,
      team_name sd1 g1 = Some n -> team_name sd2 g2 = Some n ->
      blue_team g1 = Some b1 -> red_team g1 = Some r1 ->
      blue_team g2 = Some b2 -> red_team g2 = Some r2 ->
      game_absent g1 s ->
      exists s1 row1,
        insertGame (S (S fuel1)) [g1] s = Ok 1 s1 /\
        game s1 = (game s ++ [row1])%list /\
        forall s2,
          steps s1 s2 -> game_absent g2 s2 ->
          exists s3 row2 trow,
            insertGame (S (S fuel2)) [g2] s2 = Ok 1 s3 /\
            game s3 = (game s2 ++ [row2])%list /\
            rows_named n (team s3) = [trow] /\
            row_teamid sd1 row1 = team_id_of trow /\
            row_teamid sd2 row2 = team_id_of trow) /\
  (forall g,
      game_absent g s ->
      (exists fuel st s1, insertGame fuel [g] s = Ok st s1) <->
      (exists b r, blue_team g = Some b /\ red_team g = Some r)).
Proof.
  intros Hreach.
  assert (Hu : forall s', steps s s' -> names_unique (team s')).
  { intros s' Hs. apply (steps_team_inv empty_store s').
    - exact (steps_trans _ _ _ Hreach Hs).
    - constructor. }
  assert (Hkeep : forall a b n,
             steps s a -> steps a b -> In n (display_names (team a)) ->
             rows_named n (team b) = rows_named n (team a)).
  { intros a b n Ha Hab Hin.
    pose proof (Hu b (steps_trans _ _ _ Ha Hab)) as Hu'.
    destruct (steps_team_inv a b Hab) as [[new Enew] _].
    rewrite Enew in *. unfold rows_named. rewrite filter_app.
    fold (rows_named n new). rewrite (not_named_filter n new).
    - apply app_nil_r.
    - unfold names_unique in Hu'. rewrite display_names_app in Hu'.
      exact (nodup_app_disjoint _ _ _ Hu' Hin). }
  assert (Hfound : forall a n trow,
             find (Sql.team_matches (Some n)) (team a) = Some trow ->
             In n (display_names (team a)) /\ team_display_name trow = Some n).
  { intros a n trow Hf. apply find_some in Hf. destruct Hf as [Hin Hm].
    apply team_matches_name in Hm. split; [|exact Hm].
    apply in_display_names. now exists trow. }
  split; [apply Hu, steps_refl|].
  split; [intros n; apply at_most_one_row, Hu, steps_refl|].
  split; [intros s' Hs; apply (steps_team_inv s s' Hs)|].
  split; [intros s' n Hs Hin; now apply (Hkeep s s' n (steps_refl s))|].
  split.
  { intros g reg sd n Hreg Hn.
    destruct (insertTeam_named g s reg sd n Hreg Hn)
      as (s1 & trow & H1 & Hf1).
    pose proof (insertTeam_step _ _ _ _ H1) as Hs1.
    pose proof (unique_row n (team s1) trow (Hu s1 Hs1) Hf1) as Hrow1.
    destruct (Hfound s1 n trow Hf1) as [Hin1 Hname].
    exists s1, trow. split; [exact H1|]. split; [exact Hrow1|].
    split; [exact Hname|]. split.
    - intros Hin. rewrite <- Hrow1. symmetry.
      now apply (Hkeep s s1 n (steps_refl s)).
    - intros s2 g' reg' sd' H12 Hreg' Hn'.
      destruct (insertTeam_named g' s2 reg' sd' n Hreg' Hn')
        as (s3 & trow' & H3 & _).
      exists s3. split; [exact H3|]. rewrite <- Hrow1.
      apply (Hkeep s1 s3 n Hs1); [|exact Hin1].
      exact (steps_trans _ _ _ H12 (insertTeam_step _ _ _ _ H3)). }
  split.
  { intros fuel1 fuel2 g1 g2 sd1 sd2 n st1 st2 s1 s2 s3
           Hn1 Hn2 Ha1 H1 H12 Ha2 H2.
    exact (same_team_same_id s fuel1 fuel2 g1 g2 sd1 sd2 n st1 st2 s1 s2 s3
             Hreach Hn1 Hn2 Ha1 H1 H12 Ha2 H2). }
  split.
  { intros fuel1 fuel2 g1 g2 sd1 sd2 n b1 r1 b2 r2
           Hn1 Hn2 Hb1 Hr1 Hb2 Hr2 Ha1.
    destruct Ha1 as (t1 & Ht1 & Hg1).
    destruct (insertGame_returns fuel1 g1 s t1 b1 r1 Ht1 Hg1 Hb1 Hr1)
      as (ids1 & s01 & _ & H1).
    assert (Ha1 : game_absent g1 s) by now exists t1.
    destruct (insertGame_inserts _ _ _ _ _ H1 Ha1) as (row1 & E1 & _).
    eexists. exists row1. split; [exact H1|]. split; [exact E1|].
    intros s2 H12 Ha2.
    pose proof Ha2 as (t2 & Ht2 & Hg2).
    destruct (insertGame_returns fuel2 g2 s2 t2 b2 r2 Ht2 Hg2 Hb2 Hr2)
      as (ids2 & s02 & _ & H2).
    destruct (same_team_same_id s _ _ g1 g2 sd1 sd2 n _ _ _ s2 _
                Hreach Hn1 Hn2 Ha1 H1 H12 Ha2 H2)
      as (row1' & row2 & trow & E1' & E2 & Hrow & Hi1 & Hi2).
    rewrite E1 in E1'. apply app_inv_head in E1'. injection E1' as <-.
    eexists. exists row2, trow.
    split; [exact H2|]. split; [exact E2|]. now split. }
  intros g (t & Ht & Hg). split.
  - intros (fuel & st & s1 & H).
    destruct (blue_team g) as [b|] eqn:Hb;
      [destruct (red_team g) as [r|] eqn:Hr; [now exists b, r|]|];
      exfalso; destruct (region_of_normalized g t Ht) as [reg Hreg];
      rewrite insertGame_one, Ht, Hg in H;
      rewrite (team_ids_diverges fuel g s reg Hreg) in H;
      solve [discriminate | auto].
  - intros (b & r & Hb & Hr).
    destruct (insertGame_returns 0 g s t b r Ht Hg Hb Hr)
      as (ids & s0 & _ & H).
    eexists. eexists. eexists. exact H.
Qed.

Lemma team_display_name_unique_witness :
  reachable empty_store /\
  game_absent eu_summer empty_store /\
  insertGame 2 [eu_summer] empty_store = Ok 1 eu_summer_store /\
  game_absent eu_game4 eu_summer_store /\
  exists s3 row1 row2 trow,
    insertGame 2 [eu_game4] eu_summer_store = Ok 1 s3 /\
    game eu_summer_store = [row1] /\
    rows_named "G2" (team s3) = [trow] /\
    row_teamid Blue row1 = team_id_of trow /\
    row_teamid Red row2 = team_id_of trow.
Proof.
  assert (Hr : reachable empty_store) by apply steps_refl.
  assert (A1 : game_absent eu_summer empty_store)
    by (exists "2017/Summer/EU"; split; reflexivity).
  assert (A2 : game_absent eu_game4 eu_summer_store)
    by (exists "2017/Summer/EU"; split; reflexivity).
  assert (H1 : insertGame 2 [eu_summer] empty_store = Ok 1 eu_summer_store)
    by reflexivity.
  repeat (split; [assumption|]).
  destruct (team_display_name_unique empty_store Hr)
    as (_ & _ & _ & _ & _ & _ & Hsame & _).
  destruct (Hsame 0%nat 0%nat eu_summer eu_game4 Blue Red "G2"
              "G2" "FNC" "FNC" "G2"
              eq_refl eq_refl eq_refl eq_refl eq_refl eq_refl A1)
    as (s1 & row1 & H1' & E1 & Hnext).
  rewrite H1 in H1'. injection H1' as <-.
  destruct (Hnext eu_summer_store (steps_refl _) A2)
    as (s3 & row2 & trow & H2 & _ & Hrow & Hb & Hred).
  exists s3, row1, row2, trow.
  split; [exact H2|]. split; [exact E1|]. now split.
Defined.

(** ** ORDER BY *)

Lemma insert_by_perm {R} (key : R -> Z) r l :
  Permutation (insert_by key r l) (r :: l).
Proof.
  induction l as [|a l IH]; cbn [insert_by]; [reflexivity|].
  destruct (key r <=? key a); [reflexivity|].
  rewrite IH. apply perm_swap.
Qed.

Lemma order_by_perm {R} (key : R -> Z) l : Permutation (order_by key l) l.
Proof.
  induction l as [|a l IH]; cbn [order_by]; [reflexivity|].
  rewrite insert_by_perm. now constructor.
Qed.

Lemma order_by_In {R} (key : R -> Z) l x : In x (order_by key l) <-> In x l.
Proof.
  split; apply Permutation_in;
    [apply order_by_perm | symmetry; apply order_by_perm].
Qed.

Lemma insert_by_sorted {R} (key : R -> Z) r l :
  sorted_by key l -> sorted_by key (insert_by key r l).
Proof.
  unfold sorted_by. induction l as [|a l IH]; intros Hs; cbn [insert_by].
  - repeat constructor.
  - inversion Hs as [|? ? Hl Ha]; subst.
    destruct (Z.leb_spec (key r) (key a)) as [Hle|Hgt].
    + constructor; [exact Hs|]. constructor; [exact Hle|].
      eapply Forall_impl; [|exact Ha]. cbn. intros; lia.
    + constructor; [now apply IH|].
      apply Forall_forall. intros x Hx.
      apply (Permutation_in _ (insert_by_perm key r l)) in Hx.
      destruct Hx as [<- | Hx]; [lia|].
      exact (proj1 (Forall_forall _ _) Ha x Hx).
Qed.

Lemma order_by_sorted {R} (key : R -> Z) l : sorted_by key (order_by key l).
Proof.
  induction l as [|a l IH]; cbn [order_by]; [constructor|].
  now apply insert_by_sorted.
Qed.

(** A list already in order is returned as it is. *)
Lemma order_by_sorted_id {R} (key : R -> Z) l :
  sorted_by key l -> order_by key l = l.
Proof.
  unfold sorted_by. induction l as [|a l IH]; intros Hs; [reflexivity|].
  inversion Hs as [|? ? Hl Ha]; subst. cbn [order_by]. rewrite (IH Hl).
  destruct l as [|b l]; [reflexivity|]. cbn [insert_by].
  inversion Ha as [|? ? Hab _]; subst.
  destruct (Z.leb_spec (key a) (key b)); [reflexivity|lia].
Qed.

Lemma sorted_by_map {R} (key : R -> Z) l :
  sorted_by key l -> StronglySorted Z.le (map key l).
Proof.
  unfold sorted_by. induction 1 as [|a l Hl IH Ha]; cbn; constructor; auto.
  apply Forall_forall. intros k Hk. apply in_map_iff in Hk.
  destruct Hk as (x & <- & Hx). exact (proj1 (Forall_forall _ _) Ha x Hx).
Qed.

Lemma append_loop {A} (l : list A) : forall acc,
  fold_left (fun vals r => (vals ++ [r])%list) l acc = (acc ++ l)%list.
Proof.
  induction l as [|a l IH]; intros acc; cbn; [now rewrite app_nil_r|].
  now rewrite IH, <- app_assoc.
Qed.

(** ** getGameIdsByTournament *)

(** X1.  [getGameIdsByTournament] returns, in ascending order, the ids of
    the game rows whose tournament is the given one, one id per row, and
    nothing else. *)
Theorem getGameIdsByTournament_spec tournament s :
  StronglySorted Z.le (getGameIdsByTournament tournament s) /\
  Permutation
    (getGameIdsByTournament tournament s)
    (map game_id_of
         (filter (fun r => String.eqb (game_tournament r) tournament)
                 (game s))) /\
  (forall id,
      In id (getGameIdsByTournament tournament s) <->
      exists r, In r (game s) /\ game_tournament r = tournament /\
                game_id_of r = id).
Proof.
  unfold getGameIdsByTournament. cbv zeta. rewrite append_loop. cbn [app].
  split; [apply sorted_by_map, order_by_sorted|].
  split; [apply Permutation_map, order_by_perm|].
  intros id. rewrite in_map_iff. split.
  - intros (r & Hid & Hr). apply order_by_In, filter_In in Hr.
    destruct Hr as [Hr Ht]. apply String.eqb_eq in Ht. now exists r.
  - intros (r & Hr & Ht & Hid). exists r. split; [exact Hid|].
    apply order_by_In, filter_In. split; [exact Hr|].
    now apply String.eqb_eq.
Qed.

(** ** getMatchData *)

(** X2.  [getMatchData] returns a match exactly when a game row has the id;
    otherwise subscripting the missing row raises [TypeError]. *)
Theorem getMatchData_known_game gameId s :
  ((exists r, In r (game s) /\ game_id_of r = gameId) <->
   exists m, getMatchData gameId s = inr m) /\
  ((forall r, In r (game s) -> game_id_of r <> gameId) <->
   getMatchData gameId s = inl NotSubscriptable).
Proof.
  unfold getMatchData.
  destruct (find (fun r => game_id_of r =? gameId) (game s)) as [r|] eqn:E.
  - apply find_some in E. destruct E as [Hr Hid]. apply Z.eqb_eq in Hid.
    split; split.
    + intros _. now eexists.
    + intros _. now exists r.
    + intros H. now apply H in Hr.
    + discriminate.
  - pose proof (find_none _ _ E) as Hn. split; split.
    + intros (r & Hr & Hid). apply Hn in Hr. apply Z.eqb_neq in Hr.
      contradiction.
    + intros [m Hm]. discriminate.
    + reflexivity.
    + intros _ r Hr. apply Hn in Hr. now apply Z.eqb_neq in Hr.
Qed.

Lemma select_bans_spec gameId side s :
  sorted_by snd (select_bans gameId side s) /\
  forall c k,
    In (c, k) (select_bans gameId side s) <->
    exists r, In r (ban s) /\ ban_game_id r = gameId /\
              ban_side_id r = side /\ ban_champion_id r = c /\
              ban_selection_order r = k.
Proof.
  unfold select_bans. split.
  - pose proof (order_by_sorted ban_selection_order
                  (filter (ban_of gameId side) (ban s))) as H.
    unfold sorted_by in *.
    induction H as [|a l Hl IH Ha]; cbn; constructor; auto.
    apply Forall_forall. intros x Hx. apply in_map_iff in Hx.
    destruct Hx as (y & <- & Hy). cbn.
    exact (proj1 (Forall_forall _ _) Ha y Hy).
  - intros c k. rewrite in_map_iff. unfold ban_of. split.
    + intros (r & [= <- <-] & Hr). apply order_by_In, filter_In in Hr.
      destruct Hr as [Hr Hb]. apply andb_true_iff in Hb.
      destruct Hb as [Hg Hs]. apply Z.eqb_eq in Hg, Hs. now exists r.
    + intros (r & Hr & Hg & Hs & <- & <-). exists r. split; [reflexivity|].
      apply order_by_In, filter_In. split; [exact Hr|].
      apply andb_true_iff. split; now apply Z.eqb_eq.
Qed.

Lemma select_picks_spec gameId side s :
  sorted_by snd (select_picks gameId side s) /\
  forall c p k,
    In (c, p, k) (select_picks gameId side s) <->
    exists r, In r (pick s) /\ pick_game_id r = gameId /\
              pick_side_id r = side /\ pick_champion_id r = c /\
              pick_position_id r = p /\ pick_selection_order r = k.
Proof.
  unfold select_picks. split.
  - pose proof (order_by_sorted pick_selection_order
                  (filter (pick_of gameId side) (pick s))) as H.
    unfold sorted_by in *.
    induction H as [|a l Hl IH Ha]; cbn; constructor; auto.
    apply Forall_forall. intros x Hx. apply in_map_iff in Hx.
    destruct Hx as (y & <- & Hy). cbn.
    exact (proj1 (Forall_forall _ _) Ha y Hy).
  - intros c p k. rewrite in_map_iff. unfold pick_of. split.
    + intros (r & [= <- <- <-] & Hr). apply order_by_In, filter_In in Hr.
      destruct Hr as [Hr Hb]. apply andb_true_iff in Hb.
      destruct Hb as [Hg Hs]. apply Z.eqb_eq in Hg, Hs. now exists r.
    + intros (r & Hr & Hg & Hs & <- & <- & <-). exists r.
      split; [reflexivity|].
      apply order_by_In, filter_In. split; [exact Hr|].
      apply andb_true_iff. split; now apply Z.eqb_eq.
Qed.

Lemma select_bans_perm gameId side s :
  Permutation (select_bans gameId side s)
              (map (fun r => (ban_champion_id r, ban_selection_order r))
                   (filter (ban_of gameId side) (ban s))).
Proof. unfold select_bans. apply Permutation_map, order_by_perm. Qed.

Lemma select_picks_perm gameId side s :
  Permutation (select_picks gameId side s)
              (map (fun r => (pick_champion_id r, pick_position_id r,
                              pick_selection_order r))
                   (filter (pick_of gameId side) (pick s))).
Proof. unfold select_picks. apply Permutation_map, order_by_perm. Qed.

(** X3.  In the match that [getMatchData] returns, the bans and the picks of
    a side are in the order of their selection orders and are, one tuple for
    each row and nothing else, those of the rows of the ban and of the pick
    table that carry the id of the game and the number of the side (0 for
    blue, 1 for red); the winner is that of a game row with the id. *)
Theorem getMatchData_sides gameId s m :
  getMatchData gameId s = inr m ->
  (exists r, In r (game s) /\ game_id_of r = gameId /\
             match_winner m = game_winning_team r) /\
  (forall side sd,
      (side = 0 /\ sd = match_blue m) \/ (side = 1 /\ sd = match_red m) ->
      sorted_by snd (side_bans sd) /\ sorted_by snd (side_picks sd) /\
      (forall c k,
          In (c, k) (side_bans sd) <->
          exists r, In r (ban s) /\ ban_game_id r = gameId /\
                    ban_side_id r = side /\ ban_champion_id r = c /\
                    ban_selection_order r = k) /\
      (forall c p k,
          In (c, p, k) (side_picks sd) <->
          exists r, In r (pick s) /\ pick_game_id r = gameId /\
                    pick_side_id r = side /\ pick_champion_id r = c /\
                    pick_position_id r = p /\ pick_selection_order r = k) /\
      Permutation
        (side_bans sd)
        (map (fun r => (ban_champion_id r, ban_selection_order r))
             (filter (fun r => (ban_game_id r =? gameId)
                               && (ban_side_id r =? side))%bool
                     (ban s))) /\
      Permutation
        (side_picks sd)
        (map (fun r => (pick_champion_id r, pick_position_id r,
                        pick_selection_order r))
             (filter (fun r => (pick_game_id r =? gameId)
                               && (pick_side_id r =? side))%bool
                     (pick s)))).
Proof.
  unfold getMatchData.
  destruct (find (fun r => game_id_of r =? gameId) (game s)) as [r|] eqn:E;
    [|discriminate].
  intros [= <-]. apply find_some in E. destruct E as [Hr Hid].
  apply Z.eqb_eq in Hid. split; [now exists r|].
  intros side sd [[-> ->] | [-> ->]]; cbn [match_blue match_red side_bans
                                           side_picks];
    (split; [apply select_bans_spec|]);
    (split; [apply select_picks_spec|]);
    (split; [apply select_bans_spec|]);
    (split; [apply select_picks_spec|]);
    (split; [apply select_bans_perm|apply select_picks_perm]).
Qed.

(** ** Batches *)

Lemma batch_app {A B} (body : A -> M unit) (v : B) l1 l2 s :
  bind (for_each (l1 ++ l2) body) (fun _ => ret v) s =
  and_then (bind (for_each l1 body) (fun _ => ret v) s)
           (bind (for_each l2 body) (fun _ => ret v)).
Proof.
  revert s. induction l1 as [|a l1 IH]; intros s; [reflexivity|].
  cbn [app for_each]. unfold bind.
  destruct (body a s) as [u s1| |]; try reflexivity.
  exact (IH s1).
Qed.

Lemma insertGame_app fuel l1 l2 s :
  insertGame fuel (l1 ++ l2) s =
  and_then (insertGame fuel l1 s) (insertGame fuel l2).
Proof. apply batch_app. Qed.

Lemma insertTeam_app l1 l2 s :
  insertTeam (l1 ++ l2) s = and_then (insertTeam l1 s) (insertTeam l2).
Proof. apply batch_app. Qed.

Lemma insertBan_app cin cal fuel l1 l2 s :
  insertBan cin cal fuel (l1 ++ l2) s =
  and_then (insertBan cin cal fuel l1 s) (insertBan cin cal fuel l2).
Proof. apply batch_app. Qed.

Lemma insertPick_app cin cal fuel l1 l2 s :
  insertPick cin cal fuel (l1 ++ l2) s =
  and_then (insertPick cin cal fuel l1 s) (insertPick cin cal fuel l2).
Proof. apply batch_app. Qed.

(** X4.  A writer run on a list of records is the writer run on the records
    one after the other; the first record that raises ends the batch: the
    records after it are not looked at, and what the records before it wrote
    stays written.  For [insertGame] this is what a record that cannot be
    normalized does. *)
Theorem writers_batch cin cal fuel l1 l2 s :
  insertTeam (l1 ++ l2) s = and_then (insertTeam l1 s) (insertTeam l2) /\
  insertGame fuel (l1 ++ l2) s =
  and_then (insertGame fuel l1 s) (insertGame fuel l2) /\
  insertBan cin cal fuel (l1 ++ l2) s =
  and_then (insertBan cin cal fuel l1 s) (insertBan cin cal fuel l2) /\
  insertPick cin cal fuel (l1 ++ l2) s =
  and_then (insertPick cin cal fuel l1 s) (insertPick cin cal fuel l2) /\
  (forall g e st s1,
      insertGame fuel l1 s = Ok st s1 -> getTournamentData g = inl e ->
      insertGame fuel (l1 ++ g :: l2) s = Raise e s1).
Proof.
  split; [apply insertTeam_app|]. split; [apply insertGame_app|].
  split; [apply insertBan_app|]. split; [apply insertPick_app|].
  intros g e st s1 H1 Hg.
  rewrite insertGame_app, H1. cbn [and_then].
  change (g :: l2) with ([g] ++ l2)%list.
  now rewrite insertGame_app, insertGame_one, Hg.
Qed.

Lemma writers_batch_witness :
  insertGame 2 [eu_summer] empty_store = Ok 1 eu_summer_store /\
  getTournamentData oceania = inl (KeyError "Oceania") /\
  insertGame 2 ([eu_summer] ++ oceania :: [eu_game4]) empty_store =
  Raise (KeyError "Oceania") eu_summer_store.
Proof.
  assert (H1 : insertGame 2 [eu_summer] empty_store = Ok 1 eu_summer_store)
    by reflexivity.
  assert (H2 : getTournamentData oceania = inl (KeyError "Oceania"))
    by reflexivity.
  split; [exact H1|]. split; [exact H2|].
  destruct (writers_batch sample_id sample_alias 2 [eu_summer] [eu_game4]
              empty_store) as (_ & _ & _ & _ & H).
  exact (H oceania _ _ _ H1 H2).
Defined.

(** ** What a writer leaves alone *)

Lemma grows_refl s : grows s s.
Proof. repeat split; exists []; now rewrite app_nil_r. Qed.

Lemma grows_trans a b c : grows a b -> grows b c -> grows a c.
Proof.
  intros ([g1 G1] & [t1 T1] & [b1 B1] & [p1 P1])
         ([g2 G2] & [t2 T2] & [b2 B2] & [p2 P2]).
  repeat split;
    [exists (g1 ++ g2)%list; rewrite G2, G1
    |exists (t1 ++ t2)%list; rewrite T2, T1
    |exists (b1 ++ b2)%list; rewrite B2, B1
    |exists (p1 ++ p2)%list; rewrite P2, P1];
    now rewrite app_assoc.
Qed.

Lemma grows_say s line : grows s (say line s).
Proof. repeat split; exists []; cbn; now rewrite app_nil_r. Qed.

Lemma grows_add_team s vals : grows s (Sql.add_team vals s).
Proof.
  repeat split; cbn; try (exists []; now rewrite app_nil_r). now eexists.
Qed.

Lemma grows_add_game s vals : grows s (Sql.add_game vals s).
Proof.
  destruct vals as [[[[t tgid] b] r] w].
  repeat split; cbn; try (exists []; now rewrite app_nil_r). now eexists.
Qed.

Lemma grows_add_ban s vals : grows s (Sql.add_ban vals s).
Proof.
  repeat split; cbn; try (exists []; now rewrite app_nil_r). now eexists.
Qed.

Lemma grows_add_pick s vals : grows s (Sql.add_pick vals s).
Proof.
  repeat split; cbn; try (exists []; now rewrite app_nil_r). now eexists.
Qed.

(** X5.  No call of a writer changes or removes a row: after any sequence
    of calls, returned or ended by an exception, each of the four tables is
    the table before with rows added at its end. *)
Theorem tables_append_only s s' : steps s s' -> grows s s'.
Proof.
  apply steps_keep;
    auto using grows_refl, grows_say, grows_add_game, grows_add_ban,
      grows_add_pick.
  - apply grows_trans.
  - intros; apply grows_add_team.
Qed.

Lemma tables_append_only_witness :
  steps empty_store eu_summer_store /\ grows empty_store eu_summer_store.
Proof.
  assert (H : steps empty_store eu_summer_store).
  { apply (insertGame_step 2 [eu_summer] empty_store 1). reflexivity. }
  split; [exact H|]. exact (tables_append_only _ _ H).
Defined.

Lemma only_game_team_refl s : only_game_team s s.
Proof. now split. Qed.

Lemma only_game_team_trans a b c :
  only_game_team a b -> only_game_team b c -> only_game_team a c.
Proof. unfold only_game_team. intros (-> & ->) (-> & ->). auto. Qed.

Lemma only_ban_refl s : only_ban s s.
Proof. now repeat split. Qed.

Lemma only_ban_trans a b c : only_ban a b -> only_ban b c -> only_ban a c.
Proof. unfold only_ban. intros (-> & -> & ->) (-> & -> & ->). auto. Qed.

Lemma only_pick_refl s : only_pick s s.
Proof. now repeat split. Qed.

Lemma only_pick_trans a b c : only_pick a b -> only_pick b c -> only_pick a c.
Proof. unfold only_pick. intros (-> & -> & ->) (-> & -> & ->). auto. Qed.

Lemma only_text_refl s : only_text s s.
Proof. reflexivity. Qed.

Lemma only_text_trans a b c : only_text a b -> only_text b c -> only_text a c.
Proof. unfold only_text. congruence. Qed.

(** X6.  Whatever the records and however the call ends, [insertTeam]
    touches no table but the team table, [insertGame] none but the game and
    the team table, [insertBan] none but the ban table, [insertPick] none but
    the pick table, and [getGameId] none at all. *)
Theorem writers_frames cin cal fuel gs g s :
  after (insertTeam gs s) (only_team s) /\
  after (insertGame fuel gs s) (only_game_team s) /\
  after (insertBan cin cal fuel gs s) (only_ban s) /\
  after (insertPick cin cal fuel gs s) (only_pick s) /\
  after (getGameId fuel g s) (only_text s).
Proof.
  split; [|split; [|split; [|split]]].
  - apply keeps_insertTeam;
      [apply only_team_refl | apply only_team_trans
      | intros; apply only_team_add].
  - apply keeps_insertGame;
      [apply only_game_team_refl | apply only_game_team_trans
      | intros; now split | intros; now split
      | intros ? [[[[? ?] ?] ?] ?]; now split].
  - apply keeps_insertBan;
      [apply only_ban_refl | apply only_ban_trans
      | intros; now repeat split | intros; now repeat split].
  - apply keeps_insertPick;
      [apply only_pick_refl | apply only_pick_trans
      | intros; now repeat split | intros; now repeat split].
  - apply keeps_getGameId;
      [apply only_text_refl | apply only_text_trans | intros; reflexivity].
Qed.

(** ** What every run keeps, with the tests that guard the inserts *)

Lemma after_mono {A} (o : Outcome A) (P Q : Store -> Prop) :
  (forall s, P s -> Q s) -> after o P -> after o Q.
Proof. destruct o; cbn; auto. Qed.

Lemma game_id_where_has vals s gid :
  Sql.game_id_where vals (game s) = Some gid -> has_game s gid.
Proof.
  unfold Sql.game_id_where. intros H.
  destruct (find (Sql.game_matches vals) (game s)) as [g|] eqn:E;
    [|discriminate].
  injection H as <-. apply find_some in E. exists g. now split.
Qed.

Lemma team_id_where_has name s id :
  Sql.team_id_where name (team s) = Some id -> has_team s id.
Proof.
  unfold Sql.team_id_where. intros H.
  destruct (find (Sql.team_matches name) (team s)) as [t|] eqn:E;
    [|discriminate].
  injection H as <-. apply find_some in E. exists t. now split.
Qed.

Section Guarded.

Variable R : Store -> Store -> Prop.
Hypothesis R_refl : forall s, R s s.
Hypothesis R_trans : forall a b c, R a b -> R b c -> R a c.
Hypothesis R_say : forall s line, R s (say line s).

Hypothesis R_add_team :
  forall s vals,
    find (Sql.team_matches (snd vals)) (team s) = None ->
    R s (Sql.add_team vals s).

(** A game is inserted after its key was looked up in vain and both team
    ids were found. *)
Hypothesis R_add_game :
  forall s t tgid b r w,
    Sql.game_id_where (t, tgid) (game s) = None ->
    has_team s b -> has_team s r ->
    R s (Sql.add_game (t, tgid, b, r, w) s).

(** A ban or a pick is inserted with the id of a game that was found. *)
Hypothesis R_add_ban :
  forall s gid c k side,
    has_game s gid -> R s (Sql.add_ban (gid, c, k, side) s).

Hypothesis R_add_pick :
  forall s gid c p k side,
    has_game s gid -> R s (Sql.add_pick (gid, c, p, k, side) s).

Lemma after_R_trans {A} (o : Outcome A) s s1 :
  R s s1 -> after o (R s1) -> after o (R s).
Proof. intros H. apply after_mono. intros s2. now apply R_trans. Qed.

Lemma guarded_insertGame_one fuel g : keeps R (insertGame fuel [g]).
Proof.
  intros s. rewrite insertGame_one.
  destruct (getTournamentData g) as [e|t]; [apply R_refl|].
  destruct (Sql.game_id_where (t, tourn_game_id g) (game s)) eqn:Hg;
    [apply R_say|].
  pose proof (keeps_team_ids R R_refl R_trans R_say R_add_team fuel g s)
    as K.
  pose proof (team_ids_only_team fuel g s) as F.
  destruct (team_ids fuel g s) as [ids s1|e s1|] eqn:Hids; cbn in *;
    [|exact K|exact I].
  destruct F as (Fg & _).
  destruct (team_ids_Ok _ _ _ _ _ Hids) as [Hb Hr].
  apply (R_trans _ _ _ K). apply R_add_game.
  - now rewrite Fg.
  - exact (team_id_where_has _ _ _ Hb).
  - exact (team_id_where_has _ _ _ Hr).
Qed.

Lemma guarded_insertGame fuel gs : keeps R (insertGame fuel gs).
Proof.
  induction gs as [|g gs IH]; intros s; [apply R_refl|].
  change (g :: gs) with ([g] ++ gs)%list. rewrite insertGame_app.
  pose proof (guarded_insertGame_one fuel g s) as K.
  destruct (insertGame fuel [g] s) as [st s1|e s1|]; cbn in *;
    [|exact K|exact I].
  exact (after_R_trans _ _ _ K (IH s1)).
Qed.

Lemma guarded_ban_loop cin cal gid side bans : forall k s,
  has_game s gid ->
  after (for_acc bans k (ban_entry cin cal gid side) s) (R s).
Proof.
  induction bans as [|name bans IH]; intros k s Hg; [apply R_refl|].
  cbn [for_acc]. unfold bind. rewrite ban_entry_resolve.
  destruct (resolve cin cal name) as [e|id]; [apply R_refl|].
  apply after_R_trans with
    (s1 := Sql.add_ban (gid, id, k + 1, side) s).
  - now apply R_add_ban.
  - apply IH. exact Hg.
Qed.

Lemma guarded_pick_loop cin cal gid side picks : forall k s,
  has_game s gid ->
  after (for_acc picks k (pick_entry cin cal gid side) s) (R s).
Proof.
  induction picks as [|[name position] picks IH]; intros k s Hg;
    [apply R_refl|].
  cbn [for_acc]. unfold bind. rewrite pick_entry_resolve.
  destruct (resolve cin cal name) as [e|id]; [apply R_refl|].
  apply after_R_trans with
    (s1 := Sql.add_pick (gid, id, position, k + 1, side) s).
  - now apply R_add_pick.
  - apply IH. exact Hg.
Qed.

Lemma guarded_insertBan_one cin cal fuel g :
  keeps R (insertBan cin cal fuel [g]).
Proof.
  intros s. rewrite insertBan_one.
  destruct (getTournamentData g) as [e|t0]; [apply R_refl|].
  pose proof (keeps_getGameId R R_refl R_trans R_say fuel g s) as K.
  destruct (getGameId fuel g s) as [gid s0|e s0|] eqn:Hgid; cbn in K;
    [|exact K|exact I].
  destruct (getGameId_Ok _ _ _ _ _ Hgid) as (-> & t & fuel' & _ & _ & Hg).
  apply game_id_where_has in Hg.
  destruct (Sql.ban_where gid (ban s)); [apply R_say|].
  pose proof (guarded_ban_loop cin cal gid 0 (bans_blue g) 0 s Hg) as Kb.
  pose proof (keeps_for_acc only_ban only_ban_refl only_ban_trans
                (bans_blue g) 0 (ban_entry cin cal gid 0)) as Fb.
  specialize (Fb (fun a x =>
                    keeps_ban_entry only_ban only_ban_refl only_ban_trans
                      (fun s vals => conj eq_refl (conj eq_refl eq_refl))
                      cin cal gid 0 a x) s).
  destruct (for_acc (bans_blue g) 0 (ban_entry cin cal gid 0) s)
    as [k1 s1|e s1|]; cbn in *; [|exact Kb|exact I].
  assert (Hg1 : has_game s1 gid).
  { destruct Hg as (row & Hrow & Hid). destruct Fb as (Fg & _).
    exists row. now rewrite Fg. }
  pose proof (guarded_ban_loop cin cal gid 1 (bans_red g) 0 s1 Hg1) as Kr.
  destruct (for_acc (bans_red g) 0 (ban_entry cin cal gid 1) s1)
    as [k2 s2|e s2|]; cbn in *; [| |exact I];
    exact (R_trans _ _ _ Kb Kr).
Qed.

Lemma guarded_insertPick_one cin cal fuel g :
  keeps R (insertPick cin cal fuel [g]).
Proof.
  intros s. rewrite insertPick_one.
  destruct (getTournamentData g) as [e|t0]; [apply R_refl|].
  pose proof (keeps_getGameId R R_refl R_trans R_say fuel g s) as K.
  destruct (getGameId fuel g s) as [gid s0|e s0|] eqn:Hgid; cbn in K;
    [|exact K|exact I].
  destruct (getGameId_Ok _ _ _ _ _ Hgid) as (-> & t & fuel' & _ & _ & Hg).
  apply game_id_where_has in Hg.
  destruct (Sql.pick_where gid (pick s)); [apply R_say|].
  pose proof (guarded_pick_loop cin cal gid 0 (picks_blue g) 0 s Hg) as Kb.
  pose proof (keeps_for_acc only_pick only_pick_refl only_pick_trans
                (picks_blue g) 0 (pick_entry cin cal gid 0)) as Fb.
  specialize (Fb (fun a x =>
                    keeps_pick_entry only_pick only_pick_refl only_pick_trans
                      (fun s vals => conj eq_refl (conj eq_refl eq_refl))
                      cin cal gid 0 a x) s).
  destruct (for_acc (picks_blue g) 0 (pick_entry cin cal gid 0) s)
    as [k1 s1|e s1|]; cbn in *; [|exact Kb|exact I].
  assert (Hg1 : has_game s1 gid).
  { destruct Hg as (row & Hrow & Hid). destruct Fb as (Fg & _).
    exists row. now rewrite Fg. }
  pose proof (guarded_pick_loop cin cal gid 1 (picks_red g) 0 s1 Hg1) as Kr.
  destruct (for_acc (picks_red g) 0 (pick_entry cin cal gid 1) s1)
    as [k2 s2|e s2|]; cbn in *; [| |exact I];
    exact (R_trans _ _ _ Kb Kr).
Qed.

Lemma guarded_insertBan cin cal fuel gs :
  keeps R (insertBan cin cal fuel gs).
Proof.
  induction gs as [|g gs IH]; intros s; [apply R_refl|].
  change (g :: gs) with ([g] ++ gs)%list. rewrite insertBan_app.
  pose proof (guarded_insertBan_one cin cal fuel g s) as K.
  destruct (insertBan cin cal fuel [g] s) as [st s1|e s1|]; cbn in *;
    [|exact K|exact I].
  exact (after_R_trans _ _ _ K (IH s1)).
Qed.

Lemma guarded_insertPick cin cal fuel gs :
  keeps R (insertPick cin cal fuel gs).
Proof.
  induction gs as [|g gs IH]; intros s; [apply R_refl|].
  change (g :: gs) with ([g] ++ gs)%list. rewrite insertPick_app.
  pose proof (guarded_insertPick_one cin cal fuel g s) as K.
  destruct (insertPick cin cal fuel [g] s) as [st s1|e s1|]; cbn in *;
    [|exact K|exact I].
  exact (after_R_trans _ _ _ K (IH s1)).
Qed.

Lemma guarded_step s s' : step s s' -> R s s'.
Proof.
  intros [gs s0 s1 H N|fuel gs s0 s1 H N|cin cal fuel gs s0 s1 H N
         |cin cal fuel gs s0 s1 H N].
  - pose proof (keeps_insertTeam R R_refl R_trans R_add_team gs s0) as K.
    destruct (insertTeam gs s0); cbn in *; subst; auto; congruence.
  - pose proof (guarded_insertGame fuel gs s0) as K.
    destruct (insertGame fuel gs s0); cbn in *; subst; auto; congruence.
  - pose proof (guarded_insertBan cin cal fuel gs s0) as K.
    destruct (insertBan cin cal fuel gs s0); cbn in *; subst; auto;
      congruence.
  - pose proof (guarded_insertPick cin cal fuel gs s0) as K.
    destruct (insertPick cin cal fuel gs s0); cbn in *; subst; auto;
      congruence.
Qed.

Lemma guarded_steps s s' : steps s s' -> R s s'.
Proof.
  induction 1 as [|s s1 s2 H _ IH]; [apply R_refl|].
  eapply R_trans; [apply guarded_step; eassumption | exact IH].
Qed.

End Guarded.

(** ** Keys and references in the stores that can be reached *)

Lemma game_matches_key vals r :
  Sql.game_matches vals r = true <-> game_key r = vals.
Proof.
  unfold Sql.game_matches, game_key. destruct vals as [t tgid]. cbn.
  rewrite andb_true_iff, String.eqb_eq, Z.eqb_eq. split.
  - now intros [-> ->].
  - now intros [= -> ->].
Qed.

Lemma key_not_in_table t tgid rows :
  Sql.game_id_where (t, tgid) rows = None ->
  ~ In (t, tgid) (map game_key rows).
Proof.
  unfold Sql.game_id_where. intros H Hin.
  destruct (find (Sql.game_matches (t, tgid)) rows) eqn:E; [discriminate|].
  apply in_map_iff in Hin. destruct Hin as (r & Hk & Hr).
  pose proof (find_none _ _ E r Hr) as Hf.
  apply game_matches_key in Hk. congruence.
Qed.

Lemma unique_key_rows vals rows :
  NoDup (map game_key rows) ->
  (length (filter (Sql.game_matches vals) rows) <= 1)%nat.
Proof.
  induction rows as [|r rows IH]; intros Hu; [cbn; lia|].
  cbn [map] in Hu. inversion Hu as [|? ? Hr Hu']; subst. cbn [filter].
  destruct (Sql.game_matches vals r) eqn:E; [|now apply IH].
  apply game_matches_key in E.
  assert (Hnone : filter (Sql.game_matches vals) rows = []).
  { clear IH Hu Hu'. induction rows as [|a rows IH]; [reflexivity|].
    cbn [filter]. destruct (Sql.game_matches vals a) eqn:Ea.
    - exfalso. apply Hr. apply game_matches_key in Ea.
      cbn. left. congruence.
    - apply IH. intros Hin. apply Hr. now right. }
  rewrite Hnone. cbn. lia.
Qed.

Lemma has_team_app s s' id :
  (exists rows, team s' = (team s ++ rows)%list) ->
  has_team s id -> has_team s' id.
Proof.
  intros [rows E] (t & Ht & Hid). exists t. rewrite E.
  split; [apply in_or_app; now left|exact Hid].
Qed.

Lemma has_game_app s s' id :
  (exists rows, game s' = (game s ++ rows)%list) ->
  has_game s id -> has_game s' id.
Proof.
  intros [rows E] (g & Hg & Hid). exists g. rewrite E.
  split; [apply in_or_app; now left|exact Hid].
Qed.

Lemma stays_consistent_refl s : stays_consistent s s.
Proof. now intros H. Qed.

Lemma stays_consistent_trans a b c :
  stays_consistent a b -> stays_consistent b c -> stays_consistent a c.
Proof. unfold stays_consistent. auto. Qed.

Lemma stays_consistent_say s line : stays_consistent s (say line s).
Proof. now intros H. Qed.

Lemma stays_consistent_add_team s vals :
  stays_consistent s (Sql.add_team vals s).
Proof.
  intros (Hu & Hg & Hb & Hp). split; [exact Hu|].
  assert (Ht : exists rows,
             team (Sql.add_team vals s) = (team s ++ rows)%list)
    by now eexists.
  split; [|split].
  - intros r Hr. destruct (Hg r Hr) as [H1 H2].
    split; eapply has_team_app; eauto.
  - exact Hb.
  - exact Hp.
Qed.

Lemma stays_consistent_add_game s t tgid b r w :
  Sql.game_id_where (t, tgid) (game s) = None ->
  has_team s b -> has_team s r ->
  stays_consistent s (Sql.add_game (t, tgid, b, r, w) s).
Proof.
  intros Hnew Hb Hr (Hu & Hg & Hban & Hpick).
  assert (Hgrow : exists rows,
             game (Sql.add_game (t, tgid, b, r, w) s) =
             (game s ++ rows)%list) by now eexists.
  split; [|split; [|split]].
  - unfold game_keys_unique. cbn [Sql.add_game game]. rewrite map_app.
    apply NoDup_app; [exact Hu|repeat constructor; auto|].
    intros k Hk [<- | []]. exact (key_not_in_table _ _ _ Hnew Hk).
  - cbn [Sql.add_game game]. intros x Hx. apply in_app_or in Hx.
    destruct Hx as [Hx | [<- | []]]; [exact (Hg x Hx)|]. now split.
  - intros x Hx. eapply has_game_app; [exact Hgrow|exact (Hban x Hx)].
  - intros x Hx. eapply has_game_app; [exact Hgrow|exact (Hpick x Hx)].
Qed.

Lemma stays_consistent_add_ban s gid c k side :
  has_game s gid -> stays_consistent s (Sql.add_ban (gid, c, k, side) s).
Proof.
  intros Hgid (Hu & Hg & Hban & Hpick).
  split; [exact Hu|]. split; [exact Hg|]. split; [|exact Hpick].
  cbn [Sql.add_ban ban]. intros x Hx. apply in_app_or in Hx.
  destruct Hx as [Hx | [<- | []]]; [exact (Hban x Hx)|exact Hgid].
Qed.

Lemma stays_consistent_add_pick s gid c p k side :
  has_game s gid -> stays_consistent s (Sql.add_pick (gid, c, p, k, side) s).
Proof.
  intros Hgid (Hu & Hg & Hban & Hpick).
  split; [exact Hu|]. split; [exact Hg|]. split; [exact Hban|].
  cbn [Sql.add_pick pick]. intros x Hx. apply in_app_or in Hx.
  destruct Hx as [Hx | [<- | []]]; [exact (Hpick x Hx)|exact Hgid].
Qed.

Lemma reachable_consistent s : reachable s -> consistent s.
Proof.
  intros H.
  apply (guarded_steps stays_consistent stays_consistent_refl
           stays_consistent_trans stays_consistent_say
           (fun s vals _ => stays_consistent_add_team s vals)
           stays_consistent_add_game stays_consistent_add_ban
           stays_consistent_add_pick empty_store s H).
  split; [constructor|]. now repeat split.
Qed.

(** X7.  In every store reached from the empty one by calls of the four
    writers, no two game rows have the same tournament and game number: a
    lookup by that pair matches at most one row. *)
Theorem game_key_unique s :
  reachable s ->
  game_keys_unique s /\
  forall vals, (length (filter (Sql.game_matches vals) (game s)) <= 1)%nat.
Proof.
  intros H. destruct (reachable_consistent s H) as [Hu _].
  split; [exact Hu|]. intros vals. now apply unique_key_rows.
Qed.

Lemma two_games_reachable : reachable eu_two_games_store.
Proof.
  apply (insertGame_step 2 [eu_summer; eu_game4] empty_store 1).
  reflexivity.
Qed.

Lemma game_key_unique_witness :
  reachable eu_two_games_store /\ game_keys_unique eu_two_games_store.
Proof.
  split; [exact two_games_reachable|].
  exact (proj1 (game_key_unique _ two_games_reachable)).
Defined.

(** X8.  In every such store the references hold: the blue and the red team
    id of a game row are ids of team rows, and the game id of a ban row and
    of a pick row is the id of a game row. *)
Theorem references_valid s : reachable s -> references_hold s.
Proof. intros H. exact (proj2 (reachable_consistent s H)). Qed.

Lemma references_valid_witness :
  reachable eu_two_games_store /\ references_hold eu_two_games_store.
Proof.
  split; [exact two_games_reachable|].
  exact (references_valid _ two_games_reachable).
Defined.

(** ** The rows of insertPick *)

Lemma pick_rows_nth cin cal gid side l : forall k i,
  nth_error (pick_rows cin cal gid side k l) i =
  option_map (fun pp => mkPickRow gid (resolved (resolve cin cal (fst pp)))
                                  (snd pp) (k + Z.of_nat i + 1) side)
             (nth_error l i).
Proof.
  unfold pick_rows.
  induction l as [|a l IH]; intros k i; [now destruct i|].
  rewrite numbered_from_cons. destruct i as [|i]; cbn [map nth_error].
  - cbn. do 2 f_equal. lia.
  - rewrite IH. destruct (nth_error l i); cbn; [|reflexivity].
    do 2 f_equal. lia.
Qed.

Lemma pick_rows_orders cin cal gid side l : forall k,
  map pick_selection_order (pick_rows cin cal gid side k l) =
  map (fun i => k + Z.of_nat i) (seq 1 (length l)).
Proof.
  unfold pick_rows.
  induction l as [|a l IH]; intros k; [reflexivity|].
  rewrite numbered_from_cons. cbn [map length seq fst pick_selection_order].
  rewrite IH. f_equal.
  rewrite <- (seq_shift (length l) 1), map_map.
  apply map_ext. intros i. lia.
Qed.

Lemma pick_rows_side cin cal gid side k l :
  Forall (fun r => pick_game_id r = gid /\ pick_side_id r = side)
         (pick_rows cin cal gid side k l).
Proof.
  unfold pick_rows. apply Forall_forall. intros r Hr.
  apply in_map_iff in Hr. destruct Hr as (kb & <- & _). now split.
Qed.

(** X9.  For a game that is in the game table and has no pick row yet, and
    whose entries all resolve without an exception, [insertPick] returns 1
    and appends one row per entry, blue side (0) first and then red side (1),
    each in the order of the record: the selection orders of a side are
    1, 2, 3, ..., the position of an entry is stored as given, and the
    entries "none" count and get a null champion. *)
Theorem insertPick_selection_order cin cal fuel g s t gid :
  getTournamentData g = inr t ->
  Sql.game_id_where (t, tourn_game_id g) (game s) = Some gid ->
  Sql.pick_where gid (pick s) = None ->
  all_resolve cin cal (map fst (picks_blue g)) ->
  all_resolve cin cal (map fst (picks_red g)) ->
  insertPick cin cal (S fuel) [g] s =
  Ok 1 (with_picks (pick_rows cin cal gid 0 0 (picks_blue g) ++
                    pick_rows cin cal gid 1 0 (picks_red g)) s) /\
  (forall side l,
      map pick_selection_order (pick_rows cin cal gid side 0 l) =
      map Z.of_nat (seq 1 (length l)) /\
      Forall (fun r => pick_game_id r = gid /\ pick_side_id r = side)
             (pick_rows cin cal gid side 0 l) /\
      forall i name position,
        nth_error l i = Some (name, position) ->
        nth_error (pick_rows cin cal gid side 0 l) i =
        Some (mkPickRow gid
                        (if String.eqb name "none" then None
                         else resolved (resolve cin cal name))
                        position (Z.of_nat i + 1) side)).
Proof.
  intros Ht Hg Hb Hblue Hred. split.
  - now apply insertPick_writes with (t := t).
  - intros side l. split; [|split].
    + rewrite pick_rows_orders. apply map_ext. intros i. lia.
    + apply pick_rows_side.
    + intros i name position Hi. rewrite pick_rows_nth, Hi.
      cbn [option_map fst snd].
      destruct (String.eqb_spec name "none") as [-> |]; reflexivity.
Qed.

Lemma insertPick_selection_order_witness :
  getTournamentData eu_summer = inr "2017/Summer/EU" /\
  Sql.game_id_where ("2017/Summer/EU", 3) (game eu_summer_store) = Some 1 /\
  Sql.pick_where 1 (pick eu_summer_store) = None /\
  all_resolve sample_id sample_alias (map fst (picks_blue eu_summer)) /\
  all_resolve sample_id sample_alias (map fst (picks_red eu_summer)) /\
  insertPick sample_id sample_alias 1 [eu_summer] eu_summer_store =
  Ok 1 (with_picks [mkPickRow 1 (Some 7) 1 1 0; mkPickRow 1 None 2 2 0;
                    mkPickRow 1 (Some 8) 1 1 1]
                   eu_summer_store).
Proof.
  assert (Hblue : all_resolve sample_id sample_alias
                              (map fst (picks_blue eu_summer)))
    by (repeat constructor; eexists; reflexivity).
  assert (Hred : all_resolve sample_id sample_alias
                             (map fst (picks_red eu_summer)))
    by (repeat constructor; eexists; reflexivity).
  repeat (split; [first [reflexivity | assumption]|]).
  apply (proj1 (insertPick_selection_order sample_id sample_alias 0
                  eu_summer eu_summer_store "2017/Summer/EU" 1
                  eq_refl eq_refl eq_refl Hblue Hred)).
Defined.

(** ** A write that stops half way *)




(** ** insertTeam: what is stored for a team *)

Lemma find_ensure_same vals n s old :
  find (Sql.team_matches (Some n)) (team s) = Some old ->
  find (Sql.team_matches (Some n)) (team (ensure_team vals s)) = Some old.
Proof.
  intros H. destruct (ensure_team_grows vals s) as [new ->].
  now apply find_app_some.
Qed.

Lemma find_ensure_new reg nm n s :
  find (Sql.team_matches (Some n)) (team s) = None ->
  find (Sql.team_matches (Some n)) (team (ensure_team (reg, nm) s)) = None \/
  exists row,
    find (Sql.team_matches (Some n)) (team (ensure_team (reg, nm) s)) =
    Some row /\ team_region row = reg.
Proof.
  intros H. unfold ensure_team. cbn [snd].
  destruct (find (Sql.team_matches nm) (team s)); [now left|].
  cbn [Sql.add_team team fst snd]. rewrite find_app, H. cbn [find].
  destruct (Sql.team_matches (Some n) _); [right; now eexists|now left].
Qed.

Lemma find_ensure_named reg n s :
  exists row,
    find (Sql.team_matches (Some n)) (team (ensure_team (reg, Some n) s)) =
    Some row.
Proof.
  destruct (ensure_team_found reg n s) as [id H].
  unfold Sql.team_id_where in H.
  destruct (find (Sql.team_matches (Some n))
                 (team (ensure_team (reg, Some n) s))); [now eexists|].
  discriminate.
Qed.

Lemma ensure_team_present vals s r :
  find (Sql.team_matches (snd vals)) (team s) = Some r ->
  ensure_team vals s = s.
Proof. unfold ensure_team. now intros ->. Qed.

(** X11.  [insertTeam] on a record with a split and a region that is not in
    [regionsDict] raises [KeyError] before it touches the store.  Otherwise
    it returns 1 and each named team of the record is then found by its
    display name: a team that had a row keeps that row, with the region it
    had; a team that had none gets the region of this record, which is NULL
    for a record without split and the abbreviation of its region otherwise. *)
Theorem insertTeam_record g s :
  (forall sp,
      split g = Some sp -> lookup regionsDict (region g) = None ->
      insertTeam [g] s = Raise (KeyError (region g)) s) /\
  (forall reg,
      (split g = None /\ reg = None) \/
      (exists sp abbr,
          split g = Some sp /\ lookup regionsDict (region g) = Some abbr /\
          reg = Some abbr) ->
      exists s1,
        insertTeam [g] s = Ok 1 s1 /\
        forall sd n,
          team_name sd g = Some n ->
          exists row,
            find (Sql.team_matches (Some n)) (team s1) = Some row /\
            team_display_name row = Some n /\
            (find (Sql.team_matches (Some n)) (team s) = None ->
             team_region row = reg) /\
            (forall old,
                find (Sql.team_matches (Some n)) (team s) = Some old ->
                row = old)).
Proof.
  split.
  - intros sp Hsp Hl. rewrite insertTeam_one. unfold region_of, getitem.
    now rewrite Hsp, Hl.
  - intros reg Hreg.
    assert (Hr : region_of g = inr reg).
    { unfold region_of, getitem.
      destruct Hreg as [[-> ->] | (sp & abbr & -> & -> & ->)]; reflexivity. }
    rewrite insertTeam_one, Hr. eexists. split; [reflexivity|].
    intros sd n Hn.
    set (s0 := ensure_team (reg, blue_team g) s).
    assert (Hrow : exists row,
               find (Sql.team_matches (Some n))
                    (team (ensure_team (reg, red_team g) s0)) = Some row /\
               (find (Sql.team_matches (Some n)) (team s) = None ->
                team_region row = reg) /\
               (forall old,
                   find (Sql.team_matches (Some n)) (team s) = Some old ->
                   row = old)).
    { destruct (find (Sql.team_matches (Some n)) (team s)) as [old|] eqn:E.
      - exists old. split.
        + apply find_ensure_same. now apply find_ensure_same.
        + split; [discriminate|]. now intros ? [= ->].
      - assert (H0 : exists row,
                   find (Sql.team_matches (Some n))
                        (team (ensure_team (reg, red_team g) s0)) =
                   Some row /\ team_region row = reg).
        { destruct (find_ensure_new reg (blue_team g) n s E)
            as [H0 | (row & H0 & Hreg0)]; fold s0 in H0.
          - destruct (find_ensure_new reg (red_team g) n s0 H0)
              as [H1 | H1]; [|exact H1].
            exfalso. destruct sd; cbn in Hn.
            + destruct (find_ensure_named reg n s) as [row Hrow].
              unfold s0 in H0. rewrite Hn in H0. congruence.
            + destruct (find_ensure_named reg n s0) as [row Hrow].
              rewrite Hn in H1. congruence.
          - exists row. split; [now apply find_ensure_same|exact Hreg0]. }
        destruct H0 as (row & H0 & Hreg0). exists row.
        split; [exact H0|]. split; [auto|discriminate]. }
    destruct Hrow as (row & Hf & Hnew & Hold). exists row.
    split; [exact Hf|]. split; [|split; assumption].
    apply find_some in Hf. now apply team_matches_name.
Qed.

Lemma insertTeam_record_witness :
  split msi_g2 = None /\
  exists s1 row,
    insertTeam [msi_g2] eu_summer_store = Ok 1 s1 /\
    find (Sql.team_matches (Some "G2")) (team s1) = Some row /\
    row = mkTeamRow 1 (Some "EU") (Some "G2").
Proof.
  split; [reflexivity|].
  destruct (proj2 (insertTeam_record msi_g2 eu_summer_store) None
              (or_introl (conj eq_refl eq_refl))) as (s1 & H1 & Hrows).
  destruct (Hrows Red "G2" eq_refl) as (row & Hf & _ & _ & Hold).
  exists s1, row. split; [exact H1|]. split; [exact Hf|].
  exact (Hold _ eq_refl).
Defined.

(** X12.  A second [insertTeam] on a record whose two team names are present
    changes nothing and returns 1.  With a missing name (NULL) every call
    that returns has added a team row. *)
Theorem insertTeam_twice g s st s1 :
  insertTeam [g] s = Ok st s1 ->
  (forall b r, blue_team g = Some b -> red_team g = Some r ->
               insertTeam [g] s1 = Ok 1 s1) /\
  (blue_team g = None \/ red_team g = None ->
   (length (team s) < length (team s1))%nat).
Proof.
  rewrite insertTeam_one.
  destruct (region_of g) as [e|reg] eqn:Hreg; [discriminate|].
  intros [= <- <-]. set (s0 := ensure_team (reg, blue_team g) s). split.
  - intros b r Hb Hr. rewrite insertTeam_one, Hreg.
    destruct (find_ensure_named reg b s) as [rb Hfb].
    destruct (find_ensure_named reg r s0) as [rr Hfr].
    rewrite <- Hb in Hfb at 2. fold s0 in Hfb. rewrite <- Hr in Hfr at 2.
    set (s1 := ensure_team (reg, red_team g) s0) in *.
    assert (Hfb1 : find (Sql.team_matches (Some b)) (team s1) = Some rb)
      by now apply find_ensure_same.
    rewrite (ensure_team_present (reg, blue_team g) s1 rb)
      by (cbn [snd]; now rewrite Hb).
    now rewrite (ensure_team_present (reg, red_team g) s1 rr)
      by (cbn [snd]; now rewrite Hr).
  - assert (Hnull : forall vals x,
               snd vals = None ->
               length (team (ensure_team vals x)) = S (length (team x))).
    { intros vals x Hv. unfold ensure_team. rewrite Hv.
      assert (Hn : find (Sql.team_matches None) (team x) = None).
      { induction (team x) as [|a l IH]; [reflexivity|]. cbn.
        now rewrite team_matches_null. }
      rewrite Hn. cbn. rewrite length_app. cbn. lia. }
    assert (Hle : forall vals x,
               (length (team x) <= length (team (ensure_team vals x)))%nat).
    { intros vals x. destruct (ensure_team_grows vals x) as [new ->].
      rewrite length_app. lia. }
    intros [Hb | Hr].
    + pose proof (Hnull (reg, blue_team g) s Hb) as H1. fold s0 in H1.
      pose proof (Hle (reg, red_team g) s0). lia.
    + pose proof (Hnull (reg, red_team g) s0 Hr) as H1.
      pose proof (Hle (reg, blue_team g) s). fold s0 in H. lia.
Qed.

Lemma insertTeam_twice_witness :
  insertTeam [eu_game4] empty_store =
  Ok 1 (mkStore [] [mkTeamRow 1 (Some "EU") (Some "FNC");
                    mkTeamRow 2 (Some "EU") (Some "G2")] [] [] []) /\
  insertTeam [eu_game4]
    (mkStore [] [mkTeamRow 1 (Some "EU") (Some "FNC");
                 mkTeamRow 2 (Some "EU") (Some "G2")] [] [] []) =
  Ok 1 (mkStore [] [mkTeamRow 1 (Some "EU") (Some "FNC");
                    mkTeamRow 2 (Some "EU") (Some "G2")] [] [] []).
Proof.
  assert (H : insertTeam [eu_game4] empty_store =
              Ok 1 (mkStore [] [mkTeamRow 1 (Some "EU") (Some "FNC");
                                mkTeamRow 2 (Some "EU") (Some "G2")]
                            [] [] [])) by reflexivity.
  split; [exact H|].
  exact (proj1 (insertTeam_twice eu_game4 empty_store 1 _ H)
           "FNC" "G2" eq_refl eq_refl).
Defined.

(** ** Writing a game and reading it back *)

Lemma listed_iff tournament s id :
  In id (getGameIdsByTournament tournament s) <->
  exists r, In r (game s) /\ game_tournament r = tournament /\
            game_id_of r = id.
Proof.
  unfold getGameIdsByTournament. cbv zeta. rewrite append_loop. cbn [app].
  rewrite in_map_iff. split.
  - intros (r & Hid & Hr). apply order_by_In, filter_In in Hr.
    destruct Hr as [Hr Ht]. apply String.eqb_eq in Ht. now exists r.
  - intros (r & Hr & Ht & Hid). exists r. split; [exact Hid|].
    apply order_by_In, filter_In. split; [exact Hr|].
    now apply String.eqb_eq.
Qed.

Lemma insertGame_found fuel g s st s1 :
  insertGame fuel [g] s = Ok st s1 ->
  exists t gid,
    getTournamentData g = inr t /\
    Sql.game_id_where (t, tourn_game_id g) (game s1) = Some gid /\
    exists rows, game s1 = (game s ++ rows)%list.
Proof.
  intros H. rewrite insertGame_one in H.
  destruct (getTournamentData g) as [e|t] eqn:Ht; [discriminate|].
  exists t.
  destruct (Sql.game_id_where (t, tourn_game_id g) (game s)) as [gid|] eqn:Hg.
  - injection H as <- <-. exists gid. split; [reflexivity|].
    split; [exact Hg|]. exists []. cbn. now rewrite app_nil_r.
  - destruct (team_ids fuel g s) as [ids s0| |] eqn:Hids; try discriminate.
    injection H as <- <-.
    pose proof (team_ids_only_team fuel g s) as K. rewrite Hids in K.
    destruct K as (Kg & _). cbn in Kg.
    eexists. split; [reflexivity|]. split.
    + apply game_id_where_added. now rewrite Kg.
    + cbn [Sql.add_game game]. rewrite Kg. now eexists.
Qed.

(** X13.  After a call of [insertGame] on a record has returned, [getGameId]
    finds the game of the record, and its id is in the list that
    [getGameIdsByTournament] gives for the tournament key of the record;
    the ids listed before the call are still listed. *)
Theorem insertGame_listed fuel g s st s1 :
  insertGame fuel [g] s = Ok st s1 ->
  exists t gid,
    getTournamentData g = inr t /\
    getGameId 1 g s1 = Ok gid s1 /\
    In gid (getGameIdsByTournament t s1) /\
    forall id,
      In id (getGameIdsByTournament t s) ->
      In id (getGameIdsByTournament t s1).
Proof.
  intros H.
  destruct (insertGame_found _ _ _ _ _ H) as (t & gid & Ht & Hg & rows & E).
  exists t, gid. split; [exact Ht|].
  split; [now apply getGameId_found with (t := t)|]. split.
  - apply listed_iff. unfold Sql.game_id_where in Hg.
    destruct (find (Sql.game_matches (t, tourn_game_id g)) (game s1))
      as [row|] eqn:Ef; [|discriminate].
    injection Hg as Hid. apply find_some in Ef. destruct Ef as [Hin Hm].
    apply game_matches_key in Hm. injection Hm as Hm _. now exists row.
  - intros id Hid. apply listed_iff in Hid. apply listed_iff.
    destruct Hid as (row & Hin & Hrow). exists row.
    split; [|exact Hrow]. rewrite E. apply in_or_app. now left.
Qed.

Lemma insertGame_listed_witness :
  insertGame 2 [eu_game4] eu_summer_store = Ok 1 eu_two_games_store /\
  getGameId 1 eu_game4 eu_two_games_store = Ok 2 eu_two_games_store /\
  getGameIdsByTournament "2017/Summer/EU" eu_two_games_store = [1; 2].
Proof.
  assert (H : insertGame 2 [eu_game4] eu_summer_store =
              Ok 1 eu_two_games_store) by reflexivity.
  split; [exact H|].
  destruct (insertGame_listed 2 eu_game4 eu_summer_store 1
              eu_two_games_store H) as (t & gid & Ht & Hgid & _).
  split; [|reflexivity].
  cbv in Ht. injection Ht as <-. rewrite Hgid. cbv in Hgid.
  injection Hgid as <-. reflexivity.
Defined.

Lemma next_id_fresh {R} (id_of : R -> Z) rows r :
  In r rows -> id_of r < Sql.next_id id_of rows.
Proof.
  unfold Sql.next_id. induction rows as [|a rows IH]; [intros []|].
  cbn [fold_right]. intros [-> | Hr]; [lia|]. apply IH in Hr. lia.
Qed.

Lemma find_none_all {A} (f : A -> bool) l :
  (forall x, In x l -> f x = false) -> find f l = None.
Proof.
  induction l as [|a l IH]; intros H; [reflexivity|]. cbn.
  rewrite (H a (or_introl eq_refl)). apply IH. intros x Hx. apply H.
  now right.
Qed.

Lemma filter_none {A} (f : A -> bool) l :
  (forall x, In x l -> f x = false) -> filter f l = [].
Proof.
  induction l as [|a l IH]; intros H; [reflexivity|]. cbn.
  rewrite (H a (or_introl eq_refl)). apply IH. intros x Hx. apply H.
  now right.
Qed.

Lemma filter_all {A} (f : A -> bool) l :
  (forall x, In x l -> f x = true) -> filter f l = l.
Proof.
  induction l as [|a l IH]; intros H; [reflexivity|]. cbn.
  rewrite (H a (or_introl eq_refl)). f_equal. apply IH. intros x Hx.
  apply H. now right.
Qed.

Lemma ban_rows_lower cin cal gid side l : forall k,
  Forall (fun r => k < ban_selection_order r) (ban_rows cin cal gid side k l).
Proof.
  unfold ban_rows. induction l as [|a l IH]; intros k; [constructor|].
  rewrite numbered_from_cons. cbn [map]. constructor; [cbn; lia|].
  eapply Forall_impl; [|apply IH]. cbn. intros; lia.
Qed.

Lemma ban_rows_sorted cin cal gid side l : forall k,
  sorted_by ban_selection_order (ban_rows cin cal gid side k l).
Proof.
  unfold sorted_by. induction l as [|a l IH]; intros k; [constructor|].
  pose proof (ban_rows_lower cin cal gid side l (k + 1)) as Hl.
  unfold ban_rows in *. rewrite numbered_from_cons. cbn [map].
  constructor; [apply IH|].
  eapply Forall_impl; [|exact Hl]. cbn. intros; lia.
Qed.

Lemma pick_rows_lower cin cal gid side l : forall k,
  Forall (fun r => k < pick_selection_order r)
         (pick_rows cin cal gid side k l).
Proof.
  unfold pick_rows. induction l as [|a l IH]; intros k; [constructor|].
  rewrite numbered_from_cons. cbn [map]. constructor; [cbn; lia|].
  eapply Forall_impl; [|apply IH]. cbn. intros; lia.
Qed.

Lemma pick_rows_sorted cin cal gid side l : forall k,
  sorted_by pick_selection_order (pick_rows cin cal gid side k l).
Proof.
  unfold sorted_by. induction l as [|a l IH]; intros k; [constructor|].
  pose proof (pick_rows_lower cin cal gid side l (k + 1)) as Hl.
  unfold pick_rows in *. rewrite numbered_from_cons. cbn [map].
  constructor; [apply IH|].
  eapply Forall_impl; [|exact Hl]. cbn. intros; lia.
Qed.

(** The bans that a side shows when the rows of a game are those of one
    write. *)
Lemma select_bans_written cin cal gid blue red s s' :
  (forall r, In r (ban s) -> ban_game_id r <> gid) ->
  ban s' = (ban s ++ ban_rows cin cal gid 0 0 blue ++
            ban_rows cin cal gid 1 0 red)%list ->
  select_bans gid 0 s' = ban_view cin cal blue /\
  select_bans gid 1 s' = ban_view cin cal red.
Proof.
  intros Hold E. unfold select_bans, ban_view. rewrite E, !filter_app.
  assert (H0 : forall side, filter (ban_of gid side) (ban s) = []).
  { intros side. apply filter_none. intros r Hr. apply Hold in Hr.
    unfold ban_of. apply Z.eqb_neq in Hr. now rewrite Hr. }
  assert (Hsame : forall side l,
             filter (ban_of gid side) (ban_rows cin cal gid side 0 l) =
             ban_rows cin cal gid side 0 l).
  { intros side l. apply filter_all. intros r Hr.
    destruct (proj1 (Forall_forall _ _) (ban_rows_side cin cal gid side 0 l)
                r Hr) as [Hg Hs].
    unfold ban_of. now rewrite Hg, Hs, !Z.eqb_refl. }
  assert (Hother : forall side side' l,
             side <> side' ->
             filter (ban_of gid side) (ban_rows cin cal gid side' 0 l) = []).
  { intros side side' l Hne. apply filter_none. intros r Hr.
    destruct (proj1 (Forall_forall _ _) (ban_rows_side cin cal gid side' 0 l)
                r Hr) as [_ Hs].
    unfold ban_of. rewrite Hs. apply not_eq_sym, Z.eqb_neq in Hne.
    rewrite Hne. apply andb_false_r. }
  rewrite !H0, !Hsame, (Hother 0 1), (Hother 1 0) by lia.
  cbn [app]. rewrite app_nil_r.
  rewrite !order_by_sorted_id by apply ban_rows_sorted.
  unfold ban_rows. rewrite !map_map. now split.
Qed.

Lemma select_picks_written cin cal gid blue red s s' :
  (forall r, In r (pick s) -> pick_game_id r <> gid) ->
  pick s' = (pick s ++ pick_rows cin cal gid 0 0 blue ++
             pick_rows cin cal gid 1 0 red)%list ->
  select_picks gid 0 s' = pick_view cin cal blue /\
  select_picks gid 1 s' = pick_view cin cal red.
Proof.
  intros Hold E. unfold select_picks, pick_view. rewrite E, !filter_app.
  assert (H0 : forall side, filter (pick_of gid side) (pick s) = []).
  { intros side. apply filter_none. intros r Hr. apply Hold in Hr.
    unfold pick_of. apply Z.eqb_neq in Hr. now rewrite Hr. }
  assert (Hsame : forall side l,
             filter (pick_of gid side) (pick_rows cin cal gid side 0 l) =
             pick_rows cin cal gid side 0 l).
  { intros side l. apply filter_all. intros r Hr.
    destruct (proj1 (Forall_forall _ _)
                (pick_rows_side cin cal gid side 0 l) r Hr) as [Hg Hs].
    unfold pick_of. now rewrite Hg, Hs, !Z.eqb_refl. }
  assert (Hother : forall side side' l,
             side <> side' ->
             filter (pick_of gid side) (pick_rows cin cal gid side' 0 l) =
             []).
  { intros side side' l Hne. apply filter_none. intros r Hr.
    destruct (proj1 (Forall_forall _ _)
                (pick_rows_side cin cal gid side' 0 l) r Hr) as [_ Hs].
    unfold pick_of. rewrite Hs. apply not_eq_sym, Z.eqb_neq in Hne.
    rewrite Hne. apply andb_false_r. }
  rewrite !H0, !Hsame, (Hother 0 1), (Hother 1 0) by lia.
  cbn [app]. rewrite app_nil_r.
  rewrite !order_by_sorted_id by apply pick_rows_sorted.
  unfold pick_rows. rewrite !map_map. now split.
Qed.

Lemma getMatchData_sides_witness :
  getMatchData 1 eu_summer_drafted = inr eu_summer_match /\
  sorted_by snd (side_bans (match_blue eu_summer_match)) /\
  (In (Some 8, 2) (side_bans (match_blue eu_summer_match)) <->
   exists r, In r (ban eu_summer_drafted) /\ ban_game_id r = 1 /\
             ban_side_id r = 0 /\ ban_champion_id r = Some 8 /\
             ban_selection_order r = 2) /\
  Permutation (side_bans (match_blue eu_summer_match))
              [(Some 7, 1); (Some 8, 2); (None, 3)].
Proof.
  assert (H : getMatchData 1 eu_summer_drafted = inr eu_summer_match)
    by reflexivity.
  split; [exact H|].
  destruct (proj2 (getMatchData_sides 1 eu_summer_drafted eu_summer_match H)
              0 (match_blue eu_summer_match)
              (or_introl (conj eq_refl eq_refl)))
    as (Hs & _ & Hb & _ & Hp & _).
  split; [exact Hs|]. split; [exact (Hb (Some 8) 2)|exact Hp].
Defined.

Lemma no_draft_for_new_game s :
  references_hold s ->
  (forall r, In r (ban s) ->
             ban_game_id r <> Sql.next_id game_id_of (game s)) /\
  (forall r, In r (pick s) ->
             pick_game_id r <> Sql.next_id game_id_of (game s)) /\
  (forall r, In r (game s) ->
             game_id_of r <> Sql.next_id game_id_of (game s)).
Proof.
  intros (_ & Hb & Hp).
  assert (Hg : forall r, In r (game s) ->
                         game_id_of r <> Sql.next_id game_id_of (game s)).
  { intros r Hr. pose proof (next_id_fresh game_id_of _ _ Hr). lia. }
  split; [|split; [|exact Hg]].
  - intros r Hr. destruct (Hb r Hr) as (g & Hin & <-). now apply Hg.
  - intros r Hr. destruct (Hp r Hr) as (g & Hin & <-). now apply Hg.
Qed.

(** X14.  Writing a new game and reading it back.  In a store reached by
    calls of the writers, for a record that is normalized, is not yet in the
    game table, has both team names and whose entries resolve without an
    exception: [insertGame], then [insertBan], then [insertPick] return 1;
    [getGameId] then gives the id of the game; and [getMatchData] for that id
    gives the winner of the record and, side by side, the bans and the picks
    of the record in their order, each with its resolved champion (null for
    "none"), its position for a pick, and its place counted from 1. *)
Theorem draft_round_trip cin cal fuel g s b r :
  reachable s -> game_absent g s ->
  blue_team g = Some b -> red_team g = Some r ->
  all_resolve cin cal (bans_blue g) -> all_resolve cin cal (bans_red g) ->
  all_resolve cin cal (map fst (picks_blue g)) ->
  all_resolve cin cal (map fst (picks_red g)) ->
  exists gid s1 s2 s3,
    insertGame (S (S fuel)) [g] s = Ok 1 s1 /\
    insertBan cin cal (S fuel) [g] s1 = Ok 1 s2 /\
    insertPick cin cal (S fuel) [g] s2 = Ok 1 s3 /\
    getGameId (S fuel) g s3 = Ok gid s3 /\
    getMatchData gid s3 =
    inr (mkMatch (winning_team g)
                 (mkSideData (ban_view cin cal (bans_blue g))
                             (pick_view cin cal (picks_blue g)))
                 (mkSideData (ban_view cin cal (bans_red g))
                             (pick_view cin cal (picks_red g)))).
Proof.
  intros Hreach (t & Ht & Hg) Hb Hr Abb Abr Apb Apr.
  destruct (region_of_normalized g t Ht) as [reg Hreg].
  destruct (team_ids_two_passes fuel g s reg b r Hreg Hb Hr)
    as (ids & s0 & Hids).
  pose proof (team_ids_only_team (S (S fuel)) g s) as K. rewrite Hids in K.
  destruct K as (Kg & Kb & Kp). cbn in Kg, Kb, Kp.
  destruct (no_draft_for_new_game s (proj2 (reachable_consistent s Hreach)))
    as (Fb & Fp & Fg).
  set (gid := Sql.next_id game_id_of (game s)) in *.
  set (s1 := Sql.add_game (t, tourn_game_id g, fst ids, snd ids,
                           winning_team g) s0).
  assert (H1 : insertGame (S (S fuel)) [g] s = Ok 1 s1)
    by now rewrite insertGame_one, Ht, Hg, Hids.
  assert (Hg1 : Sql.game_id_where (t, tourn_game_id g) (game s1) = Some gid).
  { unfold s1, gid. rewrite <- Kg. apply game_id_where_added.
    now rewrite Kg. }
  assert (Hb1 : Sql.ban_where gid (ban s1) = None).
  { unfold Sql.ban_where. cbn [s1 Sql.add_game ban]. rewrite Kb.
    rewrite find_none_all; [reflexivity|].
    intros x Hx. now apply Z.eqb_neq, Fb. }
  assert (Hp1 : Sql.pick_where gid (pick s1) = None).
  { unfold Sql.pick_where. cbn [s1 Sql.add_game pick]. rewrite Kp.
    rewrite find_none_all; [reflexivity|].
    intros x Hx. now apply Z.eqb_neq, Fp. }
  set (s2 := with_bans (ban_rows cin cal gid 0 0 (bans_blue g) ++
                        ban_rows cin cal gid 1 0 (bans_red g)) s1).
  set (s3 := with_picks (pick_rows cin cal gid 0 0 (picks_blue g) ++
                         pick_rows cin cal gid 1 0 (picks_red g)) s2).
  exists gid, s1, s2, s3.
  split; [exact H1|].
  split; [now apply insertBan_writes with (t := t)|].
  split; [now apply insertPick_writes with (t := t)|].
  split; [now apply getGameId_found with (t := t)|].
  unfold getMatchData.
  assert (Hrow : find (fun x => game_id_of x =? gid) (game s3) =
                 Some (mkGameRow gid t (tourn_game_id g) (fst ids) (snd ids)
                                 (winning_team g))).
  { cbn [s3 s2 s1 with_picks with_bans Sql.add_game game].
    rewrite Kg, find_app, find_none_all.
    - cbn [find game_id_of]. fold gid. now rewrite Z.eqb_refl.
    - intros x Hx. now apply Z.eqb_neq, Fg. }
  rewrite Hrow. cbn [game_winning_team].
  destruct (select_bans_written cin cal gid (bans_blue g) (bans_red g) s s3)
    as [-> ->]; [exact Fb| |].
  { cbn [s3 s2 s1 with_picks with_bans Sql.add_game ban]. now rewrite Kb. }
  destruct (select_picks_written cin cal gid (picks_blue g) (picks_red g)
              s s3) as [-> ->]; [exact Fp| |].
  { cbn [s3 s2 s1 with_picks with_bans Sql.add_game pick]. now rewrite Kp. }
  reflexivity.
Qed.

Lemma draft_round_trip_witness :
  reachable empty_store /\ game_absent eu_summer empty_store /\
  exists s3,
    bind (insertGame 2 [eu_summer])
         (fun _ => bind (insertBan sample_id sample_alias 1 [eu_summer])
                        (fun _ => insertPick sample_id sample_alias 1
                                             [eu_summer]))
         empty_store = Ok 1 s3 /\
    getMatchData 1 s3 = inr eu_summer_match.
Proof.
  assert (Hr : reachable empty_store) by apply steps_refl.
  assert (Ha : game_absent eu_summer empty_store)
    by (exists "2017/Summer/EU"; split; reflexivity).
  assert (Hbb : all_resolve sample_id sample_alias (bans_blue eu_summer))
    by (repeat constructor; eexists; reflexivity).
  assert (Hbr : all_resolve sample_id sample_alias (bans_red eu_summer))
    by (repeat constructor; eexists; reflexivity).
  assert (Hpb : all_resolve sample_id sample_alias
                            (map fst (picks_blue eu_summer)))
    by (repeat constructor; eexists; reflexivity).
  assert (Hpr : all_resolve sample_id sample_alias
                            (map fst (picks_red eu_summer)))
    by (repeat constructor; eexists; reflexivity).
  split; [exact Hr|]. split; [exact Ha|].
  destruct (draft_round_trip sample_id sample_alias 0 eu_summer empty_store
              "G2" "FNC" Hr Ha eq_refl eq_refl Hbb Hbr Hpb Hpr)
    as (gid & s1 & s2 & s3 & H1 & H2 & H3 & Hgid & Hm).
  exists s3. unfold bind. rewrite H1, H2, H3. split; [reflexivity|].
  assert (Eg : gid = 1).
  { cbv in H1. injection H1 as <-. cbv in H2. injection H2 as <-.
    cbv in H3. injection H3 as <-. cbv in Hgid. now injection Hgid as <-. }
  subst gid. exact Hm.
Defined.

(** ** getTournamentData: the keys it returns *)

Lemma span_digits_spec s :
  s = fst (Re.span_digits s) ++ snd (Re.span_digits s) /\
  digits (fst (Re.span_digits s)) = true /\
  head_not_digit (snd (Re.span_digits s)) = true.
Proof.
  induction s as [|c s IH]; [now repeat split|].
  cbn [Re.span_digits]. destruct (Re.isdigit c) eqn:Hc.
  - destruct (Re.span_digits s) as [d rest]. cbn [fst snd] in *.
    destruct IH as (E & Hd & Hr). repeat split; auto.
    + cbn. now rewrite <- E.
    + unfold digits. cbn. rewrite Hc. exact Hd.
  - cbn. now rewrite Hc.
Qed.

Lemma search_digits_Some s y :
  Re.search_digits s = Some y -> first_digit_run s y.
Proof.
  induction s as [|c s IH]; [discriminate|].
  cbn [Re.search_digits]. destruct (Re.isdigit c) eqn:Hc.
  - intros [= <-].
    destruct (span_digits_spec (String c s)) as (E & Hd & Hr).
    exists "", (snd (Re.span_digits (String c s))).
    repeat split; auto.
    cbn [Re.span_digits]. rewrite Hc. destruct (Re.span_digits s).
    discriminate.
  - intros H. destruct (IH H) as (pre & post & -> & Hpre & Hy & Hne & Hpost).
    exists (String c pre), post. repeat split; auto.
    unfold no_digit. cbn. rewrite Hc. exact Hpre.
Qed.

(** X15.  Every key that [getTournamentData] returns is a year, a slash and
    a body: the year is the first run of digits of the season, or of the
    region when there is no season; with a split the region is a key of
    [regionsDict] and the body is the split, a slash and its abbreviation;
    without one the region stripped of its digits is a key of
    [internationalEventsDict] and the body is its abbreviation. *)
Theorem getTournamentData_returns g key :
  getTournamentData g = inr key ->
  exists year body,
    key = year ++ "/" ++ body /\
    first_digit_run (year_source g) year /\
    match split g with
    | Some sp =>
        exists abbrv,
          lookup regionsDict (region g) = Some abbrv /\
          body = sp ++ "/" ++ abbrv
    | None =>
        lookup internationalEventsDict (event_name (region g)) = Some body
    end.
Proof.
  unfold getTournamentData, getitem. fold (event_name (region g)).
  assert (Hy : match season g with
               | None => group0 (Re.search_digits (region g))
               | Some se => group0 (Re.search_digits se)
               end = group0 (Re.search_digits (year_source g))).
  { unfold year_source. now destruct (season g). }
  rewrite Hy.
  destruct (Re.search_digits (year_source g)) as [year|] eqn:Ey;
    [|discriminate].
  apply search_digits_Some in Ey. cbn [group0].
  destruct (split g) as [sp|].
  - destruct (lookup regionsDict (region g)) as [abbrv|]; [|discriminate].
    intros [= <-]. exists year, (sp ++ "/" ++ abbrv).
    repeat split; auto. now exists abbrv.
  - destruct (lookup internationalEventsDict (event_name (region g)))
      as [abbrv|]; [|discriminate].
    intros [= <-]. now exists year, abbrv.
Qed.

Lemma getTournamentData_returns_witness :
  getTournamentData msi2019 = inr "2019/MSI" /\
  exists year body,
    "2019/MSI" = year ++ "/" ++ body /\
    first_digit_run (year_source msi2019) year /\
    lookup internationalEventsDict (event_name (region msi2019)) = Some body.
Proof.
  assert (H : getTournamentData msi2019 = inr "2019/MSI") by reflexivity.
  split; [exact H|].
  exact (getTournamentData_returns msi2019 "2019/MSI" H).
Defined.

Lemma regions_have_no_digit k abbrv :
  lookup regionsDict k = Some abbrv -> Re.search_digits k = None.
Proof.
  unfold regionsDict. cbn [lookup].
  repeat match goal with
         | |- context [String.eqb ?a k] =>
             destruct (String.eqb_spec a k) as [<- |]; [reflexivity|]
         end.
  discriminate.
Qed.

(** X16.  A record with a split and without a season is never normalized:
    the year is then read from the region, and no key of [regionsDict] holds
    a digit.  When the region is a key of [regionsDict] the call ends with
    [AttributeError]. *)
Theorem split_needs_season g sp :
  split g = Some sp -> season g = None ->
  (forall key, getTournamentData g <> inr key) /\
  (forall abbrv, lookup regionsDict (region g) = Some abbrv ->
                 getTournamentData g = inl AttributeError).
Proof.
  intros Hsp Hse. unfold getTournamentData, getitem. rewrite Hsp, Hse.
  destruct (lookup regionsDict (region g)) as [abbrv|] eqn:El.
  - rewrite (regions_have_no_digit _ _ El). cbn. split; [discriminate|].
    reflexivity.
  - split; [|discriminate].
    destruct (group0 (Re.search_digits (region g))); discriminate.
Qed.

Lemma split_needs_season_witness :
  split eu_no_season = Some "Summer" /\ season eu_no_season = None /\
  getTournamentData eu_no_season = inl AttributeError.
Proof.
  split; [reflexivity|]. split; [reflexivity|].
  exact (proj2 (split_needs_season eu_no_season "Summer" eq_refl eq_refl)
           "EU" eq_refl).
Defined.

(** ** The exceptions of the writers *)

Lemma getTournamentData_errors g e :
  getTournamentData g = inl e ->
  e = AttributeError \/ e = KeyError (region g) \/
  e = KeyError (event_name (region g)).
Proof.
  unfold getTournamentData, getitem. fold (event_name (region g)).
  destruct (season g);
    match goal with
    | |- context [group0 ?m] => destruct m
    end; cbn [group0];
    try (intros [= <-]; now left);
    destruct (split g);
    match goal with
    | |- context [lookup ?d ?k] => destruct (lookup d k)
    end; try discriminate; intros [= <-]; auto.
Qed.

Lemma team_ids_no_raise fuel g reg :
  region_of g = inr reg ->
  forall s e s', team_ids fuel g s <> Raise e s'.
Proof.
  intros Hreg. induction fuel as [|fuel IH]; intros s e s'; [discriminate|].
  destruct (Sql.team_id_where (blue_team g) (team s)) as [b|] eqn:Eb;
    [destruct (Sql.team_id_where (red_team g) (team s)) as [r|] eqn:Er|].
  1: { rewrite (team_ids_found _ _ _ _ _ Eb Er). discriminate. }
  all: rewrite team_ids_retry by auto; unfold bind;
    rewrite insertTeam_one, Hreg; apply IH.
Qed.

Lemma insertGame_one_raises fuel g s e s' :
  insertGame fuel [g] s = Raise e s' ->
  getTournamentData g = inl e /\ s' = s.
Proof.
  rewrite insertGame_one.
  destruct (getTournamentData g) as [e0|t] eqn:Ht; [now intros [= <- <-]|].
  destruct (region_of_normalized g t Ht) as [reg Hreg].
  destruct (Sql.game_id_where (t, tourn_game_id g) (game s)); [discriminate|].
  pose proof (team_ids_no_raise fuel g reg Hreg s) as N.
  destruct (team_ids fuel g s) as [ids s0|e0 s0|]; try discriminate.
  now destruct (N e0 s0).
Qed.

(** X17.  [insertGame] raises only for a record that [getTournamentData]
    rejects, with the [AttributeError] or [KeyError] of that call and before
    it writes anything for the record: the store it leaves is the one the
    records before returned. *)
Theorem insertGame_raises fuel gs s e s' :
  insertGame fuel gs s = Raise e s' ->
  exists l1 g l2 st,
    gs = (l1 ++ g :: l2)%list /\
    insertGame fuel l1 s = Ok st s' /\
    getTournamentData g = inl e /\
    (e = AttributeError \/ e = KeyError (region g) \/
     e = KeyError (event_name (region g))).
Proof.
  revert s. induction gs as [|g gs IH]; intros s H; [discriminate|].
  change (g :: gs) with ([g] ++ gs)%list in H. rewrite insertGame_app in H.
  destruct (insertGame fuel [g] s) as [st s1|e1 s1|] eqn:H1; cbn in H;
    [|injection H as -> ->|discriminate].
  - destruct (IH s1 H) as (l1 & g' & l2 & st' & -> & Hl1 & Hg & He).
    exists (g :: l1), g', l2, st'. split; [reflexivity|].
    split; [|split; assumption].
    change (g :: l1) with ([g] ++ l1)%list.
    now rewrite insertGame_app, H1.
  - apply insertGame_one_raises in H1. destruct H1 as [Hg ->].
    exists [], g, gs, 1. split; [reflexivity|]. split; [reflexivity|].
    split; [exact Hg|now apply getTournamentData_errors].
Qed.

Lemma insertGame_raises_witness :
  insertGame 2 [eu_summer; oceania; eu_game4] empty_store =
  Raise (KeyError "Oceania") eu_summer_store /\
  exists l1 g l2 st,
    [eu_summer; oceania; eu_game4] = (l1 ++ g :: l2)%list /\
    insertGame 2 l1 empty_store = Ok st eu_summer_store /\
    getTournamentData g = inl (KeyError "Oceania").
Proof.
  assert (H : insertGame 2 [eu_summer; oceania; eu_game4] empty_store =
              Raise (KeyError "Oceania") eu_summer_store) by reflexivity.
  split; [exact H|].
  destruct (insertGame_raises 2 _ _ _ _ H)
    as (l1 & g & l2 & st & E & H1 & Hg & _).
  now exists l1, g, l2, st.
Defined.

Lemma getGameId_Raise fuel g s e s0 :
  getGameId fuel g s = Raise e s0 ->
  (getTournamentData g = inl e /\ s0 = s) \/
  (e = NameError "game" /\ s0 = say game_warning s /\ game_absent g s).
Proof.
  unfold getGameId, bind, lift, raise, ret.
  destruct (getTournamentData g) as [e0|t] eqn:Ht;
    [intros [= <- <-]; now left|].
  destruct fuel as [|fuel]; [discriminate|].
  cbn [getGameId_loop]. unfold bind, Sql.select_game_id.
  destruct (Sql.game_id_where (t, tourn_game_id g) (game s)) eqn:Hg;
    [discriminate|].
  cbn. intros [= <- <-]. right. split; [reflexivity|].
  split; [reflexivity|]. now exists t.
Qed.

Lemma ban_loop_Raise cin cal gid side bans e : forall k s s',
  for_acc bans k (ban_entry cin cal gid side) s = Raise e s' ->
  exists pre name post,
    bans = (pre ++ name :: post)%list /\ all_resolve cin cal pre /\
    resolve cin cal name = inl e /\
    s' = with_bans (ban_rows cin cal gid side k pre) s.
Proof.
  induction bans as [|b bans IH]; intros k s s' H; [discriminate|].
  cbn [for_acc] in H. unfold bind in H. rewrite ban_entry_resolve in H.
  destruct (resolve cin cal b) as [e0|id] eqn:Hb.
  - injection H as <- <-. exists [], b, bans.
    split; [reflexivity|]. split; [constructor|]. split; [exact Hb|].
    now rewrite with_bans_nil.
  - destruct (IH _ _ _ H) as (pre & name & post & -> & Hall & He & ->).
    exists (b :: pre), name, post. split; [reflexivity|].
    split; [constructor; [exists id; exact Hb|exact Hall]|].
    split; [exact He|].
    rewrite with_bans_app. unfold ban_rows.
    rewrite numbered_from_cons. cbn [map fst snd]. now rewrite Hb.
Qed.

Lemma pick_loop_Raise cin cal gid side picks e : forall k s s',
  for_acc picks k (pick_entry cin cal gid side) s = Raise e s' ->
  exists pre pp post,
    picks = (pre ++ pp :: post)%list /\ all_resolve cin cal (map fst pre) /\
    resolve cin cal (fst pp) = inl e /\
    s' = with_picks (pick_rows cin cal gid side k pre) s.
Proof.
  induction picks as [|[b position] picks IH]; intros k s s' H;
    [discriminate|].
  cbn [for_acc] in H. unfold bind in H. rewrite pick_entry_resolve in H.
  destruct (resolve cin cal b) as [e0|id] eqn:Hb.
  - injection H as <- <-. exists [], (b, position), picks.
    split; [reflexivity|]. split; [constructor|]. split; [exact Hb|].
    now rewrite with_picks_nil.
  - destruct (IH _ _ _ H) as (pre & pp & post & -> & Hall & He & ->).
    exists ((b, position) :: pre), pp, post. split; [reflexivity|].
    split; [constructor; [exists id; exact Hb|exact Hall]|].
    split; [exact He|].
    rewrite with_picks_app. unfold pick_rows.
    rewrite numbered_from_cons. cbn [map fst snd]. now rewrite Hb.
Qed.

(** X18.  [insertBan] on a record ends with an exception in three cases
    only: [getTournamentData] rejects the record, and nothing is written or
    printed; the game is not in the game table, and [NameError] follows the
    warning with no table touched; or the alias conversion fails on an entry
    of the record, which has neither an identifier nor an alias, and the
    rows left behind are rows of that game only. *)
Theorem insertBan_raises cin cal fuel g s e s' :
  insertBan cin cal fuel [g] s = Raise e s' ->
  (getTournamentData g = inl e /\ s' = s) \/
  (e = NameError "game" /\ s' = say game_warning s /\ game_absent g s) \/
  (exists gid name rows,
      getGameId fuel g s = Ok gid s /\
      In name (bans_blue g ++ bans_red g) /\
      resolve cin cal name = inl e /\
      s' = with_bans rows s /\
      Forall (fun r => ban_game_id r = gid) rows).
Proof.
  rewrite insertBan_one.
  destruct (getTournamentData g) as [e0|t0] eqn:Ht0;
    [intros [= <- <-]; now left|].
  destruct (getGameId fuel g s) as [gid s0|e0 s0|] eqn:Hgid;
    [|intros [= <- <-]|discriminate].
  2: { destruct (getGameId_Raise _ _ _ _ _ Hgid) as [[Hc _] | H];
         [congruence|now right; left]. }
  destruct (getGameId_Ok _ _ _ _ _ Hgid) as (-> & _).
  destruct (Sql.ban_where gid (ban s)); [discriminate|].
  assert (Hgame : forall side k l,
             Forall (fun r => ban_game_id r = gid)
                    (ban_rows cin cal gid side k l)).
  { intros side k l. eapply Forall_impl; [|apply ban_rows_side].
    now intros r []. }
  destruct (for_acc (bans_blue g) 0 (ban_entry cin cal gid 0) s)
    as [k1 s1|e1 s1|] eqn:Hblue; [| |discriminate].
  - destruct (for_acc (bans_red g) 0 (ban_entry cin cal gid 1) s1)
      as [k2 s2|e2 s2|] eqn:Hred; try discriminate.
    intros [= <- <-]. right; right.
    pose proof (ban_loop_returns _ _ _ _ _ _ _ _ _ Hblue) as Ab.
    rewrite (ban_loop_ok cin cal gid 0 _ 0 s Ab) in Hblue.
    injection Hblue as _ <-.
    destruct (ban_loop_Raise _ _ _ _ _ _ _ _ _ Hred)
      as (pre & name & post & E & _ & He & ->).
    exists gid, name, (ban_rows cin cal gid 0 0 (bans_blue g) ++
                       ban_rows cin cal gid 1 0 pre)%list.
    split; [reflexivity|]. split.
    { apply in_or_app. right. rewrite E. apply in_or_app. right. now left. }
    split; [exact He|]. split; [now rewrite with_bans_app|].
    apply Forall_app. split; apply Hgame.
  - intros [= <- <-]. right; right.
    destruct (ban_loop_Raise _ _ _ _ _ _ _ _ _ Hblue)
      as (pre & name & post & E & _ & He & ->).
    exists gid, name, (ban_rows cin cal gid 0 0 pre).
    split; [reflexivity|]. split.
    { apply in_or_app. left. rewrite E. apply in_or_app. right. now left. }
    split; [exact He|]. split; [reflexivity|apply Hgame].
Qed.

Lemma insertBan_raises_witness :
  insertBan sample_id sample_alias 1 [eu_summer] empty_store =
  Raise (NameError "game") (say game_warning empty_store) /\
  game_absent eu_summer empty_store.
Proof.
  assert (H : insertBan sample_id sample_alias 1 [eu_summer] empty_store =
              Raise (NameError "game") (say game_warning empty_store))
    by reflexivity.
  split; [exact H|].
  destruct (insertBan_raises _ _ _ _ _ _ _ H)
    as [[Hc _] | [(_ & _ & Ha) | (gid & name & rows & Hc & _)]].
  - discriminate Hc.
  - exact Ha.
  - discriminate Hc.
Defined.

(** X19.  [insertPick] ends with an exception in the same three cases, the
    rows left behind in the third being pick rows of the game. *)
Theorem insertPick_raises cin cal fuel g s e s' :
  insertPick cin cal fuel [g] s = Raise e s' ->
  (getTournamentData g = inl e /\ s' = s) \/
  (e = NameError "game" /\ s' = say game_warning s /\ game_absent g s) \/
  (exists gid name rows,
      getGameId fuel g s = Ok gid s /\
      In name (map fst (picks_blue g ++ picks_red g)) /\
      resolve cin cal name = inl e /\
      s' = with_picks rows s /\
      Forall (fun r => pick_game_id r = gid) rows).
Proof.
  rewrite insertPick_one.
  destruct (getTournamentData g) as [e0|t0] eqn:Ht0;
    [intros [= <- <-]; now left|].
  destruct (getGameId fuel g s) as [gid s0|e0 s0|] eqn:Hgid;
    [|intros [= <- <-]|discriminate].
  2: { destruct (getGameId_Raise _ _ _ _ _ Hgid) as [[Hc _] | H];
         [congruence|now right; left]. }
  destruct (getGameId_Ok _ _ _ _ _ Hgid) as (-> & _).
  destruct (Sql.pick_where gid (pick s)); [discriminate|].
  destruct (for_acc (picks_blue g) 0 (pick_entry cin cal gid 0) s)
    as [k1 s1|e1 s1|] eqn:Hblue; [| |discriminate].
  - destruct (for_acc (picks_red g) 0 (pick_entry cin cal gid 1) s1)
      as [k2 s2|e2 s2|] eqn:Hred; try discriminate.
    intros [= <- <-]. right; right.
    pose proof (pick_loop_returns _ _ _ _ _ _ _ _ _ Hblue) as Ab.
    rewrite (pick_loop_ok cin cal gid 0 _ 0 s Ab) in Hblue.
    injection Hblue as _ <-.
    destruct (pick_loop_Raise _ _ _ _ _ _ _ _ _ Hred)
      as (pre & pp & post & E & _ & He & ->).
    exists gid, (fst pp), (pick_rows cin cal gid 0 0 (picks_blue g) ++
                           pick_rows cin cal gid 1 0 pre)%list.
    split; [reflexivity|]. split.
    { rewrite map_app. apply in_or_app. right. rewrite E, map_app.
      apply in_or_app. right. now left. }
    split; [exact He|]. split; [now rewrite with_picks_app|].
    apply Forall_app. split; apply pick_rows_game.
  - intros [= <- <-]. right; right.
    destruct (pick_loop_Raise _ _ _ _ _ _ _ _ _ Hblue)
      as (pre & pp & post & E & _ & He & ->).
    exists gid, (fst pp), (pick_rows cin cal gid 0 0 pre).
    split; [reflexivity|]. split.
    { rewrite map_app. apply in_or_app. left. rewrite E, map_app.
      apply in_or_app. right. now left. }
    split; [exact He|]. split; [reflexivity|apply pick_rows_game].
Qed.

Lemma insertPick_raises_witness :
  insertPick sample_id sample_alias 1 [eu_summer] empty_store =
  Raise (NameError "game") (say game_warning empty_store) /\
  game_absent eu_summer empty_store.
Proof.
  assert (H : insertPick sample_id sample_alias 1 [eu_summer] empty_store =
              Raise (NameError "game") (say game_warning empty_store))
    by reflexivity.
  split; [exact H|].
  destruct (insertPick_raises _ _ _ _ _ _ _ H)
    as [[Hc _] | [(_ & _ & Ha) | (gid & name & rows & Hc & _)]].
  - discriminate Hc.
  - exact Ha.
  - discriminate Hc.
Defined.
